(** * Portfolio page script (src/js/script.js): a shallow embedding

    The script drives a static portfolio page with four classes:
    [ThemeManager], [NavigationManager], [FormValidator] and the
    coordinator [PortfolioApp].  Each class is embedded as a record for
    the instance (together with the slice of the page it reads and
    writes) and one function per method.  Methods that can raise are
    written in a small state-and-exception monad, because a JavaScript
    exception leaves the mutations made before it in place.

    Strings are sequences of UTF-16 code units, as in the language:
    [length] is [String.prototype.length] and the white-space class is
    the one shared by [trim] and the regular-expression escape [\s]. *)

From Stdlib Require Import NArith QArith String Ascii Bool Lia.
From stdpp Require Import base option list gmap.

Local Open Scope N_scope.
Local Open Scope list_scope.

(* ------------------------------------------------------------------ *)
(** ** JavaScript strings *)
(* ------------------------------------------------------------------ *)

(** An ASCII literal as code units. *)
Definition js (s : string) : list N :=
  List.map N_of_ascii (list_ascii_of_string s).

(** ECMAScript [WhiteSpace] and [LineTerminator] code points. *)
Definition isWhiteSpace (c : N) : bool :=
  (c =? 0x09) || (c =? 0x0B) || (c =? 0x0C) || (c =? 0x20) || (c =? 0xA0)
  || (c =? 0x1680) || ((0x2000 <=? c) && (c <=? 0x200A))
  || (c =? 0x202F) || (c =? 0x205F) || (c =? 0x3000) || (c =? 0xFEFF).

Definition isLineTerminator (c : N) : bool :=
  (c =? 0x0A) || (c =? 0x0D) || (c =? 0x2028) || (c =? 0x2029).

(** The class stripped by [trim] and matched by [\s]. *)
Definition isSpace (c : N) : bool := isWhiteSpace c || isLineTerminator c.

Fixpoint trimStart (s : list N) : list N :=
  match s with
  | [] => []
  | c :: s' => if isSpace c then trimStart s' else s
  end.

Definition trimEnd (s : list N) : list N := rev (trimStart (rev s)).

(** [String.prototype.trim]. *)
Definition trim (s : list N) : list N := trimEnd (trimStart s).

(** Strict equality [===] on strings. *)
Definition str_eqb (a b : list N) : bool := bool_decide (a = b).

(** Truthiness of a string: the empty string is the only falsy one. *)
Definition truthy_str (s : list N) : bool :=
  match s with [] => false | _ => true end.

(* ------------------------------------------------------------------ *)
(** ** Regular expressions (the fragment the script uses) *)
(* ------------------------------------------------------------------ *)

Module Regex.

(** A member of a bracketed character class. *)
Inductive class_atom :=
| ClassEscape_s            (* \s *)
| ClassChar (c : N).       (* a literal character *)

(** A term that consumes exactly one character. *)
Inductive char_matcher :=
| Lit (c : N)                         (* @   \.   *)
| NegClass (l : list class_atom).     (* [^ ... ] *)

(** Pattern terms: assertions, single characters and greedy [+]. *)
Inductive term :=
| Bol                         (* ^ *)
| Eol                         (* $ *)
| One (m : char_matcher)
| Plus (m : char_matcher).    (* m+ *)

Definition class_atom_matches (a : class_atom) (c : N) : bool :=
  match a with
  | ClassEscape_s => isSpace c
  | ClassChar d => c =? d
  end.

Definition char_matches (m : char_matcher) (c : N) : bool :=
  match m with
  | Lit d => c =? d
  | NegClass l => negb (existsb (fun a => class_atom_matches a c) l)
  end.

(** Greedy repetition with backtracking: take one more character when
    possible, and fall back to the continuation [k] otherwise. *)
Fixpoint plus_loop (m : char_matcher) (k : nat -> list N -> bool)
    (pos : nat) (s : list N) : bool :=
  match s with
  | [] => k pos []
  | c :: s' => (char_matches m c && plus_loop m k (S pos) s') || k pos s
  end.

(** Backtracking matcher.  [pos] is the index of [s] in the input;
    without the [m] flag, [^] holds at index 0 only and [$] at the end
    of the input only. *)
Fixpoint match_terms (p : list term) (pos : nat) (s : list N) : bool :=
  match p with
  | [] => true
  | Bol :: p' => Nat.eqb pos 0 && match_terms p' pos s
  | Eol :: p' => match s with [] => match_terms p' pos s | _ => false end
  | One m :: p' =>
      match s with
      | [] => false
      | c :: s' => char_matches m c && match_terms p' (S pos) s'
      end
  | Plus m :: p' =>
      match s with
      | [] => false
      | c :: s' =>
          char_matches m c && plus_loop m (match_terms p') (S pos) s'
      end
  end.

(** Try every start index from [pos] on, leftmost first. *)
Fixpoint search (p : list term) (pos : nat) (s : list N) : bool :=
  match_terms p pos s
  || match s with
     | [] => false
     | _ :: s' => search p (S pos) s'
     end.

(** [RegExp.prototype.test] for a pattern without the [g] and [y]
    flags: the search starts at index 0. *)
Definition test (p : list term) (s : list N) : bool := search p 0 s.

End Regex.

(* ------------------------------------------------------------------ *)
(** ** Exceptions and stateful methods *)
(* ------------------------------------------------------------------ *)

(** What can be raised: the engine's [TypeError] (a property read on
    [null] or [undefined]), a selector [SyntaxError], a storage access
    refused by the browser, and the rejection of an awaited promise. *)
Inductive exn := TypeError | SyntaxError | StorageError | Rejection.

(** A method either returns a value or raises; in both cases the
    instance is left in the state reached so far. *)
Inductive outcome (S A : Type) :=
| Ret (a : A) (s : S)
| Throw (e : exn) (s : S).
Arguments Ret {S A} a s.
Arguments Throw {S A} e s.

Definition final {S A} (o : outcome S A) : S :=
  match o with Ret _ s => s | Throw _ s => s end.

Definition returns {S A} (o : outcome S A) : bool :=
  match o with Ret _ _ => true | Throw _ _ => false end.

Definition M (S A : Type) : Type := S -> outcome S A.

Definition ret {S A} (a : A) : M S A := fun s => Ret a s.

Definition bind {S A B} (c : M S A) (k : A -> M S B) : M S B :=
  fun s => match c s with
           | Ret a s' => k a s'
           | Throw e s' => Throw e s'
           end.

Definition throw {S A} (e : exn) : M S A := fun s => Throw e s.
Definition get {S} : M S S := fun s => Ret s s.
Definition modify {S} (f : S -> S) : M S unit := fun s => Ret tt (f s).

(** The monad structure, so that methods read [x ← c; k] and [c;; k]. *)
#[export] Instance M_ret {S} : MRet (M S) := fun A a => ret a.
#[export] Instance M_bind {S} : MBind (M S) := fun A B k c => bind c k.

(** [try { body } catch (e) { handler e }]. *)
Definition try_catch {S A} (body : M S A) (handler : exn -> M S A) : M S A :=
  fun s => match body s with
           | Ret a s' => Ret a s'
           | Throw e s' => handler e s'
           end.

(** [try { body } finally { fin }]: [fin] runs on both exits; what
    [body] returned or raised stands unless [fin] itself raises. *)
Definition finally {S A} (body : M S A) (fin : M S unit) : M S A :=
  fun s => match body s with
           | Ret a s' =>
               match fin s' with
               | Ret _ s'' => Ret a s''
               | Throw e s'' => Throw e s''
               end
           | Throw e s' =>
               match fin s' with
               | Ret _ s'' => Throw e s''
               | Throw e' s'' => Throw e' s''
               end
           end.

(** [list.forEach(f)]: a raise in [f] ends the loop. *)
Fixpoint forEach {S A} (l : list A) (f : A -> M S unit) : M S unit :=
  match l with
  | [] => ret tt
  | x :: l' => f x;; forEach l' f
  end.

(* ------------------------------------------------------------------ *)
(** ** Property reads on object literals *)
(* ------------------------------------------------------------------ *)

(** The value of a property read [obj[key]], as far as the script can
    tell values apart: a string, something inherited from
    [Object.prototype] (a function or an object), or [undefined]. *)
Inductive jsval :=
| Undefined
| Str (s : list N)
| Inherited (key : list N).

Definition truthy (v : jsval) : bool :=
  match v with
  | Undefined => false
  | Str s => truthy_str s
  | Inherited _ => true
  end.

(** The properties every object literal inherits. *)
Definition Object_prototype_keys : list (list N) :=
  [js "constructor"; js "hasOwnProperty"; js "isPrototypeOf";
   js "propertyIsEnumerable"; js "toLocaleString"; js "toString";
   js "valueOf"; js "__proto__"; js "__defineGetter__";
   js "__defineSetter__"; js "__lookupGetter__"; js "__lookupSetter__"].

Fixpoint own_property (own : list (list N * list N)) (key : list N) : option (list N) :=
  match own with
  | [] => None
  | (k, v) :: own' => if str_eqb k key then Some v else own_property own' key
  end.

(** [obj[key]] for an object literal with string-valued own
    properties: own properties first, then the prototype chain. *)
Definition get_property (own : list (list N * list N)) (key : list N) : jsval :=
  match own_property own key with
  | Some v => Str v
  | None =>
      if bool_decide (key ∈ Object_prototype_keys) then Inherited key else Undefined
  end.

(* ------------------------------------------------------------------ *)
(** ** ThemeManager *)
(* ------------------------------------------------------------------ *)

Module Theme.

Definition light : list N := js "light".
Definition dark : list N := js "dark".

(** [CONFIG.THEME] and [CONFIG.ANIMATION]. *)
Definition DEFAULT : list N := dark.
Definition STORAGE_KEY : list N := js "portfolio-theme".
Definition ICONS : list (list N * list N) :=
  [(light, [0xD83C; 0xDF19]); (dark, [0x2600; 0xFE0F])].
Definition LABELS : list (list N * list N) :=
  [(light, js "Modo Escuro"); (dark, js "Modo Claro")].
Definition THEME_TRANSITION_DURATION : N := 300.

(** [sessionStorage]: the browser may refuse reads or writes. *)
Record Storage := {
  readable : bool;
  writable : bool;
  items : gmap (list N) (list N)
}.

(** The [.theme-toggle] control: the text of its [.theme-icon] child
    when it has one, and its two ARIA attributes. *)
Record ToggleButton := {
  icon : option jsval;
  ariaLabel : option jsval;
  ariaPressed : option bool
}.

(** The part of the page the theme code reads and writes. *)
Record Page := {
  storage : Storage;
  toggleControl : option ToggleButton;
  clickListeners : nat;                 (* on the toggle control *)
  dataTheme : option (list N);          (* body[data-theme] *)
  transitionClass : bool;               (* body.theme-transition *)
  timers : list N                       (* pending removals of it *)
}.

(** The instance; [button] tells whether the control was found. *)
Record ThemeManager := {
  currentTheme : list N;
  button : bool
}.

Record World := {
  this : ThemeManager;
  page : Page
}.

Definition with_this (t : ThemeManager) (w : World) : World :=
  {| this := t; page := page w |}.
Definition with_page (p : Page) (w : World) : World :=
  {| this := this w; page := p |}.
Definition with_currentTheme (t : list N) (w : World) : World :=
  with_this {| currentTheme := t; button := button (this w) |} w.
Definition with_storage (s : Storage) (p : Page) : Page :=
  {| storage := s; toggleControl := toggleControl p;
     clickListeners := clickListeners p; dataTheme := dataTheme p;
     transitionClass := transitionClass p; timers := timers p |}.
Definition with_toggleControl (b : option ToggleButton) (p : Page) : Page :=
  {| storage := storage p; toggleControl := b;
     clickListeners := clickListeners p; dataTheme := dataTheme p;
     transitionClass := transitionClass p; timers := timers p |}.

(** [sessionStorage.getItem] and [setItem]. *)
Definition getItem (key : list N) : M World (option (list N)) :=
  fun w =>
    if readable (storage (page w)) then Ret (items (storage (page w)) !! key) w
    else Throw StorageError w.

Definition setItem (key v : list N) : M World unit :=
  fun w =>
    let s := storage (page w) in
    if writable s then
      Ret tt (with_page
                (with_storage {| readable := readable s; writable := writable s;
                                 items := <[key := v]> (items s) |} (page w)) w)
    else Throw StorageError w.

Definition apply (theme : list N) : M World unit :=
  modify (fun w =>
    let p := page w in
    with_page
      {| storage := storage p; toggleControl := toggleControl p;
         clickListeners := clickListeners p;
         dataTheme := if str_eqb theme dark then Some dark else None;
         transitionClass := true;
         timers := timers p ++ [THEME_TRANSITION_DURATION] |} w).

Definition updateButton : M World unit :=
  modify (fun w =>
    if negb (button (this w)) then w
    else
      let current := currentTheme (this w) in
      let nextTheme := if str_eqb current light then dark else light in
      let upd (b : ToggleButton) :=
        {| icon := (fun _ => get_property ICONS nextTheme) <$> icon b;
           ariaLabel := Some (get_property LABELS nextTheme);
           ariaPressed := Some (str_eqb current dark) |} in
      with_page (with_toggleControl (upd <$> toggleControl (page w)) (page w)) w).

Definition save : M World unit :=
  try_catch
    (w ← get; setItem STORAGE_KEY (currentTheme (this w)))
    (fun _ => ret tt).

Definition loadSavedTheme : M World unit :=
  try_catch
    (saved ← getItem STORAGE_KEY;
     modify (with_currentTheme
               match saved with
               | Some s =>
                   if truthy_str s && truthy (get_property ICONS s) then s else DEFAULT
               | None => DEFAULT
               end))
    (fun _ => modify (with_currentTheme DEFAULT)).

Definition set (theme : list N) : M World unit :=
  if negb (truthy (get_property ICONS theme)) then ret tt
  else
    modify (with_currentTheme theme);;
    apply theme;;
    save;;
    updateButton.

Definition toggle : M World unit :=
  w ← get;
  let newTheme := if str_eqb (currentTheme (this w)) light then dark else light in
  set newTheme.

(** [init], after the constructor has set the two fields. *)
Definition init : M World unit :=
  w ← get;
  match toggleControl (page w) with
  | None => ret tt
  | Some _ =>
      modify (with_this {| currentTheme := currentTheme (this w); button := true |});;
      loadSavedTheme;;
      modify (fun w =>
        let p := page w in
        with_page
          {| storage := storage p; toggleControl := toggleControl p;
             clickListeners := S (clickListeners p); dataTheme := dataTheme p;
             transitionClass := transitionClass p; timers := timers p |} w);;
      w' ← get;
      apply (currentTheme (this w'))
  end.

(** [new ThemeManager()] on a page. *)
Definition new (p : Page) : outcome World unit :=
  init {| this := {| currentTheme := DEFAULT; button := false |}; page := p |}.

(** The methods of the class, and the lookup of one by name on the
    prototype: any other name reads as [undefined]. *)
Inductive Method :=
| m_init | m_toggle | m_set | m_apply | m_updateButton | m_save | m_loadSavedTheme.

Definition methods : list (list N * Method) :=
  [(js "init", m_init); (js "toggle", m_toggle); (js "set", m_set);
   (js "apply", m_apply); (js "updateButton", m_updateButton);
   (js "save", m_save); (js "loadSavedTheme", m_loadSavedTheme)].

Fixpoint method_named_in (l : list (list N * Method)) (key : list N) : option Method :=
  match l with
  | [] => None
  | (k, m) :: l' => if str_eqb k key then Some m else method_named_in l' key
  end.

Definition method_named (key : list N) : option Method := method_named_in methods key.

(** A call [tm.m()] without arguments: a missing argument is
    [undefined], which as a property key reads ["undefined"]. *)
Definition call (m : Method) : M World unit :=
  match m with
  | m_init => init
  | m_toggle => toggle
  | m_set => set (js "undefined")
  | m_apply => apply (js "undefined")
  | m_updateButton => updateButton
  | m_save => save
  | m_loadSavedTheme => loadSavedTheme
  end.

End Theme.

(* ------------------------------------------------------------------ *)
(** ** FormValidator *)
(* ------------------------------------------------------------------ *)

Module Form.

(** The keys of [this.fields], in insertion order. *)
Inductive FieldName := name | email | message.

#[export] Instance FieldName_eq_dec : EqDecision FieldName.
Proof. solve_decision. Defined.

Definition fieldNames : list FieldName := [name; email; message].

(** An [<input>] or [<textarea>]: its current value, whether its class
    list holds [form-input--error], and its [aria-invalid] attribute. *)
Record InputEl := {
  el_value : list N;
  el_errorClass : bool;
  el_ariaInvalid : option (list N)
}.

(** The element that shows a field's error text. *)
Record ErrorEl := {
  err_textContent : list N;
  err_display : list N
}.

(** One entry of [this.fields]. *)
Record Field := {
  element : option InputEl;
  errorElement : option ErrorEl;
  isValid : bool;
  value : list N
}.

Record Fields := {
  f_name : Field;
  f_email : Field;
  f_message : Field
}.

(** The submit button with its two optional children
    ([.submit-text], [.submit-loading]), each given by its
    [style.display]. *)
Record SubmitButton := {
  disabled : bool;
  loadingClass : bool;
  submitText : option (list N);
  submitLoading : option (list N)
}.

(** An inline status message ([.success-message] or
    [.form-error-message]) inside the form. *)
Record MsgEl := {
  msg_textContent : list N;
  msg_display : list N
}.

(** The form element, with the two inline messages it may hold. *)
Record FormEl := {
  successElement : option MsgEl;
  formErrorElement : option MsgEl
}.

(** The success dialog [#successModal]. *)
Record Modal := {
  modal_display : list N;
  modal_show : bool;
  modal_ariaHidden : option (list N)
}.

Inductive Focusable := FocusField (f : FieldName) | FocusSubmit | FocusModalClose.

(** Callbacks handed to [setTimeout], with their delay in ms. *)
Inductive Callback := ResolveLatency | HideSuccess | HideError.
Record Timer := { delay : N; callback : Callback }.

(** Listeners registered by the instance: on the form and its inputs
    by [setupEventListeners], on the dialog by [showSuccessMessage]. *)
Inductive Listener :=
| OnSubmit
| OnBlur (f : FieldName)
| OnInput (f : FieldName)
| CloseClickOnce
| EscapeKeydown
| BackdropClickOnce.

(** The instance together with the part of the page it touches. *)
Record FormValidator := {
  form : option FormEl;
  fields : Fields;
  submitButton : option SubmitButton;
  isSubmitting : bool;
  successModal : option Modal;
  modalClose : bool;
  listeners : list Listener;
  timers : list Timer;
  activeElement : option Focusable
}.

Record Event := { defaultPrevented : bool }.

Definition preventDefault (e : Event) : Event := {| defaultPrevented := true |}.

(** *** Field access: [this.fields[fieldName]] *)

Definition get_field (fn : FieldName) (st : FormValidator) : Field :=
  match fn with
  | name => f_name (fields st)
  | email => f_email (fields st)
  | message => f_message (fields st)
  end.

Definition with_fields (fs : Fields) (st : FormValidator) : FormValidator :=
  {| form := form st; fields := fs; submitButton := submitButton st;
     isSubmitting := isSubmitting st; successModal := successModal st;
     modalClose := modalClose st; listeners := listeners st;
     timers := timers st; activeElement := activeElement st |}.

Definition set_field (fn : FieldName) (f : Field) (st : FormValidator) : FormValidator :=
  let fs := fields st in
  with_fields
    match fn with
    | name => {| f_name := f; f_email := f_email fs; f_message := f_message fs |}
    | email => {| f_name := f_name fs; f_email := f; f_message := f_message fs |}
    | message => {| f_name := f_name fs; f_email := f_email fs; f_message := f |}
    end st.

Definition with_form (fo : option FormEl) (st : FormValidator) : FormValidator :=
  {| form := fo; fields := fields st; submitButton := submitButton st;
     isSubmitting := isSubmitting st; successModal := successModal st;
     modalClose := modalClose st; listeners := listeners st;
     timers := timers st; activeElement := activeElement st |}.

Definition with_submitButton (b : option SubmitButton) (st : FormValidator) : FormValidator :=
  {| form := form st; fields := fields st; submitButton := b;
     isSubmitting := isSubmitting st; successModal := successModal st;
     modalClose := modalClose st; listeners := listeners st;
     timers := timers st; activeElement := activeElement st |}.

Definition with_isSubmitting (b : bool) (st : FormValidator) : FormValidator :=
  {| form := form st; fields := fields st; submitButton := submitButton st;
     isSubmitting := b; successModal := successModal st;
     modalClose := modalClose st; listeners := listeners st;
     timers := timers st; activeElement := activeElement st |}.

Definition with_successModal (m : option Modal) (st : FormValidator) : FormValidator :=
  {| form := form st; fields := fields st; submitButton := submitButton st;
     isSubmitting := isSubmitting st; successModal := m;
     modalClose := modalClose st; listeners := listeners st;
     timers := timers st; activeElement := activeElement st |}.

Definition add_listener (l : Listener) (st : FormValidator) : FormValidator :=
  {| form := form st; fields := fields st; submitButton := submitButton st;
     isSubmitting := isSubmitting st; successModal := successModal st;
     modalClose := modalClose st; listeners := listeners st ++ [l];
     timers := timers st; activeElement := activeElement st |}.

(** [setTimeout(cb, ms)]. *)
Definition setTimeout (cb : Callback) (ms : N) (st : FormValidator) : FormValidator :=
  {| form := form st; fields := fields st; submitButton := submitButton st;
     isSubmitting := isSubmitting st; successModal := successModal st;
     modalClose := modalClose st; listeners := listeners st;
     timers := timers st ++ [{| delay := ms; callback := cb |}];
     activeElement := activeElement st |}.

(** [el.focus()]. *)
Definition focus (t : Focusable) (st : FormValidator) : FormValidator :=
  {| form := form st; fields := fields st; submitButton := submitButton st;
     isSubmitting := isSubmitting st; successModal := successModal st;
     modalClose := modalClose st; listeners := listeners st;
     timers := timers st; activeElement := Some t |}.

Definition with_element (e : option InputEl) (f : Field) : Field :=
  {| element := e; errorElement := errorElement f; isValid := isValid f; value := value f |}.
Definition with_errorElement (e : option ErrorEl) (f : Field) : Field :=
  {| element := element f; errorElement := e; isValid := isValid f; value := value f |}.
Definition with_isValid (b : bool) (f : Field) : Field :=
  {| element := element f; errorElement := errorElement f; isValid := b; value := value f |}.
Definition with_value (v : list N) (f : Field) : Field :=
  {| element := element f; errorElement := errorElement f; isValid := isValid f; value := v |}.

(** *** Message texts (Portuguese; accented letters by code unit) *)

Definition msg_required : list N :=
  js "Este campo " ++ [0xE9] ++ js " obrigat" ++ [0xF3] ++ js "rio".
Definition msg_email : list N :=
  js "Por favor, insira um email v" ++ [0xE1] ++ js "lido".
Definition msg_message : list N := js "A mensagem deve ter pelo menos 10 caracteres".
Definition msg_name : list N := js "O nome deve ter pelo menos 2 caracteres".
Definition msg_submit_error : list N := js "Erro ao enviar mensagem. Tente novamente.".
Definition msg_success : list N :=
  js "Mensagem enviada com sucesso! Entrarei em contato em breve.".

(** *** Methods *)

(** [/^[^\s@]+@[^\s@]+\.[^\s@]+$/] *)
Definition emailRegex : list Regex.term :=
  let part := Regex.Plus (Regex.NegClass [Regex.ClassEscape_s; Regex.ClassChar 0x40]) in
  [Regex.Bol; part; Regex.One (Regex.Lit 0x40); part;
   Regex.One (Regex.Lit 0x2E); part; Regex.Eol].

Definition isValidEmail (email : list N) : bool := Regex.test emailRegex email.

(** [showFieldError]: nothing without an error element; with one, its
    text and display are set before the input element is touched, so
    a missing input raises after those two writes. *)
Definition showFieldError (fn : FieldName) (msg : list N) : M FormValidator unit :=
  fun st =>
    let field := get_field fn st in
    match errorElement field with
    | None => Ret tt st
    | Some _ =>
        let field1 :=
          with_errorElement
            (Some {| err_textContent := msg; err_display := js "block" |}) field in
        match element field with
        | None => Throw TypeError (set_field fn field1 st)
        | Some el =>
            let el' := {| el_value := el_value el; el_errorClass := true;
                          el_ariaInvalid := Some (js "true") |} in
            Ret tt (set_field fn (with_element (Some el') field1) st)
        end
    end.

Definition clearFieldError (fn : FieldName) : M FormValidator unit :=
  fun st =>
    let field := get_field fn st in
    match errorElement field with
    | None => Ret tt st
    | Some _ =>
        let field1 :=
          with_errorElement
            (Some {| err_textContent := []; err_display := js "none" |}) field in
        match element field with
        | None => Throw TypeError (set_field fn field1 st)
        | Some el =>
            let el' := {| el_value := el_value el; el_errorClass := false;
                          el_ariaInvalid := Some (js "false") |} in
            Ret tt (set_field fn (with_element (Some el') field1) st)
        end
    end.

Definition clearAllErrors : M FormValidator unit :=
  forEach fieldNames clearFieldError.

(** [field.isValid = b]. *)
Definition set_isValid (fn : FieldName) (b : bool) : M FormValidator unit :=
  modify (fun st => set_field fn (with_isValid b (get_field fn st)) st).

(** The failure exit shared by the three checks of [validateField]. *)
Definition reject (fn : FieldName) (msg : list N) : M FormValidator bool :=
  showFieldError fn msg;; set_isValid fn false;; ret false.

Definition validateField (fn : FieldName) : M FormValidator bool :=
  st ← get;
  match element (get_field fn st) with
  | None => ret false
  | Some el =>
      let value := trim (el_value el) in
      modify (fun st => set_field fn (with_value value (get_field fn st)) st);;
      clearFieldError fn;;
      if negb (truthy_str value) then reject fn msg_required
      else
        match fn with
        | email =>
            if negb (isValidEmail value) then reject fn msg_email
            else set_isValid fn true;; ret true
        | message =>
            if (length value <? 10)%nat then reject fn msg_message
            else set_isValid fn true;; ret true
        | name =>
            if (length value <? 2)%nat then reject fn msg_name
            else set_isValid fn true;; ret true
        end
  end.

(** The [forEach] of [validateAllFields], with its accumulator. *)
Fixpoint validateEach (l : list FieldName) (isValid : bool) : M FormValidator bool :=
  match l with
  | [] => ret isValid
  | fn :: l' =>
      ok ← validateField fn;
      validateEach l' (if negb ok then false else isValid)
  end.

Definition validateAllFields : M FormValidator bool := validateEach fieldNames true.

Definition focusFirstError : M FormValidator unit :=
  fun st =>
    match List.find (fun fn => negb (isValid (get_field fn st))) fieldNames with
    | Some fn =>
        match element (get_field fn st) with
        | Some _ => Ret tt (focus (FocusField fn) st)
        | None => Ret tt st
        end
    | None => Ret tt st
    end.

Definition setSubmitButtonState (isLoading : bool) : M FormValidator unit :=
  modify (fun st =>
    match submitButton st with
    | None => st
    | Some b =>
        let b' :=
          if isLoading then
            {| disabled := true; loadingClass := true;
               submitText := (fun _ => js "none") <$> submitText b;
               submitLoading := (fun _ => js "inline") <$> submitLoading b |}
          else
            {| disabled := false; loadingClass := false;
               submitText := (fun _ => js "inline") <$> submitText b;
               submitLoading := (fun _ => js "none") <$> submitLoading b |} in
        with_submitButton (Some b') st
    end).

(** [showSuccessMessage]: the dialog when the page has one, else an
    inline message in the form (created when missing), hidden again
    after 5 s.  The inline branch reads [this.form]. *)
Definition showSuccessMessage : M FormValidator unit :=
  fun st =>
    match successModal st with
    | Some _ =>
        let st1 :=
          with_successModal
            (Some {| modal_display := js "flex"; modal_show := true;
                     modal_ariaHidden := Some (js "false") |}) st in
        if modalClose st then
          Ret tt (add_listener BackdropClickOnce
                   (add_listener EscapeKeydown
                     (add_listener CloseClickOnce
                       (focus FocusModalClose st1))))
        else Ret tt st1
    | None =>
        match form st with
        | None => Throw TypeError st
        | Some fo =>
            let shown := {| msg_textContent := msg_success; msg_display := js "block" |} in
            Ret tt (setTimeout HideSuccess 5000
                      (with_form (Some {| successElement := Some shown;
                                          formErrorElement := formErrorElement fo |}) st))
        end
    end.

Definition showErrorMessage (msg : list N) : M FormValidator unit :=
  fun st =>
    match form st with
    | None => Throw TypeError st
    | Some fo =>
        let shown := {| msg_textContent := msg; msg_display := js "block" |} in
        Ret tt (setTimeout HideError 5000
                  (with_form (Some {| successElement := successElement fo;
                                      formErrorElement := Some shown |}) st))
    end.

(** The body of the loop of [clearForm], for one field. *)
Definition clearEntry (fn : FieldName) (st : FormValidator) : FormValidator :=
  let field := get_field fn st in
  match element field with
  | None => st
  | Some el =>
      let el' := {| el_value := []; el_errorClass := el_errorClass el;
                    el_ariaInvalid := el_ariaInvalid el |} in
      set_field fn {| element := Some el'; errorElement := errorElement field;
                      isValid := false; value := [] |} st
  end.

Definition clearForm : M FormValidator unit :=
  forEach fieldNames (fun fn => modify (clearEntry fn));;
  clearAllErrors.

(** How the awaited promise settles.  The promise of the source is
    resolved by its timer; [Rejected] is the failure the [catch]
    block is written for. *)
Inductive Latency := Resolved | Rejected.

Definition await (l : Latency) : M FormValidator unit :=
  match l with
  | Resolved => ret tt
  | Rejected => throw Rejection
  end.

(** [simulateFormSubmission] up to its [await]: this part runs
    synchronously inside the submit handler. *)
Definition simulateFormSubmission_begin : M FormValidator unit :=
  modify (with_isSubmitting true);;
  setSubmitButtonState true;;
  modify (setTimeout ResolveLatency 1500).

(** [simulateFormSubmission] from the [await] on: the rest of the
    [try] block, the [catch] and the [finally]. *)
Definition simulateFormSubmission_resume (l : Latency) : M FormValidator unit :=
  finally
    (try_catch
       (await l;; showSuccessMessage;; clearForm)
       (fun _ => showErrorMessage msg_submit_error))
    (modify (with_isSubmitting false);; setSubmitButtonState false).

(** The latency timer fires and leaves the pending list. *)
Fixpoint fired (cb : Callback) (l : list Timer) : list Timer :=
  match l with
  | [] => []
  | t :: l' =>
      match cb, callback t with
      | ResolveLatency, ResolveLatency
      | HideSuccess, HideSuccess
      | HideError, HideError => l'
      | _, _ => t :: fired cb l'
      end
  end.

Definition timer_fires (cb : Callback) : M FormValidator unit :=
  modify (fun st =>
    {| form := form st; fields := fields st; submitButton := submitButton st;
       isSubmitting := isSubmitting st; successModal := successModal st;
       modalClose := modalClose st; listeners := listeners st;
       timers := fired cb (timers st); activeElement := activeElement st |}).

(** The whole routine, when nothing else runs during the wait. *)
Definition simulateFormSubmission (l : Latency) : M FormValidator unit :=
  simulateFormSubmission_begin;;
  timer_fires ResolveLatency;;
  simulateFormSubmission_resume l.

(** [handleSubmit] up to the first suspension point. *)
Definition handleSubmit (e : Event) : M FormValidator Event :=
  let e := preventDefault e in
  st ← get;
  if isSubmitting st then ret e
  else
    isFormValid ← validateAllFields;
    if negb isFormValid then focusFirstError;; ret e
    else simulateFormSubmission_begin;; ret e.

(** *** Construction *)

(** What [document.getElementById(formId)] finds, with the children
    [setupFormElements] looks up inside it. *)
Record FormDom := {
  dom_form : FormEl;
  dom_name : option InputEl;
  dom_email : option InputEl;
  dom_message : option InputEl;
  dom_nameError : option ErrorEl;
  dom_emailError : option ErrorEl;
  dom_messageError : option ErrorEl;
  dom_submit : option SubmitButton
}.

Record Page := {
  page_form : option FormDom;
  page_successModal : option Modal;
  page_modalClose : bool;
  page_activeElement : option Focusable
}.

Definition emptyField : Field :=
  {| element := None; errorElement := None; isValid := false; value := [] |}.

Definition mkField (e : option InputEl) (ee : option ErrorEl) : Field :=
  {| element := e; errorElement := ee; isValid := false; value := [] |}.

(** The listeners of [setupEventListeners]: submit, then blur and
    input on each field whose element exists. *)
Definition fieldListeners (fs : Fields) : list Listener :=
  let on fn (f : Field) :=
    match element f with
    | Some _ => [OnBlur fn; OnInput fn]
    | None => []
    end in
  OnSubmit :: on name (f_name fs) ++ on email (f_email fs) ++ on message (f_message fs).

(** [new FormValidator(formId)]: without the form, [init] returns
    before any element is looked up or any listener is attached. *)
Definition new (p : Page) : FormValidator :=
  match page_form p with
  | None =>
      {| form := None;
         fields := {| f_name := emptyField; f_email := emptyField; f_message := emptyField |};
         submitButton := None; isSubmitting := false;
         successModal := page_successModal p; modalClose := page_modalClose p;
         listeners := []; timers := []; activeElement := page_activeElement p |}
  | Some d =>
      let fs := {| f_name := mkField (dom_name d) (dom_nameError d);
                   f_email := mkField (dom_email d) (dom_emailError d);
                   f_message := mkField (dom_message d) (dom_messageError d) |} in
      {| form := Some (dom_form d); fields := fs;
         submitButton := dom_submit d; isSubmitting := false;
         successModal := page_successModal p; modalClose := page_modalClose p;
         listeners := fieldListeners fs; timers := [];
         activeElement := page_activeElement p |}
  end.

End Form.

(* ------------------------------------------------------------------ *)
(** ** NavigationManager: the active section *)
(* ------------------------------------------------------------------ *)

Module Nav.

(** An [<a>] of the document: its [href], whether it is one of
    [this.navLinks] (class [nav-link] or [footer-link]) and whether
    its class list holds [active]. *)
Record Anchor := {
  href : list N;
  isNavLink : bool;
  active : bool
}.

(** Writes to a class list, by index of the anchor in the document. *)
Inductive DomWrite := ClassRemove (i : nat) | ClassAdd (i : nat).

Record NavigationManager := {
  currentSection : list N;
  isMenuOpen : bool;
  observing : bool;            (* listeners and observer are set up *)
  anchors : list Anchor;       (* in document order *)
  writes : list DomWrite       (* class-list writes made so far *)
}.

(** What [document.querySelector] answers for a selector: the first
    matching anchor, no match, or a selector it cannot parse. *)
Inductive QueryResult := Found (i : nat) | NoMatch | BadSelector.

#[global] Instance QueryResult_eq_dec : EqDecision QueryResult.
Proof. solve_decision. Defined.

(** An entry handed to the intersection observer's callback. *)
Record Entry := {
  isIntersecting : bool;
  target_id : list N
}.

Definition set_active (b : bool) (a : Anchor) : Anchor :=
  {| href := href a; isNavLink := isNavLink a; active := b |}.

(** [this.navLinks.forEach(link => link.classList.remove('active'))]. *)
Fixpoint removeActive (i : nat) (l : list Anchor) : list Anchor * list DomWrite :=
  match l with
  | [] => ([], [])
  | a :: l' =>
      let (r, w) := removeActive (S i) l' in
      if isNavLink a then (set_active false a :: r, ClassRemove i :: w)
      else (a :: r, w)
  end.

(** The selector built by the template literal [a[href="#${id}"]]. *)
Definition activeLinkSelector (sectionId : list N) : list N :=
  js "a[href=" ++ [0x22; 0x23] ++ sectionId ++ [0x22] ++ js "]".

Section WithSelectorEngine.

(** The browser's selector engine, for selectors over the anchors. *)
Variable querySelector : list N -> list Anchor -> QueryResult.

Definition setActiveSection (sectionId : list N) : M NavigationManager unit :=
  fun st =>
    if str_eqb (currentSection st) sectionId then Ret tt st
    else
      let (cleared, w) := removeActive 0 (anchors st) in
      let st1 :=
        {| currentSection := sectionId; isMenuOpen := isMenuOpen st;
           observing := observing st; anchors := cleared;
           writes := writes st ++ w |} in
      match querySelector (activeLinkSelector sectionId) cleared with
      | BadSelector => Throw SyntaxError st1
      | NoMatch => Ret tt st1
      | Found i =>
          Ret tt {| currentSection := sectionId; isMenuOpen := isMenuOpen st;
                    observing := observing st;
                    anchors := alter (set_active true) i cleared;
                    writes := writes st ++ w ++ [ClassAdd i] |}
      end.

(** The callback given to [IntersectionObserver]. *)
Definition observerCallback (entries : list Entry) : M NavigationManager unit :=
  forEach entries (fun entry =>
    if isIntersecting entry then setActiveSection (target_id entry) else ret tt).

End WithSelectorEngine.

(** A selector engine to run examples with.  It reads the selectors
    that [activeLinkSelector] builds as a browser does
    for an identifier that holds no unescaped quote: the input is
    filtered, the quoted value is consumed as a CSS string token with
    its escapes, and the first anchor whose [href] is that value is
    found.  A line break in the value breaks the string and the
    selector is refused.  An unescaped quote inside the identifier ends
    the value early; a browser then goes on parsing what follows as
    more of the selector, which is not modelled here: this engine
    refuses those selectors. *)
Fixpoint findHref (h : list N) (i : nat) (l : list Anchor) : QueryResult :=
  match l with
  | [] => NoMatch
  | a :: l' => if str_eqb (href a) h then Found i else findHref h (S i) l'
  end.

Definition isHighSurrogate (c : N) : bool := (0xD800 <=? c) && (c <=? 0xDBFF).
Definition isLowSurrogate (c : N) : bool := (0xDC00 <=? c) && (c <=? 0xDFFF).

(** The filtering of the input: NUL and a surrogate without its pair
    become U+FFFD; CR, FF and CR LF become LF. *)
Fixpoint filterCodePoints (l : list N) : list N :=
  match l with
  | [] => []
  | c :: l' =>
      if c =? 0 then 0xFFFD :: filterCodePoints l'
      else if c =? 0x0C then 0x0A :: filterCodePoints l'
      else if c =? 0x0D then
        0x0A :: match l' with
                | d :: l'' => if d =? 0x0A then filterCodePoints l'' else filterCodePoints l'
                | [] => []
                end
      else if isHighSurrogate c then
        match l' with
        | d :: l'' =>
            if isLowSurrogate d then c :: d :: filterCodePoints l''
            else 0xFFFD :: filterCodePoints l'
        | [] => [0xFFFD]
        end
      else if isLowSurrogate c then 0xFFFD :: filterCodePoints l'
      else c :: filterCodePoints l'
  end.

Definition isHexDigit (c : N) : bool :=
  ((0x30 <=? c) && (c <=? 0x39)) || ((0x41 <=? c) && (c <=? 0x46))
  || ((0x61 <=? c) && (c <=? 0x66)).

Definition hexValue (c : N) : N :=
  if c <=? 0x39 then c - 0x30 else if c <=? 0x46 then c - 0x37 else c - 0x57.

Definition isCssWhitespace (c : N) : bool := (c =? 0x0A) || (c =? 0x09) || (c =? 0x20).

(** The code units of a code point escaped by its hexadecimal number. *)
Definition escapedCodePoint (v : N) : list N :=
  if (v =? 0) || ((0xD800 <=? v) && (v <=? 0xDFFF)) || (0x10FFFF <? v) then [0xFFFD]
  else if v <? 0x10000 then [v]
  else [0xD800 + (v - 0x10000) / 0x400; 0xDC00 + (v - 0x10000) mod 0x400].

(** A string token: closed by its quote (with what follows it), ended
    by the end of the input, or broken by a line break. *)
Inductive StringToken :=
| Closed (value rest : list N)
| Unclosed (value : list N)
| BadString.

Inductive ScanState := InString | AfterBackslash | InHex (digits : nat) (v : N).

(** Consuming a string token after its opening double quote. *)
Fixpoint consumeString (st : ScanState) (acc : list N) (l : list N) : StringToken :=
  match l with
  | [] =>
      match st with
      | InHex _ v => Unclosed (acc ++ escapedCodePoint v)
      | _ => Unclosed acc
      end
  | c :: l' =>
      let unescaped (acc : list N) :=
        if c =? 0x22 then Closed acc l'
        else if c =? 0x0A then BadString
        else if c =? 0x5C then consumeString AfterBackslash acc l'
        else consumeString InString (acc ++ [c]) l' in
      match st with
      | InString => unescaped acc
      | AfterBackslash =>
          if c =? 0x0A then consumeString InString acc l'
          else if isHexDigit c then consumeString (InHex 1 (hexValue c)) acc l'
          else consumeString InString (acc ++ [c]) l'
      | InHex n v =>
          if isHexDigit c && (n <? 6)%nat
          then consumeString (InHex (S n) (16 * v + hexValue c)) acc l'
          else if isCssWhitespace c
               then consumeString InString (acc ++ escapedCodePoint v) l'
               else unescaped (acc ++ escapedCodePoint v)
      end
  end.

Definition plainEngine (sel : list N) (l : list Anchor) : QueryResult :=
  (* what follows the opening quote of the value *)
  match consumeString InString [] (filterCodePoints (drop 8 sel)) with
  | Closed v rest => if str_eqb rest (js "]") then findHref v 0 l else BadSelector
  | Unclosed v => findHref v 0 l
  | BadString => BadSelector
  end.

(** [new NavigationManager()]: the section starts at ['sobre']; the
    observer is set up only when toggle and menu both exist. *)
Definition new (hasToggle hasMenu : bool) (l : list Anchor) : NavigationManager :=
  {| currentSection := js "sobre"; isMenuOpen := false;
     observing := hasToggle && hasMenu; anchors := l; writes := [] |}.

End Nav.

(* ------------------------------------------------------------------ *)
(** ** PortfolioApp: construction and the theme integration *)
(* ------------------------------------------------------------------ *)

Module App.

(** Something that can be called on the theme manager: a method of
    its class, or the wrapper [setupComponentIntegration] builds
    around a bound original. *)
Inductive Callable :=
| Method (m : Theme.Method)
| Wrapper (original : Callable).

(** The theme manager object: the instance, and the own property
    [toggleTheme] once something has been assigned to it. *)
Record ThemeObject := {
  instance : Theme.ThemeManager;
  toggleTheme : option Callable
}.

(** [new CustomEvent(type, { detail: { theme } })]. *)
Record CustomEvent := {
  type : list N;
  detail_theme : option (list N)
}.

Record PortfolioApp := {
  themeManager : option ThemeObject;
  navigationManager : option Nav.NavigationManager;
  formValidator : option Form.FormValidator;
  isInitialized : bool;
  scrollToSectionWrapped : bool;
  globalListeners : nat;                  (* runs of setupGlobalEventListeners *)
  (* the page *)
  themePage : Theme.Page;
  themeColorMeta : option (list N);       (* content of meta[name=theme-color] *)
  dispatched : list CustomEvent           (* events dispatched on the document *)
}.

(** The page a coordinator is constructed on. *)
Record Page := {
  page_theme : Theme.Page;
  page_navToggle : bool;
  page_navMenu : bool;
  page_anchors : list Nav.Anchor;
  page_form : Form.Page;
  page_themeColorMeta : option (list N)
}.

Definition with_themeManager (t : option ThemeObject) (p : Theme.Page)
    (app : PortfolioApp) : PortfolioApp :=
  {| themeManager := t; navigationManager := navigationManager app;
     formValidator := formValidator app; isInitialized := isInitialized app;
     scrollToSectionWrapped := scrollToSectionWrapped app;
     globalListeners := globalListeners app; themePage := p;
     themeColorMeta := themeColorMeta app; dispatched := dispatched app |}.

(** Property read [themeManager[key]] for a call: the own property
    [toggleTheme] first, then the methods of the class. *)
Definition lookup (key : list N) (t : ThemeObject) : option Callable :=
  match (if str_eqb key (js "toggleTheme") then toggleTheme t else None) with
  | Some c => Some c
  | None => Method <$> Theme.method_named key
  end.

(** Run a theme method on the coordinator's theme manager. *)
Definition onTheme (c : M Theme.World unit) : M PortfolioApp unit :=
  fun app =>
    match themeManager app with
    | None => Throw TypeError app
    | Some t =>
        let back (w : Theme.World) :=
          with_themeManager
            (Some {| instance := Theme.this w; toggleTheme := toggleTheme t |})
            (Theme.page w) app in
        match c {| Theme.this := instance t; Theme.page := themePage app |} with
        | Ret _ w => Ret tt (back w)
        | Throw e w => Throw e (back w)
        end
    end.

Definition updateThemeSpecificElements : M PortfolioApp unit :=
  modify (fun app =>
    match themeColorMeta app with
    | None => app
    | Some _ =>
        let isDark :=
          match Theme.dataTheme (themePage app) with
          | Some v => str_eqb v Theme.dark
          | None => false
          end in
        {| themeManager := themeManager app; navigationManager := navigationManager app;
           formValidator := formValidator app; isInitialized := isInitialized app;
           scrollToSectionWrapped := scrollToSectionWrapped app;
           globalListeners := globalListeners app; themePage := themePage app;
           themeColorMeta := Some (if isDark then js "#1a1a1a" else js "#ffffff");
           dispatched := dispatched app |}
    end).

Definition onThemeChange : M PortfolioApp unit :=
  updateThemeSpecificElements;;
  modify (fun app =>
    let ev := {| type := js "portfolioThemeChange";
                 detail_theme := (fun t => Theme.currentTheme (instance t)) <$> themeManager app |} in
    {| themeManager := themeManager app; navigationManager := navigationManager app;
       formValidator := formValidator app; isInitialized := isInitialized app;
       scrollToSectionWrapped := scrollToSectionWrapped app;
       globalListeners := globalListeners app; themePage := themePage app;
       themeColorMeta := themeColorMeta app;
       dispatched := dispatched app ++ [ev] |}).

(** Calling a method or a wrapper: the wrapper runs the original and
    then [onThemeChange]. *)
Fixpoint invoke (c : Callable) : M PortfolioApp unit :=
  match c with
  | Method m => onTheme (Theme.call m)
  | Wrapper original => invoke original;; onThemeChange
  end.

(** [themeManager[key]()]: calling [undefined] raises. *)
Definition callTheme (key : list N) : M PortfolioApp unit :=
  app ← get;
  match themeManager app with
  | None => throw TypeError
  | Some t =>
      match lookup key t with
      | Some c => invoke c
      | None => throw TypeError
      end
  end.

(** [initializeComponents]: the three constructors, on the page. *)
Definition initializeComponents (p : Page) : M PortfolioApp unit :=
  fun app =>
    match Theme.new (themePage app) with
    | Throw e w => Throw e app
    | Ret _ w =>
        Ret tt
          {| themeManager := Some {| instance := Theme.this w; toggleTheme := None |};
             navigationManager :=
               Some (Nav.new (page_navToggle p) (page_navMenu p) (page_anchors p));
             formValidator := Some (Form.new (page_form p));
             isInitialized := isInitialized app;
             scrollToSectionWrapped := scrollToSectionWrapped app;
             globalListeners := globalListeners app; themePage := Theme.page w;
             themeColorMeta := themeColorMeta app; dispatched := dispatched app |}
    end.

Definition setupGlobalEventListeners : M PortfolioApp unit :=
  modify (fun app =>
    {| themeManager := themeManager app; navigationManager := navigationManager app;
       formValidator := formValidator app; isInitialized := isInitialized app;
       scrollToSectionWrapped := scrollToSectionWrapped app;
       globalListeners := S (globalListeners app); themePage := themePage app;
       themeColorMeta := themeColorMeta app; dispatched := dispatched app |}).

(** [setupComponentIntegration].  The first block reads
    [themeManager.toggleTheme] and calls [.bind] on it: when the read
    gives [undefined] the call raises. *)
Definition setupComponentIntegration : M PortfolioApp unit :=
  app ← get;
  match themeManager app, navigationManager app with
  | Some t, Some _ =>
      match lookup (js "toggleTheme") t with
      | None => throw TypeError
      | Some original =>
          modify (with_themeManager
                    (Some {| instance := instance t;
                             toggleTheme := Some (Wrapper original) |})
                    (themePage app))
      end
  | _, _ => ret tt
  end;;
  app ← get;
  match navigationManager app, formValidator app with
  | Some _, Some _ =>
      modify (fun app =>
        {| themeManager := themeManager app; navigationManager := navigationManager app;
           formValidator := formValidator app; isInitialized := isInitialized app;
           scrollToSectionWrapped := true;
           globalListeners := globalListeners app; themePage := themePage app;
           themeColorMeta := themeColorMeta app; dispatched := dispatched app |})
  | _, _ => ret tt
  end.

Definition handleInitializationError : M PortfolioApp unit :=
  fun app =>
    match themeManager app with
    | Some _ => Ret tt app
    | None =>
        match Theme.new (themePage app) with
        | Ret _ w =>
            Ret tt (with_themeManager
                      (Some {| instance := Theme.this w; toggleTheme := None |})
                      (Theme.page w) app)
        | Throw _ _ => Ret tt app
        end
    end.

Definition set_isInitialized (b : bool) : M PortfolioApp unit :=
  modify (fun app =>
    {| themeManager := themeManager app; navigationManager := navigationManager app;
       formValidator := formValidator app; isInitialized := b;
       scrollToSectionWrapped := scrollToSectionWrapped app;
       globalListeners := globalListeners app; themePage := themePage app;
       themeColorMeta := themeColorMeta app; dispatched := dispatched app |}).

(** [init], run to completion. *)
Definition init (p : Page) : M PortfolioApp unit :=
  try_catch
    (initializeComponents p;;
     setupGlobalEventListeners;;
     setupComponentIntegration;;
     set_isInitialized true)
    (fun _ => handleInitializationError).

(** [new PortfolioApp()]. *)
Definition new (p : Page) : outcome PortfolioApp unit :=
  init p
    {| themeManager := None; navigationManager := None; formValidator := None;
       isInitialized := false; scrollToSectionWrapped := false;
       globalListeners := 0; themePage := page_theme p;
       themeColorMeta := page_themeColorMeta p; dispatched := [] |}.

(** A click on the theme control runs the listener [init] attached,
    [() => this.toggle()], when there is one. *)
Definition clickThemeToggle : M PortfolioApp unit :=
  app ← get;
  match Theme.clickListeners (themePage app) with
  | O => ret tt
  | S _ => callTheme (js "toggle")
  end.

(** The shortcut Ctrl/Cmd+Shift+T of [handleKeyboardShortcuts]. *)
Definition shortcutToggleTheme : M PortfolioApp unit :=
  app ← get;
  match themeManager app with
  | None => ret tt
  | Some _ => callTheme (js "toggleTheme")
  end.

(** The state a new coordinator ends in, for the theme manager [w]
    constructed on the page. *)
Definition after_new (p : Page) (w : Theme.World) : PortfolioApp :=
  {| themeManager := Some {| instance := Theme.this w; toggleTheme := None |};
     navigationManager :=
       Some (Nav.new (page_navToggle p) (page_navMenu p) (page_anchors p));
     formValidator := Some (Form.new (page_form p));
     isInitialized := false; scrollToSectionWrapped := false;
     globalListeners := 1; themePage := Theme.page w;
     themeColorMeta := page_themeColorMeta p; dispatched := [] |}.

End App.

(* ------------------------------------------------------------------ *)
(** ** Specification-level definitions *)
(* ------------------------------------------------------------------ *)

(** A character that is neither white space nor [@]. *)
Definition plain (c : N) : Prop := isSpace c = false ∧ c ≠ 0x40.

(** The shape the specification asks of an email address: one or more
    plain characters, [@], one or more plain characters, [.], one or
    more plain characters. *)
Definition email_shape (s : list N) : Prop :=
  ∃ l d t : list N,
    s = l ++ [0x40] ++ d ++ [0x2E] ++ t
    ∧ l ≠ [] ∧ d ≠ [] ∧ t ≠ []
    ∧ Forall plain l ∧ Forall plain d ∧ Forall plain t.

(** The minimum lengths the specification gives, on a trimmed value. *)
Definition long_enough (n : nat) (v : list N) : Prop := (n ≤ length v)%nat.

(** What [validateField] decides for a field from the trimmed value of
    its input: required first, then the rule of the field. *)
Definition field_ok (fn : Form.FieldName) (v : list N) : bool :=
  truthy_str v
  && match fn with
     | Form.email => Form.isValidEmail v
     | Form.message => negb (length v <? 10)%nat
     | Form.name => negb (length v <? 2)%nat
     end.

(** A field fails validation on submit: its input is missing, or the
    trimmed value of its input breaks a rule. *)
Definition fails (fn : Form.FieldName) (st : Form.FormValidator) : bool :=
  match Form.element (Form.get_field fn st) with
  | None => true
  | Some el => negb (field_ok fn (trim (Form.el_value el)))
  end.

(** The first failing field, in declared order. *)
Definition first_failing (st : Form.FormValidator) : option Form.FieldName :=
  List.find (fun fn => fails fn st) Form.fieldNames.

(** A field without an input element has never been marked valid: true
    of a new validator and kept by every method. *)
Definition absent_unmarked (st : Form.FormValidator) : Prop :=
  ∀ fn, Form.element (Form.get_field fn st) = None →
        Form.isValid (Form.get_field fn st) = false.

(** Only [this.fields] differs between two states. *)
Definition same_but_fields (st st' : Form.FormValidator) : Prop :=
  st' = Form.with_fields (Form.fields st') st.

(** The message of the rule a field has beyond being required. *)
Definition rule_msg (fn : Form.FieldName) : list N :=
  match fn with
  | Form.name => Form.msg_name
  | Form.email => Form.msg_email
  | Form.message => Form.msg_message
  end.

(** What the error element of a field shows after validation of the
    trimmed value [v]: nothing when it passes, the required message
    when it is empty, the message of the field's rule otherwise. *)
Definition error_display (fn : Form.FieldName) (v : list N) : Form.ErrorEl :=
  if field_ok fn v then
    {| Form.err_textContent := []; Form.err_display := js "none" |}
  else
    {| Form.err_textContent := if truthy_str v then rule_msg fn else Form.msg_required;
       Form.err_display := js "block" |}.

(** An entry still points at an input holding the value of [el]. *)
Definition keeps_input (el : Form.InputEl) (f : Form.Field) : Prop :=
  ∃ el', Form.element f = Some el' ∧ Form.el_value el' = Form.el_value el.

(** What one run of [validateField fn] leaves in the entry of [fn]:
    untouched without an input element; otherwise marked by
    [field_ok], the input keeping its value. *)
Definition field_post (fn : Form.FieldName) (st st' : Form.FormValidator) : Prop :=
  match Form.element (Form.get_field fn st) with
  | None => Form.get_field fn st' = Form.get_field fn st
  | Some el =>
      Form.isValid (Form.get_field fn st') = field_ok fn (trim (Form.el_value el))
      ∧ Form.value (Form.get_field fn st') = trim (Form.el_value el)
      ∧ Form.errorElement (Form.get_field fn st')
        = (λ _, error_display fn (trim (Form.el_value el)))
            <$> Form.errorElement (Form.get_field fn st)
      ∧ keeps_input el (Form.get_field fn st')
  end.

(** Every field is back to its empty, unvalidated state. *)
Definition cleared (st : Form.FormValidator) : Prop :=
  ∀ fn, Form.value (Form.get_field fn st) = []
        ∧ Form.isValid (Form.get_field fn st) = false
        ∧ Form.el_value <$> Form.element (Form.get_field fn st) = Some [].

(** The success indicator is showing: the dialog, or the inline
    message with the success text. *)
Definition success_shown (st : Form.FormValidator) : Prop :=
  (∃ m, Form.successModal st = Some m ∧ Form.modal_show m = true)
  ∨ (∃ fo e, Form.form st = Some fo ∧ Form.successElement fo = Some e
             ∧ Form.msg_textContent e = Form.msg_success
             ∧ Form.msg_display e = js "block").

(** The generic submission error is showing. *)
Definition error_shown (st : Form.FormValidator) : Prop :=
  ∃ fo e, Form.form st = Some fo ∧ Form.formErrorElement fo = Some e
          ∧ Form.msg_textContent e = Form.msg_submit_error
          ∧ Form.msg_display e = js "block".

(** The submit control is enabled again (when the form has one). *)
Definition submit_enabled (st : Form.FormValidator) : Prop :=
  ∀ b, Form.submitButton st = Some b →
       Form.disabled b = false ∧ Form.loadingClass b = false.

(** The minimum length a field asks of its trimmed value, for the two
    fields that have one. *)
Definition min_length (fn : Form.FieldName) : option nat :=
  match fn with
  | Form.name => Some 2%nat
  | Form.message => Some 10%nat
  | Form.email => None
  end.

(** The navigation links of the document, by index, in document
    order. *)
Definition nav_link_indices (l : list Nav.Anchor) : list nat :=
  omap id (imap (λ i a, if Nav.isNavLink a then Some i else None) l).

(** The anchors with [active] taken from every navigation link. *)
Definition unmarked (l : list Nav.Anchor) : list Nav.Anchor :=
  (λ a, if Nav.isNavLink a then Nav.set_active false a else a) <$> l.

(** One activation, as writes to class lists: [active] is removed from
    each navigation link, in document order, and then added once, to
    the anchor the selector found, when it found one. *)
Definition activation_writes (found : Nav.QueryResult) (l : list Nav.Anchor)
    : list Nav.DomWrite :=
  (Nav.ClassRemove <$> nav_link_indices l)
  ++ match found with Nav.Found i => [Nav.ClassAdd i] | _ => [] end.

(** A character that means nothing special between the quotes of a
    selector: no quote, backslash or line break, and none that the
    filtering of the input replaces. *)
Definition plainChar (c : N) : bool :=
  negb ((c =? 0) || (c =? 0x0A) || (c =? 0x0C) || (c =? 0x0D)
        || (c =? 0x22) || (c =? 0x5C)
        || Nav.isHighSurrogate c || Nav.isLowSurrogate c).

(* ------------------------------------------------------------------ *)
(** ** Example pages *)
(* ------------------------------------------------------------------ *)

Module Examples.

(** A session storage that works and holds the given saved theme. *)
Definition storageWith (saved : option (list N)) : Theme.Storage :=
  {| Theme.readable := true; Theme.writable := true;
     Theme.items := match saved with
                    | Some s => {[ Theme.STORAGE_KEY := s ]}
                    | None => ∅
                    end |}.

Definition toggleButton : Theme.ToggleButton :=
  {| Theme.icon := Some (Str []); Theme.ariaLabel := None; Theme.ariaPressed := None |}.

(** A page with or without the theme control. *)
Definition themePage (control : bool) (saved : option (list N)) : Theme.Page :=
  {| Theme.storage := storageWith saved;
     Theme.toggleControl := if control then Some toggleButton else None;
     Theme.clickListeners := 0; Theme.dataTheme := None;
     Theme.transitionClass := false; Theme.timers := [] |}.

(** The manager constructed on a page without the control. *)
Definition noControl : Theme.World := final (Theme.new (themePage false None)).

(** Three navigation links, the first one active. *)
Definition navAnchors : list Nav.Anchor :=
  [ {| Nav.href := js "#sobre"; Nav.isNavLink := true; Nav.active := true |};
    {| Nav.href := js "#projetos"; Nav.isNavLink := true; Nav.active := false |};
    {| Nav.href := js "#contato"; Nav.isNavLink := true; Nav.active := false |} ].

Definition navigation : Nav.NavigationManager := Nav.new true true navAnchors.

Definition report (id : list N) : Nav.Entry :=
  {| Nav.isIntersecting := true; Nav.target_id := id |}.

Definition input (v : list N) : Form.InputEl :=
  {| Form.el_value := v; Form.el_errorClass := false; Form.el_ariaInvalid := None |}.

Definition errorSpan : Form.ErrorEl :=
  {| Form.err_textContent := []; Form.err_display := [] |}.

Definition submit : Form.SubmitButton :=
  {| Form.disabled := false; Form.loadingClass := false;
     Form.submitText := Some []; Form.submitLoading := Some (js "none") |}.

(** A contact form whose three inputs hold the given values; an input
    given as [None] is missing from the page. *)
Definition formPage (n e m : option (list N)) : Form.Page :=
  {| Form.page_form :=
       Some {| Form.dom_form := {| Form.successElement := None;
                                   Form.formErrorElement := None |};
               Form.dom_name := input <$> n;
               Form.dom_email := input <$> e;
               Form.dom_message := input <$> m;
               Form.dom_nameError := Some errorSpan;
               Form.dom_emailError := Some errorSpan;
               Form.dom_messageError := Some errorSpan;
               Form.dom_submit := Some submit |};
     Form.page_successModal := None;
     Form.page_modalClose := false;
     Form.page_activeElement := None |}.

Definition validator (n e m : option (list N)) : Form.FormValidator :=
  Form.new (formPage n e m).

Definition submitEvent : Form.Event := {| Form.defaultPrevented := false |}.

(** A form filled in correctly, and the same form after a submit. *)
Definition filled : Form.FormValidator :=
  validator (Some (js "Al")) (Some (js "a@b.co")) (Some (js "0123456789")).

Definition inFlight : Form.FormValidator :=
  final (Form.handleSubmit submitEvent filled).

(** A page whose name input is missing and whose email is malformed. *)
Definition noNameInput : Form.FormValidator :=
  validator None (Some (js "a@b")) (Some (js "0123456789")).

(** A page with everything the script looks for, the theme-color
    meta tag included, and no saved theme. *)
Definition fullPage : App.Page :=
  {| App.page_theme := themePage true None;
     App.page_navToggle := true; App.page_navMenu := true;
     App.page_anchors := navAnchors;
     App.page_form := formPage (Some []) (Some []) (Some []);
     App.page_themeColorMeta := Some (js "#1a1a1a") |}.

Definition app : App.PortfolioApp := final (App.new fullPage).

End Examples.

(* ------------------------------------------------------------------ *)
(** ** Further specification-level definitions: the theme *)
(* ------------------------------------------------------------------ *)

(** The theme a toggle switches to. *)
Definition nextTheme (t : list N) : list N :=
  if str_eqb t Theme.light then Theme.dark else Theme.light.

(** The document carries the marker of the current theme:
    [data-theme="dark"] for dark, no attribute otherwise. *)
Definition marker_matches (w : Theme.World) : Prop :=
  Theme.dataTheme (Theme.page w)
  = if str_eqb (Theme.currentTheme (Theme.this w)) Theme.dark
    then Some Theme.dark else None.

(** The toggle control describes the current theme: pressed exactly in
    dark mode, with the label and the icon of the theme a click would
    switch to. *)
Definition control_matches (w : Theme.World) : Prop :=
  ∀ b, Theme.toggleControl (Theme.page w) = Some b →
       Theme.ariaPressed b = Some (str_eqb (Theme.currentTheme (Theme.this w)) Theme.dark)
       ∧ Theme.ariaLabel b
         = Some (get_property Theme.LABELS (nextTheme (Theme.currentTheme (Theme.this w))))
       ∧ (∀ v, Theme.icon b = Some v →
               v = get_property Theme.ICONS (nextTheme (Theme.currentTheme (Theme.this w)))).

(** Further example states. *)
Module MoreExamples.

(** The manager constructed on a page with the control. *)
Definition withControl : Theme.World :=
  final (Theme.new (Examples.themePage true None)).

End MoreExamples.

(* ------------------------------------------------------------------ *)
(** ** Further specification-level definitions: navigation *)
(* ------------------------------------------------------------------ *)

(** The section the observer's callback leaves current: the target of
    the last intersecting entry, or the section that was current when
    no entry intersects. *)
Definition last_reported (entries : list Nav.Entry) (current : list N) : list N :=
  match last (List.filter Nav.isIntersecting entries) with
  | Some e => Nav.target_id e
  | None => current
  end.

(** At most one navigation link carries the [active] class. *)
Definition one_active_link (l : list Nav.Anchor) : Prop :=
  ∀ j k a b, l !! j = Some a → l !! k = Some b →
    Nav.isNavLink a = true → Nav.isNavLink b = true →
    Nav.active a = true → Nav.active b = true → j = k.

(** No navigation link carries the [active] class. *)
Definition no_active_link (l : list Nav.Anchor) : Prop :=
  ∀ j a, l !! j = Some a → Nav.isNavLink a = true → Nav.active a = false.

(* ------------------------------------------------------------------ *)
(** ** NavigationManager: the mobile menu and link navigation *)
(* ------------------------------------------------------------------ *)

(** The menu half of [NavigationManager], on its own record: it shares
    no field with the active-section half above. *)
Module Menu.

(** The menu container [.nav-menu]: whether its class list holds
    [active], its [aria-hidden] attribute, and its [.nav-link]
    descendants (by identity) in document order. *)
Record MenuEl := {
  menu_active : bool;
  menu_ariaHidden : option (list N);
  menu_links : list nat
}.

(** The hamburger button [.nav-toggle]. *)
Record ToggleEl := {
  toggle_active : bool;
  toggle_ariaExpanded : option (list N)
}.

Inductive Focus := FocusToggle | FocusLink (link : nat).

(** A pending [setTimeout(() => link.focus(), ms)]. *)
Record Timer := { delay : N; focusLink : nat }.

Record State := {
  isMenuOpen : bool;
  navMenu : option MenuEl;
  navToggle : option ToggleEl;
  bodyOverflow : list N;            (* document.body.style.overflow *)
  activeElement : option Focus;
  timers : list Timer;
  scrolls : list Z                  (* [top] of every window.scrollTo so far *)
}.

Definition with_isMenuOpen (b : bool) (st : State) : State :=
  {| isMenuOpen := b; navMenu := navMenu st; navToggle := navToggle st;
     bodyOverflow := bodyOverflow st; activeElement := activeElement st;
     timers := timers st; scrolls := scrolls st |}.

Definition with_navMenu (m : MenuEl) (st : State) : State :=
  {| isMenuOpen := isMenuOpen st; navMenu := Some m; navToggle := navToggle st;
     bodyOverflow := bodyOverflow st; activeElement := activeElement st;
     timers := timers st; scrolls := scrolls st |}.

Definition with_navToggle (t : ToggleEl) (st : State) : State :=
  {| isMenuOpen := isMenuOpen st; navMenu := navMenu st; navToggle := Some t;
     bodyOverflow := bodyOverflow st; activeElement := activeElement st;
     timers := timers st; scrolls := scrolls st |}.

Definition with_bodyOverflow (v : list N) (st : State) : State :=
  {| isMenuOpen := isMenuOpen st; navMenu := navMenu st; navToggle := navToggle st;
     bodyOverflow := v; activeElement := activeElement st;
     timers := timers st; scrolls := scrolls st |}.

Definition focus (f : Focus) (st : State) : State :=
  {| isMenuOpen := isMenuOpen st; navMenu := navMenu st; navToggle := navToggle st;
     bodyOverflow := bodyOverflow st; activeElement := Some f;
     timers := timers st; scrolls := scrolls st |}.

Definition setTimeout (t : Timer) (st : State) : State :=
  {| isMenuOpen := isMenuOpen st; navMenu := navMenu st; navToggle := navToggle st;
     bodyOverflow := bodyOverflow st; activeElement := activeElement st;
     timers := timers st ++ [t]; scrolls := scrolls st |}.

Definition scrollTo (top : Z) (st : State) : State :=
  {| isMenuOpen := isMenuOpen st; navMenu := navMenu st; navToggle := navToggle st;
     bodyOverflow := bodyOverflow st; activeElement := activeElement st;
     timers := timers st; scrolls := scrolls st ++ [top] |}.

(** Reads of [this.navMenu] and [this.navToggle] for a method call:
    a call on [null] raises. *)
Definition theMenu : M State MenuEl :=
  fun st => match navMenu st with
            | Some m => Ret m st
            | None => Throw TypeError st
            end.

Definition theToggle : M State ToggleEl :=
  fun st => match navToggle st with
            | Some t => Ret t st
            | None => Throw TypeError st
            end.

(** The four writes that mark menu and toggle as open or closed, in
    the order of the source: menu class, toggle class, [aria-expanded]
    on the toggle, [aria-hidden] on the menu. *)
Definition markOpen (b : bool) : M State unit :=
  m ← theMenu;
  modify (with_navMenu {| menu_active := b; menu_ariaHidden := menu_ariaHidden m;
                          menu_links := menu_links m |});;
  t ← theToggle;
  modify (with_navToggle {| toggle_active := b;
                            toggle_ariaExpanded := Some (if b then js "true" else js "false") |});;
  m ← theMenu;
  modify (with_navMenu {| menu_active := menu_active m;
                          menu_ariaHidden := Some (if b then js "false" else js "true");
                          menu_links := menu_links m |}).

Definition openMobileMenu : M State unit :=
  modify (with_isMenuOpen true);;
  markOpen true;;
  modify (with_bodyOverflow (js "hidden"));;
  m ← theMenu;
  match menu_links m with
  | firstLink :: _ => modify (setTimeout {| delay := 100; focusLink := firstLink |})
  | [] => ret tt
  end.

Definition closeMobileMenu : M State unit :=
  modify (with_isMenuOpen false);;
  markOpen false;;
  modify (with_bodyOverflow []);;
  _ ← theToggle;
  modify (focus FocusToggle).

Definition toggleMobileMenu : M State unit :=
  st ← get;
  if isMenuOpen st then closeMobileMenu else openMobileMenu.

(** Where a click landed, as far as [handleOutsideClick] can tell. *)
Inductive ClickTarget := InMenu | InToggle | Elsewhere.

Definition handleOutsideClick (target : ClickTarget) : M State unit :=
  fun st =>
    if negb (isMenuOpen st) then Ret tt st
    else
      match navMenu st with
      | None => Throw TypeError st
      | Some _ =>
          match target with
          | InMenu => Ret tt st
          | InToggle | Elsewhere =>
              match navToggle st with
              | None => Throw TypeError st
              | Some _ =>
                  match target with
                  | InToggle => Ret tt st
                  | _ => closeMobileMenu st
                  end
              end
          end
      end.

(** The document-level [keydown] listener. *)
Definition handleDocumentKeydown (key : list N) : M State unit :=
  st ← get;
  if str_eqb key (js "Escape") && isMenuOpen st then closeMobileMenu else ret tt.

(** [handleToggleKeydown]; the result tells whether the default action
    of the key was prevented. *)
Definition handleToggleKeydown (key : list N) : M State bool :=
  if str_eqb key (js "Enter") || str_eqb key (js " ")
  then toggleMobileMenu;; ret true
  else ret false.

(** [handleResize], for the window's [innerWidth]. *)
Definition handleResize (innerWidth : Z) : M State unit :=
  st ← get;
  if (768 <=? innerWidth)%Z && isMenuOpen st then closeMobileMenu else ret tt.

(** [Array.prototype.indexOf]: the first index, or -1. *)
Fixpoint indexOf (x : nat) (l : list nat) : Z :=
  match l with
  | [] => (-1)%Z
  | y :: l' =>
      if Nat.eqb x y then 0%Z
      else let i := indexOf x l' in if (i <? 0)%Z then (-1)%Z else (i + 1)%Z
  end.

(** [array[i]] for an integer [i]: [undefined] out of range. *)
Definition at_index (l : list nat) (i : Z) : option nat :=
  if (i <? 0)%Z then None else l !! Z.to_nat i.

Definition navigateMenuWithArrows (currentLink : nat) (isDown : bool) : M State unit :=
  m ← theMenu;
  let menuLinks := menu_links m in
  let currentIndex := indexOf currentLink menuLinks in
  let len := Z.of_nat (length menuLinks) in
  let nextIndex :=
    if isDown then (if (len <=? currentIndex + 1)%Z then 0 else currentIndex + 1)%Z
    else (if (currentIndex - 1 <? 0)%Z then len - 1 else currentIndex - 1)%Z in
  match at_index menuLinks nextIndex with
  | Some link => modify (focus (FocusLink link))
  | None => throw TypeError
  end.

(** [handleNavKeydown] for a key pressed on the link [target].
    [click] is what [e.target.click()] runs (the click listeners of
    the link); the result tells whether the default was prevented. *)
Definition handleNavKeydown (click : M State unit) (key : list N) (target : nat)
    : M State bool :=
  activated ←
    (if str_eqb key (js "Enter") || str_eqb key (js " ")
     then click;; ret true
     else ret false);
  st ← get;
  if isMenuOpen st && (str_eqb key (js "ArrowDown") || str_eqb key (js "ArrowUp"))
  then navigateMenuWithArrows target (str_eqb key (js "ArrowDown"));; ret true
  else ret activated.

(** [scrollToSection]: the section's [offsetTop], less the height of
    the [.header] element when the page has one, less 20. *)
Definition scrollToSection (offsetTop : Z) (header : option Z) : M State unit :=
  let headerHeight := match header with Some h => h | None => 0%Z end in
  modify (scrollTo (offsetTop - headerHeight - 20)).

(** What [document.querySelector(href)] finds for a link's [href]: a
    section (given by its [offsetTop]), nothing, or a selector the
    browser refuses. *)
Inductive Target := Section_ (offsetTop : Z) | Nothing | Refused.

(** [handleNavClick]; the default action is always prevented first. *)
Definition handleNavClick (target : Target) (header : option Z) : M State unit :=
  match target with
  | Refused => throw SyntaxError
  | Nothing => ret tt
  | Section_ offsetTop =>
      st ← get;
      (if isMenuOpen st then closeMobileMenu else ret tt);;
      scrollToSection offsetTop header
  end.

End Menu.

(** Menu, toggle, ARIA attributes and page scroll all agree with
    [isMenuOpen]. *)
Definition menu_consistent (st : Menu.State) : Prop :=
  ∃ m t, Menu.navMenu st = Some m ∧ Menu.navToggle st = Some t
    ∧ Menu.menu_active m = Menu.isMenuOpen st
    ∧ Menu.toggle_active t = Menu.isMenuOpen st
    ∧ Menu.toggle_ariaExpanded t
      = Some (if Menu.isMenuOpen st then js "true" else js "false")
    ∧ Menu.menu_ariaHidden m
      = Some (if Menu.isMenuOpen st then js "false" else js "true")
    ∧ Menu.bodyOverflow st = (if Menu.isMenuOpen st then js "hidden" else []).

(** The links of the menu, when it exists. *)
Definition links_of (st : Menu.State) : list nat :=
  match Menu.navMenu st with
  | Some m => Menu.menu_links m
  | None => []
  end.

Module MenuExamples.

(** A page with a closed menu of three links. *)
Definition closed : Menu.State :=
  {| Menu.isMenuOpen := false;
     Menu.navMenu := Some {| Menu.menu_active := false;
                             Menu.menu_ariaHidden := Some (js "true");
                             Menu.menu_links := [0; 1; 2]%nat |};
     Menu.navToggle := Some {| Menu.toggle_active := false;
                               Menu.toggle_ariaExpanded := Some (js "false") |};
     Menu.bodyOverflow := []; Menu.activeElement := None;
     Menu.timers := []; Menu.scrolls := [] |}.

Definition theMenu : Menu.MenuEl :=
  {| Menu.menu_active := false; Menu.menu_ariaHidden := Some (js "true");
     Menu.menu_links := [0; 1; 2]%nat |}.

Definition theToggle : Menu.ToggleEl :=
  {| Menu.toggle_active := false; Menu.toggle_ariaExpanded := Some (js "false") |}.

End MenuExamples.

(* ------------------------------------------------------------------ *)
(** ** Further specification-level definitions: the form *)
(* ------------------------------------------------------------------ *)

(** What [validateField fn] leaves in the entry of a field: nothing new
    without an input; otherwise the trimmed value, the verdict, the
    error element showing [error_display], and (when there is an error
    element) the input marked or unmarked as invalid. *)
Definition validated (fn : Form.FieldName) (f : Form.Field) : Form.Field :=
  match Form.element f with
  | None => f
  | Some el =>
      let v := trim (Form.el_value el) in
      let ok := field_ok fn v in
      {| Form.element :=
           Some match Form.errorElement f with
                | None => el
                | Some _ =>
                    {| Form.el_value := Form.el_value el;
                       Form.el_errorClass := negb ok;
                       Form.el_ariaInvalid := Some (if ok then js "false" else js "true") |}
                end;
         Form.errorElement := (λ _, error_display fn v) <$> Form.errorElement f;
         Form.isValid := ok;
         Form.value := v |}
  end.

(** A step never marks valid a field without its input, and never
    removes an input. *)
Definition keeps_marks (st st' : Form.FormValidator) : Prop :=
  ∀ fn, Form.element (Form.get_field fn st') = None →
        Form.element (Form.get_field fn st) = None
        ∧ Form.isValid (Form.get_field fn st') = Form.isValid (Form.get_field fn st).

(** A method all of whose exits, normal or not, are such steps. *)
Definition keeping {A} (c : M Form.FormValidator A) : Prop :=
  ∀ s, keeps_marks s (final (c s)).

(* ------------------------------------------------------------------ *)
(** ** PortfolioApp: the page-level listeners *)
(* ------------------------------------------------------------------ *)

(** The resize, scroll and visibility listeners installed by
    [setupGlobalEventListeners], with the timers they debounce on. *)
Module Globals.

(** The two debounced listeners. *)
Inductive Kind := Resize | Scroll.

#[global] Instance Kind_eq_dec : EqDecision Kind.
Proof. solve_decision. Defined.

(** [150] and [10], the delays given to [setTimeout]. *)
Definition delayOf (k : Kind) : N :=
  match k with Resize => 150 | Scroll => 10 end.

(** What a pending timer will run: one of the two debounced handlers,
    or something another component scheduled. *)
Inductive Callback := Debounced (k : Kind) | Foreign.

Record Pending := { id : nat; callback : Callback; delay : N }.

(** The variables one run of [setupGlobalEventListeners] declares with
    [let]: they are shared by the two listeners that run adds and by
    nothing else, so every run has a pair of its own. *)
Record Registration := {
  resizeTimeout : option nat;     (* [None] is undefined *)
  scrollTimeout : option nat
}.

Record State := {
  registrations : list Registration;  (* one per run of the setup, oldest first *)
  nextTimer : nat;                (* the next identifier [setTimeout] hands out *)
  pending : list Pending;
  hasNavigation : bool;           (* this.components.navigationManager *)
  innerWidth : Z;
  scrollY : Q;
  hidden : bool;                  (* document.hidden *)
  bodyClasses : gset (list N);
  mainNav : option (gset (list N));   (* the class list of [.main-nav] *)
  resizeRuns : nat;               (* calls of handleWindowResize so far *)
  scrollRuns : nat                (* calls of handleScroll so far *)
}.

Definition slot (k : Kind) (r : Registration) : option nat :=
  match k with Resize => resizeTimeout r | Scroll => scrollTimeout r end.

Definition with_slot (k : Kind) (v : option nat) (r : Registration) : Registration :=
  {| resizeTimeout := match k with Resize => v | Scroll => resizeTimeout r end;
     scrollTimeout := match k with Scroll => v | Resize => scrollTimeout r end |}.

Definition with_timers (regs : list Registration) (next : nat) (l : list Pending)
    (st : State) : State :=
  {| registrations := regs; nextTimer := next; pending := l;
     hasNavigation := hasNavigation st; innerWidth := innerWidth st;
     scrollY := scrollY st; hidden := hidden st; bodyClasses := bodyClasses st;
     mainNav := mainNav st; resizeRuns := resizeRuns st; scrollRuns := scrollRuns st |}.

Definition with_registrations (regs : list Registration) (st : State) : State :=
  with_timers regs (nextTimer st) (pending st) st.

Definition with_pending (next : nat) (l : list Pending) (st : State) : State :=
  with_timers (registrations st) next l st.

Definition with_classes (b : gset (list N)) (n : option (gset (list N))) (st : State) : State :=
  {| registrations := registrations st;
     nextTimer := nextTimer st; pending := pending st;
     hasNavigation := hasNavigation st; innerWidth := innerWidth st;
     scrollY := scrollY st; hidden := hidden st; bodyClasses := b;
     mainNav := n; resizeRuns := resizeRuns st; scrollRuns := scrollRuns st |}.

Definition with_window (w : Z) (y : Q) (h : bool) (st : State) : State :=
  {| registrations := registrations st;
     nextTimer := nextTimer st; pending := pending st;
     hasNavigation := hasNavigation st; innerWidth := w;
     scrollY := y; hidden := h; bodyClasses := bodyClasses st;
     mainNav := mainNav st; resizeRuns := resizeRuns st; scrollRuns := scrollRuns st |}.

Definition count_run (k : Kind) (st : State) : State :=
  {| registrations := registrations st;
     nextTimer := nextTimer st; pending := pending st;
     hasNavigation := hasNavigation st; innerWidth := innerWidth st;
     scrollY := scrollY st; hidden := hidden st; bodyClasses := bodyClasses st;
     mainNav := mainNav st;
     resizeRuns := match k with Resize => S (resizeRuns st) | Scroll => resizeRuns st end;
     scrollRuns := match k with Scroll => S (scrollRuns st) | Resize => scrollRuns st end |}.

(** [clearTimeout(v)]: drops the pending timer with that identifier;
    [undefined] or an identifier that is not pending does nothing. *)
Definition clearTimeout (v : option nat) (st : State) : State :=
  match v with
  | None => st
  | Some i =>
      with_pending (nextTimer st)
        (List.filter (fun p => negb (Nat.eqb (id p) i)) (pending st)) st
  end.

(** [setTimeout(cb, ms)]: a fresh identifier. *)
Definition setTimeout (cb : Callback) (ms : N) (st : State) : nat * State :=
  (nextTimer st,
   with_pending (S (nextTimer st))
     (pending st ++ [{| id := nextTimer st; callback := cb; delay := ms |}]) st).

(** [setupGlobalEventListeners], as far as resize and scroll go: two
    listeners more on the window, over two fresh variables.  Nothing
    removes the listeners of an earlier run. *)
Definition setupGlobalEventListeners (st : State) : State :=
  with_registrations
    (registrations st ++ [{| resizeTimeout := None; scrollTimeout := None |}]) st.

(** The [resize] or [scroll] listener that the [j]-th run added. *)
Definition listener (k : Kind) (j : nat) (st : State) : State :=
  match registrations st !! j with
  | None => st
  | Some r =>
      let st1 := clearTimeout (slot k r) st in
      let (i, st2) := setTimeout (Debounced k) (delayOf k) st1 in
      with_registrations (<[j := with_slot k (Some i) r]> (registrations st2)) st2
  end.

(** The window dispatches a [resize] or [scroll] event: its listeners
    run in the order they were added. *)
Definition onEvent (k : Kind) (st : State) : State :=
  foldl (fun s j => listener k j s) st (seq 0 (length (registrations st))).

(** [classList.toggle(name, force)]. *)
Definition toggleClass (name : list N) (force : bool) (s : gset (list N)) : gset (list N) :=
  if force then {[ name ]} ∪ s else s ∖ {[ name ]}.

Definition updateLayoutForScreenSize (st : State) : State :=
  let isMobile := (innerWidth st <? 768)%Z in
  with_classes
    (toggleClass (js "is-desktop") (negb isMobile)
       (toggleClass (js "is-mobile") isMobile (bodyClasses st)))
    (mainNav st) st.

Definition handleWindowResize (st : State) : State :=
  let st := count_run Resize st in
  if hasNavigation st then updateLayoutForScreenSize st else st.

Definition handleScroll (st : State) : State :=
  let st := count_run Scroll st in
  let hasScrolled := negb (Qle_bool (scrollY st) 50) in
  with_classes
    (toggleClass (js "has-scrolled") hasScrolled (bodyClasses st))
    (toggleClass (js "scrolled") hasScrolled <$> mainNav st) st.

Definition handleVisibilityChange (st : State) : State :=
  with_classes (toggleClass (js "page-hidden") (hidden st) (bodyClasses st))
    (mainNav st) st.

(** The timer with identifier [i] fires: it leaves the pending list
    and its callback runs.  Nothing happens for an identifier that is
    not pending. *)
Definition fire (i : nat) (st : State) : State :=
  match List.find (fun p => Nat.eqb (id p) i) (pending st) with
  | None => st
  | Some p =>
      let st1 :=
        with_pending (nextTimer st)
          (List.filter (fun q => negb (Nat.eqb (id q) i)) (pending st)) st in
      match callback p with
      | Debounced Resize => handleWindowResize st1
      | Debounced Scroll => handleScroll st1
      | Foreign => st1
      end
  end.

(** Whether a pending timer belongs to a debounced handler. *)
Definition isFor (k : Kind) (p : Pending) : bool :=
  match callback p with
  | Debounced k' => bool_decide (k' = k)
  | Foreign => false
  end.

(** The timers pending for one of the debounced handlers. *)
Definition pendingFor (k : Kind) (st : State) : list Pending :=
  List.filter (isFor k) (pending st).

(** How often a debounced handler has run. *)
Definition runs (k : Kind) (st : State) : nat :=
  match k with Resize => resizeRuns st | Scroll => scrollRuns st end.

Definition with_hasNavigation (b : bool) (st : State) : State :=
  {| registrations := registrations st;
     nextTimer := nextTimer st; pending := pending st;
     hasNavigation := b; innerWidth := innerWidth st;
     scrollY := scrollY st; hidden := hidden st; bodyClasses := bodyClasses st;
     mainNav := mainNav st; resizeRuns := resizeRuns st; scrollRuns := scrollRuns st |}.

(** What happens on the page, as far as these listeners and their
    handlers can tell. *)
Inductive Step :=
| Components                          (* [initializeComponents] has run *)
| Setup                               (* [setupGlobalEventListeners] runs *)
| Event (k : Kind)                    (* the window is resized or scrolled *)
| TimerFires (i : nat)                (* the timer with this identifier is due *)
| OtherTimeout (ms : N)               (* another component calls [setTimeout] *)
| Window (w : Z) (y : Q) (h : bool)   (* size, scroll position, visibility change *)
| Classes (b : gset (list N)) (n : option (gset (list N))).
                                      (* other code writes the class lists *)

Definition step (a : Step) (st : State) : State :=
  match a with
  | Components => with_hasNavigation true st
  | Setup => setupGlobalEventListeners st
  | Event k => onEvent k st
  | TimerFires i => fire i st
  | OtherTimeout ms => (setTimeout Foreign ms st).2
  | Window w y h => with_window w y h st
  | Classes b n => with_classes b n st
  end.

Definition run (history : list Step) (st : State) : State :=
  foldl (fun s a => step a s) st history.

Definition isSetup (a : Step) : bool :=
  match a with Setup => true | _ => false end.

(** The runs of [setupGlobalEventListeners] in a history. *)
Definition setups (history : list Step) : nat :=
  length (List.filter isSetup history).

End Globals.

(** The timer bookkeeping is sound: identifiers are unique, and those
    pending or remembered by a listener are below the next one to hand
    out. *)
Definition timers_wf (st : Globals.State) : Prop :=
  NoDup (Globals.id <$> Globals.pending st)
  ∧ (∀ p, p ∈ Globals.pending st → (Globals.id p < Globals.nextTimer st)%nat)
  ∧ (∀ r k i, r ∈ Globals.registrations st → Globals.slot k r = Some i →
       (i < Globals.nextTimer st)%nat).

(** The pending timers of a debounced handler are exactly those whose
    identifier one of its listeners remembers. *)
Definition debounced (st : Globals.State) : Prop :=
  ∀ p k, p ∈ Globals.pending st →
    (Globals.callback p = Globals.Debounced k
     ↔ ∃ r, r ∈ Globals.registrations st ∧ Globals.slot k r = Some (Globals.id p)).

(** The timers that do not belong to a debounced handler. *)
Definition notFor (k : Globals.Kind) (p : Globals.Pending) : bool :=
  negb (Globals.isFor k p).

Definition othersThan (k : Globals.Kind) (st : Globals.State) : list Globals.Pending :=
  List.filter (notFor k) (Globals.pending st).

(** The timers one event leaves for a handler: one per registration,
    with consecutive identifiers from [first]. *)
Definition rearmed_timers (k : Globals.Kind) (first count : nat) : list Globals.Pending :=
  (λ j, {| Globals.id := first + j; Globals.callback := Globals.Debounced k;
           Globals.delay := Globals.delayOf k |}) <$> seq 0 count.

(** The registrations after one event: each remembers its new timer. *)
Definition rearmed (k : Globals.Kind) (first : nat) (l : list Globals.Registration)
    : list Globals.Registration :=
  imap (λ j r, Globals.with_slot k (Some (first + j)%nat) r) l.

(** The identifiers the listeners of a handler remember. *)
Definition remembered (k : Globals.Kind) (l : list Globals.Registration) : list nat :=
  omap (Globals.slot k) l.

(** All pending timers of a handler fire, oldest first. *)
Definition fireAll (k : Globals.Kind) (st : Globals.State) : Globals.State :=
  foldl (λ s p, Globals.fire (Globals.id p) s) st (Globals.pendingFor k st).

Module GlobalExamples.

(** The page when the script starts: nothing registered, no timer. *)
Definition atLoad : Globals.State :=
  {| Globals.registrations := [];
     Globals.nextTimer := 1;
     Globals.pending := [];
     Globals.hasNavigation := false; Globals.innerWidth := 1024%Z;
     Globals.scrollY := 0%Q; Globals.hidden := false;
     Globals.bodyClasses := ∅; Globals.mainNav := Some ∅;
     Globals.resizeRuns := 0; Globals.scrollRuns := 0 |}.

(** The page right after the listeners were installed, with a timer of
    another component pending. *)
Definition fresh : Globals.State :=
  Globals.run [Globals.OtherTimeout 300; Globals.Components; Globals.Setup] atLoad.

(** The theme manager schedules its timer and the listeners are
    installed; the page is scrolled; then [reinitialize] goes through
    [init] again and the listeners are installed once more. *)
Definition reinitialized : list Globals.Step :=
  [Globals.OtherTimeout 300; Globals.Components; Globals.Setup;
   Globals.Event Globals.Scroll;
   Globals.OtherTimeout 300; Globals.Components; Globals.Setup].

End GlobalExamples.

(* ------------------------------------------------------------------ *)
(** ** Proofs: the monad *)
(* ------------------------------------------------------------------ *)

Ltac unfold_monad :=
  unfold mbind, mret, M_bind, M_ret, bind, ret, get, modify, throw,
         try_catch, finally in *.

Lemma bind_Ret {S A B} (c : M S A) (k : A → M S B) s a s' :
  c s = Ret a s' → (c ≫= k) s = k a s'.
Proof. intros H. unfold_monad. by rewrite H. Qed.

Lemma bind_Throw {S A B} (c : M S A) (k : A → M S B) s e s' :
  c s = Throw e s' → (c ≫= k) s = Throw e s'.
Proof. intros H. unfold_monad. by rewrite H. Qed.

Lemma finally_final {S A} (body : M S A) (fin : M S unit) (P : S → Prop) s :
  (∀ s1, P (final (fin s1))) → P (final (finally body fin s)).
Proof.
  intros H. unfold finally.
  destruct (body s) as [a s1|e s1]; specialize (H s1);
    destruct (fin s1); exact H.
Qed.

(* ------------------------------------------------------------------ *)
(** ** Proofs: strings and the email pattern *)
(* ------------------------------------------------------------------ *)

Lemma truthy_str_true (s : list N) : truthy_str s = true ↔ s ≠ [].
Proof. destruct s; simpl; split; congruence. Qed.

Lemma str_eqb_eq (a b : list N) : str_eqb a b = true ↔ a = b.
Proof. unfold str_eqb. apply bool_decide_eq_true. Qed.

Lemma str_eqb_refl (a : list N) : str_eqb a a = true.
Proof. by apply str_eqb_eq. Qed.

Module RegexFacts.
Import Regex.

(** Close a goal that differs from [H] in a position only. *)
Ltac nat_arg H := rewrite <- H; f_equal; simpl; lia.

(** The greedy loop succeeds exactly when some prefix of matching
    characters can be split off so that the continuation succeeds. *)
Lemma plus_loop_true m k pos s :
  plus_loop m k pos s = true
  ↔ ∃ a q, s = a ++ q ∧ Forall (λ c, char_matches m c = true) a
           ∧ k (pos + length a)%nat q = true.
Proof.
  revert pos. induction s as [|c s IH]; intros pos; simpl.
  - split.
    + intros H. exists [], []. simpl. rewrite Nat.add_0_r. auto.
    + intros (a & q & Hs & _ & Hk).
      symmetry in Hs. apply app_eq_nil in Hs as [-> ->].
      simpl in Hk. by rewrite Nat.add_0_r in Hk.
  - rewrite orb_true_iff, andb_true_iff, IH. split.
    + intros [[Hc (a & q & -> & Ha & Hk)] | Hk].
      * exists (c :: a), q. split_and!; auto. nat_arg Hk.
      * exists [], (c :: s). simpl. rewrite Nat.add_0_r. auto.
    + intros (a & q & Hs & Ha & Hk). destruct a as [|c' a]; simpl in *.
      * right. subst q. by rewrite Nat.add_0_r in Hk.
      * injection Hs as <- ->. left. inversion Ha; subst. split; [done|].
        exists a, q. split_and!; auto. nat_arg Hk.
Qed.

Lemma match_Plus m p pos s :
  match_terms (Plus m :: p) pos s = true
  ↔ ∃ a q, s = a ++ q ∧ a ≠ [] ∧ Forall (λ c, char_matches m c = true) a
           ∧ match_terms p (pos + length a)%nat q = true.
Proof.
  destruct s as [|c s]; simpl.
  - split; [done|]. intros (a & q & Hs & Hne & _).
    symmetry in Hs. apply app_eq_nil in Hs as [-> _]. done.
  - rewrite andb_true_iff, plus_loop_true. split.
    + intros [Hc (a & q & -> & Ha & Hk)].
      exists (c :: a), q. split_and!; auto. nat_arg Hk.
    + intros (a & q & Hs & Hne & Ha & Hk). destruct a as [|c' a]; [done|].
      simpl in Hs. injection Hs as <- ->. inversion Ha; subst. split; [done|].
      exists a, q. split_and!; auto. nat_arg Hk.
Qed.

Lemma match_One m p pos s :
  match_terms (One m :: p) pos s = true
  ↔ ∃ c q, s = c :: q ∧ char_matches m c = true
           ∧ match_terms p (S pos) q = true.
Proof.
  destruct s as [|c s]; simpl.
  - split; [done|]. by intros (? & ? & ? & _).
  - rewrite andb_true_iff. split.
    + intros [? ?]. eauto.
    + intros (c' & q & Hs & ? & ?). by injection Hs as <- <-.
Qed.

Lemma match_Eol pos s : match_terms [Eol] pos s = true ↔ s = [].
Proof. destruct s; simpl; split; congruence. Qed.

(** A pattern that starts with [^] matches at index 0 or nowhere. *)
Lemma search_Bol_later p pos s : search (Bol :: p) (S pos) s = false.
Proof.
  revert pos. induction s as [|c s IH]; intros pos; simpl; [done|].
  by rewrite IH.
Qed.

Lemma test_Bol p s : test (Bol :: p) s = match_terms p 0 s.
Proof.
  unfold test. destruct s as [|c s]; simpl.
  - by rewrite orb_false_r.
  - by rewrite search_Bol_later, orb_false_r.
Qed.

Lemma plain_class c :
  char_matches (NegClass [ClassEscape_s; ClassChar 0x40]) c = true ↔ plain c.
Proof.
  unfold plain. simpl. rewrite orb_false_r, negb_true_iff, orb_false_iff.
  by rewrite N.eqb_neq.
Qed.

Lemma Forall_plain_class a :
  Forall (λ c, char_matches (NegClass [ClassEscape_s; ClassChar 0x40]) c = true) a
  ↔ Forall plain a.
Proof. apply Forall_iff. intros c. apply plain_class. Qed.

End RegexFacts.

(** The regular expression of [isValidEmail] accepts exactly the
    strings of the shape the specification describes. *)
Lemma isValidEmail_shape (s : list N) : Form.isValidEmail s = true ↔ email_shape s.
Proof.
  unfold Form.isValidEmail, Form.emailRegex, email_shape.
  rewrite RegexFacts.test_Bol, RegexFacts.match_Plus. split.
  - intros (l & q1 & -> & Hl & Fl & H).
    apply RegexFacts.match_One in H as (c & q2 & -> & Hc & H).
    apply N.eqb_eq in Hc as ->.
    apply RegexFacts.match_Plus in H as (d & q3 & -> & Hd & Fd & H).
    apply RegexFacts.match_One in H as (c & q4 & -> & Hc & H).
    apply N.eqb_eq in Hc as ->.
    apply RegexFacts.match_Plus in H as (t & q5 & -> & Ht & Ft & H).
    apply RegexFacts.match_Eol in H as ->.
    exists l, d, t. rewrite app_nil_r.
    rewrite RegexFacts.Forall_plain_class in Fl, Fd, Ft. by split_and!.
  - intros (l & d & t & -> & Hl & Hd & Ht & Fl & Fd & Ft).
    exists l, ([0x40] ++ d ++ [0x2E] ++ t).
    rewrite RegexFacts.Forall_plain_class. split_and!; auto.
    apply RegexFacts.match_One. exists 0x40, (d ++ [0x2E] ++ t). split_and!; auto.
    apply RegexFacts.match_Plus. exists d, ([0x2E] ++ t).
    rewrite RegexFacts.Forall_plain_class. split_and!; auto.
    apply RegexFacts.match_One. exists 0x2E, t. split_and!; auto.
    apply RegexFacts.match_Plus. exists t, [].
    rewrite RegexFacts.Forall_plain_class, app_nil_r. split_and!; auto.
Qed.

(* ------------------------------------------------------------------ *)
(** ** Proofs: the theme manager *)
(* ------------------------------------------------------------------ *)

Section ThemeFacts.
Import Theme.

Lemma ICONS_light : get_property ICONS light = Str [0xD83C; 0xDF19].
Proof. reflexivity. Qed.
Lemma ICONS_dark : get_property ICONS dark = Str [0x2600; 0xFE0F].
Proof. reflexivity. Qed.

(** [save] never raises; it writes the current theme when the storage
    takes the write and changes nothing otherwise. *)
Lemma save_spec w :
  ∃ w', save w = Ret tt w'
    ∧ this w' = this w
    ∧ toggleControl (page w') = toggleControl (page w)
    ∧ clickListeners (page w') = clickListeners (page w)
    ∧ dataTheme (page w') = dataTheme (page w)
    ∧ transitionClass (page w') = transitionClass (page w)
    ∧ timers (page w') = timers (page w)
    ∧ readable (storage (page w')) = readable (storage (page w))
    ∧ writable (storage (page w')) = writable (storage (page w))
    ∧ items (storage (page w'))
      = if writable (storage (page w))
        then <[STORAGE_KEY := currentTheme (this w)]> (items (storage (page w)))
        else items (storage (page w)).
Proof.
  unfold save, setItem. unfold_monad.
  destruct (writable (storage (page w))) eqn:Hw; eexists; (split; [reflexivity|]);
    cbn; rewrite ?Hw; split_and!; done.
Qed.

(** What [set] does for one of the two themes. *)
Lemma set_enumerated theme w :
  theme = light ∨ theme = dark →
  ∃ w', set theme w = Ret tt w'
    ∧ currentTheme (this w') = theme
    ∧ button (this w') = button (this w)
    ∧ dataTheme (page w') = (if str_eqb theme dark then Some dark else None)
    ∧ transitionClass (page w') = true
    ∧ timers (page w') = timers (page w) ++ [THEME_TRANSITION_DURATION]
    ∧ clickListeners (page w') = clickListeners (page w)
    ∧ items (storage (page w'))
      = (if writable (storage (page w))
         then <[STORAGE_KEY := theme]> (items (storage (page w)))
         else items (storage (page w)))
    ∧ toggleControl (page w')
      = if button (this w)
        then (λ b, {| icon := (λ _, get_property ICONS (if str_eqb theme light then dark else light)) <$> icon b;
                      ariaLabel := Some (get_property LABELS (if str_eqb theme light then dark else light));
                      ariaPressed := Some (str_eqb theme dark) |}) <$> toggleControl (page w)
        else toggleControl (page w).
Proof.
  intros Ht. unfold set.
  assert (Htr : truthy (get_property ICONS theme) = true) by (by destruct Ht as [-> | ->]).
  rewrite Htr. cbn [negb].
  unfold apply, updateButton. unfold mbind, M_bind, bind, modify.
  set (w1 := with_page _ (with_currentTheme theme w)).
  destruct (save_spec w1) as (w2 & -> & Hthis & Htc & Hcl & Hdt & Htrn & Htm & Hr & Hwr & Hit).
  eexists. split; [reflexivity|].
  rewrite Hthis. cbn.
  destruct (button (this w)) eqn:Hb; cbn;
    rewrite ?Hthis, ?Htc, ?Hcl, ?Hdt, ?Htrn, ?Htm, ?Hit; cbn;
    rewrite ?Hb; split_and!; done.
Qed.

Lemma toggle_spec w :
  let newTheme := if str_eqb (currentTheme (this w)) light then dark else light in
  toggle w = set newTheme w ∧ (newTheme = light ∨ newTheme = dark)
  ∧ newTheme ≠ currentTheme (this w).
Proof.
  intros newTheme. split; [reflexivity|]. subst newTheme.
  destruct (str_eqb (currentTheme (this w)) light) eqn:E.
  - apply str_eqb_eq in E. rewrite E. split; [by right|].
    intros H. vm_compute in H. discriminate.
  - split; [by left|]. intros Heq. rewrite <- Heq in E. by rewrite str_eqb_refl in E.
Qed.

(** [loadSavedTheme] never raises and writes [currentTheme] only. *)
Lemma loadSavedTheme_spec w :
  ∃ t, loadSavedTheme w = Ret tt (with_currentTheme t w)
    ∧ t = if readable (storage (page w)) then
            match items (storage (page w)) !! STORAGE_KEY with
            | Some s => if truthy_str s && truthy (get_property ICONS s) then s else DEFAULT
            | None => DEFAULT
            end
          else DEFAULT.
Proof.
  unfold loadSavedTheme, getItem. unfold_monad.
  destruct (readable (storage (page w))); eexists; split; reflexivity.
Qed.

(** Construction never raises.  Without the control the page is left
    as it was and the theme is the default; with it, the theme is
    what [loadSavedTheme] chose and it has been applied. *)
Lemma new_spec p :
  ∃ w, new p = Ret tt w
    ∧ storage (page w) = storage p
    ∧ toggleControl (page w) = toggleControl p
    ∧ match toggleControl p with
      | None => w = {| this := {| currentTheme := DEFAULT; button := false |}; page := p |}
      | Some _ =>
          button (this w) = true
          ∧ clickListeners (page w) = S (clickListeners p)
          ∧ currentTheme (this w)
            = (if readable (storage p) then
                 match items (storage p) !! STORAGE_KEY with
                 | Some s => if truthy_str s && truthy (get_property ICONS s) then s else DEFAULT
                 | None => DEFAULT
                 end
               else DEFAULT)
          ∧ dataTheme (page w)
            = (if str_eqb (currentTheme (this w)) dark then Some dark else None)
      end.
Proof.
  unfold new, init. unfold mbind, M_bind, bind, get. cbn [page this].
  destruct (toggleControl p) eqn:Hc.
  - unfold modify at 1.
    set (w1 := with_this _ _).
    destruct (loadSavedTheme_spec w1) as (th & -> & Ht).
    unfold apply, modify. eexists. split; [reflexivity|].
    cbn [page this with_page with_this with_currentTheme storage toggleControl
         clickListeners dataTheme currentTheme button].
    subst w1. cbn [page this with_page with_this storage] in Ht.
    rewrite <- Ht. split_and!; done.
  - eexists. split; [reflexivity|]. done.
Qed.

End ThemeFacts.

(* ------------------------------------------------------------------ *)
(** ** Proofs: field validation *)
(* ------------------------------------------------------------------ *)

Section FieldFacts.
Import Form.

Lemma get_set_field_eq fn f st : get_field fn (set_field fn f st) = f.
Proof. by destruct fn. Qed.

Lemma get_set_field_ne fn g f st :
  g ≠ fn → get_field g (set_field fn f st) = get_field g st.
Proof. by destruct fn, g. Qed.

Lemma same_but_fields_refl st : same_but_fields st st.
Proof. by destruct st. Qed.

Lemma same_but_fields_trans st1 st2 st3 :
  same_but_fields st1 st2 → same_but_fields st2 st3 → same_but_fields st1 st3.
Proof.
  unfold same_but_fields. intros H12 H23. rewrite H23, H12.
  by destruct st1.
Qed.

Lemma same_but_fields_set fn f st : same_but_fields st (set_field fn f st).
Proof. by destruct st, fn. Qed.

(** Without its input element a field is rejected at once, and
    nothing at all is written. *)
Lemma validateField_absent fn st :
  element (get_field fn st) = None → validateField fn st = Ret false st.
Proof.
  intros H. unfold validateField. unfold_monad. by rewrite H.
Qed.

Lemma set_set_field fn f1 f2 st :
  set_field fn f2 (set_field fn f1 st) = set_field fn f2 st.
Proof. by destruct fn. Qed.

Lemma set_get_field fn st : set_field fn (get_field fn st) st = st.
Proof. by destruct st as [? [] ], fn. Qed.

Lemma clearFieldError_present fn st el :
  element (get_field fn st) = Some el →
  ∃ f', clearFieldError fn st = Ret tt (set_field fn f' st)
        ∧ isValid f' = isValid (get_field fn st)
        ∧ value f' = value (get_field fn st)
        ∧ errorElement f'
          = (λ _, {| err_textContent := []; err_display := js "none" |})
              <$> errorElement (get_field fn st)
        ∧ keeps_input el f'.
Proof.
  intros H. unfold clearFieldError, keeps_input. rewrite H.
  destruct (errorElement (get_field fn st)) eqn:He.
  - eexists. split; [reflexivity|]. simpl. eauto 10.
  - exists (get_field fn st). rewrite set_get_field, H, He. eauto 10.
Qed.

Lemma reject_present fn msg st el :
  element (get_field fn st) = Some el →
  ∃ f', reject fn msg st = Ret false (set_field fn f' st)
        ∧ isValid f' = false
        ∧ value f' = value (get_field fn st)
        ∧ errorElement f'
          = (λ _, {| err_textContent := msg; err_display := js "block" |})
              <$> errorElement (get_field fn st)
        ∧ keeps_input el f'.
Proof.
  intros H. unfold reject, set_isValid, showFieldError, keeps_input.
  unfold_monad. rewrite H.
  destruct (errorElement (get_field fn st)) eqn:He.
  - rewrite get_set_field_eq, set_set_field.
    eexists. split; [reflexivity|]. simpl. eauto 10.
  - eexists. split; [reflexivity|]. simpl. rewrite H, He. eauto 10.
Qed.

(** With its input element a field is decided by [field_ok] on the
    trimmed value; only the entry of that field is written. *)
Lemma validateField_present fn st el :
  element (get_field fn st) = Some el →
  let v := trim (el_value el) in
  ∃ f', validateField fn st = Ret (field_ok fn v) (set_field fn f' st)
        ∧ isValid f' = field_ok fn v
        ∧ value f' = v
        ∧ errorElement f'
          = (λ _, error_display fn v) <$> errorElement (get_field fn st)
        ∧ keeps_input el f'.
Proof.
  intros H v. unfold validateField. unfold_monad. rewrite H. fold v.
  set (st1 := set_field fn (with_value v (get_field fn st)) st).
  assert (H1 : element (get_field fn st1) = Some el).
  { unfold st1. by rewrite get_set_field_eq. }
  destruct (clearFieldError_present fn st1 el H1)
    as (f2 & -> & Hv2 & Hx2 & Hee2 & el2 & He2 & Hk2).
  set (st2 := set_field fn f2 st1).
  assert (H2 : element (get_field fn st2) = Some el2).
  { unfold st2. by rewrite get_set_field_eq. }
  assert (Hval2 : value (get_field fn st2) = v).
  { unfold st2. rewrite get_set_field_eq, Hx2. unfold st1.
    by rewrite get_set_field_eq. }
  assert (Hee : errorElement (get_field fn st2)
                = (λ _, {| err_textContent := []; err_display := js "none" |})
                    <$> errorElement (get_field fn st)).
  { unfold st2. rewrite get_set_field_eq, Hee2. unfold st1.
    by rewrite get_set_field_eq. }
  assert (Hrej : ∀ msg, ∃ f',
             reject fn msg st2 = Ret false (set_field fn f' st)
             ∧ isValid f' = false ∧ value f' = v
             ∧ errorElement f'
               = (λ _, {| err_textContent := msg; err_display := js "block" |})
                   <$> errorElement (get_field fn st)
             ∧ keeps_input el f').
  { intros msg.
    destruct (reject_present fn msg st2 el2 H2) as (f3 & -> & ? & ? & E3 & el3 & ? & ?).
    exists f3. unfold st2, st1. rewrite !set_set_field.
    split_and!; auto; try congruence.
    - rewrite E3, Hee. by destruct (errorElement (get_field fn st)).
    - exists el3. split; congruence. }
  assert (Hacc : ∃ f',
             Ret (S := FormValidator) true
               (set_field fn (with_isValid true (get_field fn st2)) st2)
             = Ret true (set_field fn f' st)
             ∧ isValid f' = true ∧ value f' = v
             ∧ errorElement f'
               = (λ _, {| err_textContent := []; err_display := js "none" |})
                   <$> errorElement (get_field fn st)
             ∧ keeps_input el f').
  { eexists. unfold st2 at 2, st1. rewrite !set_set_field.
    split; [reflexivity|]. simpl. split_and!; auto.
    exists el2. by split. }
  unfold error_display, field_ok.
  destruct (truthy_str v); simpl; [|apply Hrej].
  destruct fn; simpl.
  - destruct (length v <? 2)%nat; simpl; [apply Hrej|apply Hacc].
  - destruct (isValidEmail v); simpl; [apply Hacc|apply Hrej].
  - destruct (length v <? 10)%nat; simpl; [apply Hrej|apply Hacc].
Qed.

Lemma field_post_proper fn a a' b b' :
  get_field fn a = get_field fn a' → get_field fn b = get_field fn b' →
  field_post fn a b → field_post fn a' b'.
Proof. unfold field_post. by intros -> ->. Qed.

Lemma fails_proper fn a a' :
  get_field fn a = get_field fn a' → fails fn a = fails fn a'.
Proof. unfold fails. by intros ->. Qed.

(** One run of [validateField], input present or not: it returns,
    writes only the entry of its field, and says whether it passed. *)
Lemma validateField_step fn st :
  ∃ st', validateField fn st = Ret (negb (fails fn st)) st'
         ∧ same_but_fields st st'
         ∧ (∀ g, g ≠ fn → get_field g st' = get_field g st)
         ∧ field_post fn st st'.
Proof.
  unfold fails, field_post.
  destruct (element (get_field fn st)) as [el|] eqn:H.
  - destruct (validateField_present fn st el H) as (f' & -> & Hv & Hx & Hk).
    rewrite negb_involutive. eexists. split; [reflexivity|].
    split; [apply same_but_fields_set|].
    split; [intros g Hg; by apply get_set_field_ne|].
    by rewrite get_set_field_eq.
  - rewrite validateField_absent by done. exists st.
    split_and!; auto using same_but_fields_refl.
Qed.

(** [validateAllFields] runs the three validations in declared order
    and passes exactly when no field fails. *)
Lemma validateAllFields_spec st :
  ∃ st', validateAllFields st
         = Ret (forallb (λ fn, negb (fails fn st)) fieldNames) st'
         ∧ same_but_fields st st'
         ∧ ∀ fn, field_post fn st st'.
Proof.
  unfold validateAllFields, fieldNames. simpl.
  destruct (validateField_step name st) as (s1 & E1 & F1 & O1 & P1).
  destruct (validateField_step email s1) as (s2 & E2 & F2 & O2 & P2).
  destruct (validateField_step message s2) as (s3 & E3 & F3 & O3 & P3).
  rewrite (bind_Ret _ _ _ _ _ E1), (bind_Ret _ _ _ _ _ E2), (bind_Ret _ _ _ _ _ E3).
  exists s3. split.
  - unfold_monad. f_equal.
    rewrite (fails_proper email s1 st), (fails_proper message s2 st).
    + by destruct (fails name st), (fails email st), (fails message st).
    + rewrite O2 by done. by apply O1.
    + by apply O1.
  - split; [eauto using same_but_fields_trans|].
    intros [].
    + eapply field_post_proper; [reflexivity| |exact P1].
      rewrite O3 by done. by rewrite O2.
    + eapply field_post_proper; [by apply O1| |exact P2]. by rewrite O3.
    + eapply field_post_proper; [|reflexivity|exact P3].
      rewrite O2 by done. by apply O1.
Qed.

Lemma same_but_fields_frame st st' :
  same_but_fields st st' →
  form st' = form st ∧ submitButton st' = submitButton st
  ∧ isSubmitting st' = isSubmitting st ∧ successModal st' = successModal st
  ∧ modalClose st' = modalClose st ∧ listeners st' = listeners st
  ∧ timers st' = timers st ∧ activeElement st' = activeElement st.
Proof. unfold same_but_fields. intros ->. by destruct st. Qed.

Lemma first_failing_None st :
  first_failing st = None ↔ forallb (λ fn, negb (fails fn st)) fieldNames = true.
Proof.
  unfold first_failing, fieldNames. simpl.
  destruct (fails name st), (fails email st), (fails message st); simpl;
    split; congruence.
Qed.

Lemma first_failing_Some st f :
  first_failing st = Some f →
  forallb (λ fn, negb (fails fn st)) fieldNames = false.
Proof.
  intros H. destruct (forallb _ _) eqn:E; [|done].
  apply first_failing_None in E. congruence.
Qed.

(** A submit while a submission is in flight changes nothing. *)
Lemma handleSubmit_in_flight e st :
  isSubmitting st = true → handleSubmit e st = Ret (preventDefault e) st.
Proof. intros H. unfold handleSubmit. unfold_monad. by rewrite H. Qed.

Lemma handleSubmit_idle e st :
  isSubmitting st = false →
  ∃ st1, validateAllFields st
         = Ret (forallb (λ fn, negb (fails fn st)) fieldNames) st1
    ∧ same_but_fields st st1
    ∧ (∀ fn, field_post fn st st1)
    ∧ handleSubmit e st
      = if forallb (λ fn, negb (fails fn st)) fieldNames
        then (simulateFormSubmission_begin ≫= λ _, mret (preventDefault e)) st1
        else (focusFirstError ≫= λ _, mret (preventDefault e)) st1.
Proof.
  intros H. destruct (validateAllFields_spec st) as (st1 & E & F & P).
  exists st1. split_and!; auto.
  unfold handleSubmit. unfold_monad. rewrite H, E.
  by destruct (forallb _ _).
Qed.

(** After validation the fields not marked valid are the failing ones. *)
Lemma marked_after_validation st st1 fn :
  absent_unmarked st → field_post fn st st1 →
  negb (isValid (get_field fn st1)) = fails fn st.
Proof.
  intros Hw. unfold field_post, fails.
  destruct (element (get_field fn st)) eqn:He.
  - by intros (-> & _).
  - intros ->. by rewrite (Hw fn He).
Qed.

Lemma element_after_validation st st1 fn :
  field_post fn st st1 →
  is_Some (element (get_field fn st1)) ↔ is_Some (element (get_field fn st)).
Proof.
  unfold field_post. destruct (element (get_field fn st)) eqn:He.
  - intros (_ & _ & _ & el' & -> & _). split; eauto.
  - intros ->. by rewrite He.
Qed.

Lemma handleSubmit_invalid e st f :
  isSubmitting st = false → absent_unmarked st → first_failing st = Some f →
  ∃ st', handleSubmit e st = Ret (preventDefault e) st'
    ∧ isSubmitting st' = false
    ∧ timers st' = timers st
    ∧ submitButton st' = submitButton st
    ∧ activeElement st'
      = match element (get_field f st) with
        | Some _ => Some (FocusField f)
        | None => activeElement st
        end.
Proof.
  intros Hs Hw Hf.
  destruct (handleSubmit_idle e st Hs) as (st1 & _ & F & P & ->).
  rewrite (first_failing_Some _ _ Hf).
  apply same_but_fields_frame in F as (_ & Fb & Fs & _ & _ & _ & Ft & Fa).
  unfold focusFirstError. unfold_monad.
  assert (Hfind : find (λ fn, negb (isValid (get_field fn st1))) fieldNames = Some f).
  { rewrite <- Hf. unfold first_failing, fieldNames. cbn [List.find].
    by rewrite !(marked_after_validation st st1) by auto. }
  rewrite Hfind.
  pose proof (element_after_validation st st1 f (P f)) as Hel.
  destruct (element (get_field f st1)) eqn:E1, (element (get_field f st)) eqn:E0.
  - eexists. split; [reflexivity|]. simpl. by rewrite Fs, Hs, Ft, Fb.
  - exfalso. apply (is_Some_None (A := InputEl)). apply Hel. eauto.
  - exfalso. apply (is_Some_None (A := InputEl)). apply Hel. eauto.
  - eexists. split; [reflexivity|]. by rewrite Fs, Hs, Ft, Fb, Fa.
Qed.

Lemma handleSubmit_valid e st :
  isSubmitting st = false → first_failing st = None →
  ∃ st', handleSubmit e st = Ret (preventDefault e) st'
    ∧ isSubmitting st' = true
    ∧ timers st' = timers st ++ [{| delay := 1500; callback := ResolveLatency |}].
Proof.
  intros Hs Hf.
  destruct (handleSubmit_idle e st Hs) as (st1 & _ & F & P & ->).
  apply first_failing_None in Hf. rewrite Hf.
  apply same_but_fields_frame in F as (_ & Fb & Fs & _ & _ & _ & Ft & Fa).
  unfold simulateFormSubmission_begin, setSubmitButtonState. unfold_monad.
  eexists. split; [reflexivity|].
  simpl. clear Fb. destruct (submitButton st1); simpl; by rewrite Ft.
Qed.

Lemma absent_unmarked_new p : absent_unmarked (new p).
Proof.
  intros fn. unfold new. destruct (page_form p) as [d|]; by destruct fn.
Qed.

End FieldFacts.

(* ------------------------------------------------------------------ *)
(** ** Proofs: the submission routine *)
(* ------------------------------------------------------------------ *)

Section SubmissionFacts.
Import Form.

Lemma cleanup_final s :
  let s' := final ((modify (with_isSubmitting false) ≫= λ _, setSubmitButtonState false) s) in
  isSubmitting s' = false ∧ submit_enabled s'.
Proof.
  unfold setSubmitButtonState, submit_enabled. unfold_monad. simpl.
  destruct (submitButton s) eqn:E; simpl; rewrite ?E; split; try done.
  intros b [= <-]. done.
Qed.

(** Whatever happens in the [try] and [catch] blocks, the routine
    ends with the flag cleared and the submit control enabled. *)
Lemma resume_cleanup l st :
  isSubmitting (final (simulateFormSubmission_resume l st)) = false
  ∧ submit_enabled (final (simulateFormSubmission_resume l st)).
Proof.
  unfold simulateFormSubmission_resume.
  apply (finally_final _ _ (λ s, isSubmitting s = false ∧ submit_enabled s)).
  apply cleanup_final.
Qed.

Lemma resume_rejected st fo :
  form st = Some fo →
  ∃ st', simulateFormSubmission_resume Rejected st = Ret tt st'
    ∧ error_shown st'
    ∧ successModal st' = successModal st
    ∧ successElement <$> form st' = Some (successElement fo)
    ∧ fields st' = fields st
    ∧ timers st' = timers st ++ [{| delay := 5000; callback := HideError |}].
Proof.
  intros H. unfold simulateFormSubmission_resume, showErrorMessage, await,
    setSubmitButtonState, error_shown.
  unfold_monad. rewrite H. simpl.
  eexists. split; [reflexivity|].
  destruct (submitButton st); simpl; split_and!; eauto 10.
Qed.

Lemma showSuccessMessage_ok st fo :
  form st = Some fo →
  ∃ st', showSuccessMessage st = Ret tt st'
    ∧ success_shown st'
    ∧ fields st' = fields st
    ∧ submitButton st' = submitButton st
    ∧ formErrorElement <$> form st' = Some (formErrorElement fo).
Proof.
  intros H. unfold showSuccessMessage, success_shown.
  destruct (successModal st) as [m|] eqn:Hm.
  - destruct (modalClose st); (eexists; split; [reflexivity|]); cbn; rewrite H;
      (split; [left; eexists; split; reflexivity|done]).
  - rewrite H. eexists; split; [reflexivity|]. cbn.
    split; [right; do 2 eexists; split_and!; reflexivity|done].
Qed.

Lemma clearFieldError_same fn st st' :
  clearFieldError fn st = Ret tt st' →
  same_but_fields st st'
  ∧ (∀ g, value (get_field g st') = value (get_field g st)
          ∧ isValid (get_field g st') = isValid (get_field g st)
          ∧ el_value <$> element (get_field g st') = el_value <$> element (get_field g st)).
Proof.
  unfold clearFieldError.
  destruct (errorElement (get_field fn st)) eqn:He; [|intros [= <-]; split; [apply same_but_fields_refl|done] ].
  destruct (element (get_field fn st)) eqn:Hel; [|done].
  intros [= <-]. split; [apply same_but_fields_set|].
  intros g. destruct (decide (g = fn)) as [->|Hne].
  - rewrite get_set_field_eq. cbn. by rewrite Hel.
  - by rewrite get_set_field_ne.
Qed.

Lemma clearFieldError_returns fn st :
  is_Some (element (get_field fn st)) → ∃ st', clearFieldError fn st = Ret tt st'.
Proof.
  intros [el H]. destruct (clearFieldError_present fn st el H) as (f & -> & _). eauto.
Qed.

Lemma clearEntry_same fn st : same_but_fields st (clearEntry fn st).
Proof.
  unfold clearEntry. destruct (element (get_field fn st));
    [apply same_but_fields_set|apply same_but_fields_refl].
Qed.

Lemma clearEntry_other fn g st :
  g ≠ fn → get_field g (clearEntry fn st) = get_field g st.
Proof.
  intros Hne. unfold clearEntry. destruct (element (get_field fn st)); [|done].
  by rewrite get_set_field_ne.
Qed.

Lemma clearEntry_self fn st :
  is_Some (element (get_field fn st)) →
  value (get_field fn (clearEntry fn st)) = []
  ∧ isValid (get_field fn (clearEntry fn st)) = false
  ∧ el_value <$> element (get_field fn (clearEntry fn st)) = Some [].
Proof.
  intros [el H]. unfold clearEntry. rewrite H, get_set_field_eq. done.
Qed.

Lemma clearEntries_cleared st :
  (∀ fn, is_Some (element (get_field fn st))) →
  cleared (clearEntry message (clearEntry email (clearEntry name st))).
Proof.
  intros Hel fn. destruct fn.
  - rewrite !clearEntry_other by done. by apply clearEntry_self.
  - rewrite clearEntry_other by done. apply clearEntry_self.
    by rewrite clearEntry_other.
  - apply clearEntry_self. by rewrite !clearEntry_other.
Qed.

Lemma clearFieldError_cleared fn st :
  cleared st → ∃ st', clearFieldError fn st = Ret tt st'
                      ∧ same_but_fields st st' ∧ cleared st'.
Proof.
  intros Hc.
  destruct (clearFieldError_returns fn st) as [st' E].
  { destruct (Hc fn) as (_ & _ & H). destruct (element (get_field fn st)); [eauto|done]. }
  exists st'. destruct (clearFieldError_same fn st st' E) as [Hs Hg].
  split_and!; auto. intros g. destruct (Hg g) as (-> & -> & ->). apply Hc.
Qed.

Lemma clearForm_ok st :
  (∀ fn, is_Some (element (get_field fn st))) →
  ∃ st', clearForm st = Ret tt st' ∧ same_but_fields st st' ∧ cleared st'.
Proof.
  intros Hel. unfold clearForm, clearAllErrors, fieldNames. cbn [forEach].
  set (st1 := clearEntry message (clearEntry email (clearEntry name st))).
  assert (S1 : same_but_fields st st1).
  { unfold st1. eauto using same_but_fields_trans, clearEntry_same. }
  pose proof (clearEntries_cleared st Hel) as C1. fold st1 in C1.
  destruct (clearFieldError_cleared name st1 C1) as (s2 & E2 & S2 & C2).
  destruct (clearFieldError_cleared email s2 C2) as (s3 & E3 & S3 & C3).
  destruct (clearFieldError_cleared message s3 C3) as (s4 & E4 & S4 & C4).
  exists s4. split; [|eauto using same_but_fields_trans].
  unfold_monad. fold st1. by rewrite E2, E3, E4.
Qed.

Lemma success_shown_frame a b :
  successModal b = successModal a → form b = form a →
  success_shown a → success_shown b.
Proof. unfold success_shown. by intros -> ->. Qed.

Lemma resume_resolved st fo :
  form st = Some fo →
  (∀ fn, is_Some (element (get_field fn st))) →
  ∃ st', simulateFormSubmission_resume Resolved st = Ret tt st'
    ∧ success_shown st'
    ∧ formErrorElement <$> form st' = Some (formErrorElement fo)
    ∧ cleared st'.
Proof.
  intros H Hel.
  destruct (showSuccessMessage_ok st fo H) as (s1 & E1 & Sh & Hf & Hb & He).
  destruct (clearForm_ok s1) as (s2 & E2 & S2 & C2).
  { intros fn. specialize (Hel fn). destruct fn; unfold get_field in *; by rewrite Hf. }
  unfold simulateFormSubmission_resume, await, setSubmitButtonState.
  unfold_monad. rewrite E1, E2. cbn.
  pose proof (same_but_fields_frame _ _ S2) as (Ff & Fb & _ & Fm & _).
  eexists. split; [reflexivity|].
  destruct (submitButton s2); cbn.
  all: split_and!; [ | by rewrite Ff | exact C2 ].
  all: by apply (success_shown_frame s1).
Qed.

End SubmissionFacts.

(* ------------------------------------------------------------------ *)
(** ** Proofs: navigation and the coordinator *)
(* ------------------------------------------------------------------ *)

Section EngineFacts.
Import Nav.

Lemma plainChar_spec c :
  plainChar c = true →
  (c =? 0) = false ∧ (c =? 0x0A) = false ∧ (c =? 0x0C) = false ∧ (c =? 0x0D) = false
  ∧ (c =? 0x22) = false ∧ (c =? 0x5C) = false
  ∧ isHighSurrogate c = false ∧ isLowSurrogate c = false.
Proof.
  unfold plainChar. rewrite negb_true_iff, !orb_false_iff. tauto.
Qed.

Lemma filterCodePoints_plain l rest :
  Forall (λ c, plainChar c = true) l →
  filterCodePoints (l ++ rest) = l ++ filterCodePoints rest.
Proof.
  induction 1 as [|c l Hc _ IH]; [done|].
  apply plainChar_spec in Hc as (H0 & _ & Hff & Hcr & _ & _ & Hh & Hl).
  cbn [app filterCodePoints]. rewrite H0, Hff, Hcr, Hh, Hl. by rewrite IH.
Qed.

Lemma consumeString_plain l : ∀ acc rest,
  Forall (λ c, plainChar c = true) l →
  consumeString InString acc (l ++ rest) = consumeString InString (acc ++ l) rest.
Proof.
  induction l as [|c l IH]; intros acc rest Hl.
  - by rewrite app_nil_r.
  - apply Forall_cons in Hl as [Hc Hl].
    apply plainChar_spec in Hc as (_ & Hlf & _ & _ & Hq & Hb & _).
    cbn [app consumeString]. rewrite Hq, Hlf, Hb, IH by done.
    by rewrite <- app_assoc.
Qed.

(** On an identifier of plain characters the engine finds the first
    anchor whose [href] is [#] followed by the identifier. *)
Lemma plainEngine_plain id l :
  Forall (λ c, plainChar c = true) id →
  plainEngine (activeLinkSelector id) l = findHref (0x23 :: id) 0 l.
Proof.
  intros Hid. unfold plainEngine.
  change (drop 8 (activeLinkSelector id)) with ((0x23 :: id) ++ [0x22; 0x5D]).
  rewrite filterCodePoints_plain by (constructor; [reflexivity|done]).
  rewrite consumeString_plain by (constructor; [reflexivity|done]).
  reflexivity.
Qed.
End EngineFacts.

Section NavFacts.
Import Nav.
Variable querySelector : list N → list Anchor → QueryResult.

Lemma removeActive_fst i l :
  (removeActive i l).1 = (λ a, if isNavLink a then set_active false a else a) <$> l.
Proof.
  revert i. induction l as [|a l IH]; intros i; [done|].
  cbn [removeActive fmap list_fmap]. specialize (IH (S i)).
  destruct (removeActive (S i) l) as [r w]. cbn [fst] in IH.
  destruct (isNavLink a); cbn [fst]; by rewrite IH.
Qed.

Lemma removeActive_snd i l :
  (removeActive i l).2
  = ClassRemove <$> omap id (imap (λ j a, if isNavLink a then Some (i + j)%nat else None) l).
Proof.
  revert i. induction l as [|a l IH]; intros i; [done|].
  cbn [removeActive]. specialize (IH (S i)).
  destruct (removeActive (S i) l) as [r w]. cbn [snd] in IH.
  rewrite imap_cons. cbn [omap list_omap].
  rewrite (imap_ext _ (λ j a, if isNavLink a then Some (S i + j)%nat else None) l).
  2: { intros j x _. cbn. destruct (isNavLink x); [f_equal; lia|done]. }
  rewrite Nat.add_0_r.
  destruct (isNavLink a); cbn [snd id fmap list_fmap]; by rewrite IH.
Qed.

(** What a call for another section than the current one does: the
    section becomes current, one round of class writes is made, and
    the call returns unless the selector is refused. *)
Lemma setActiveSection_other s st :
  currentSection st ≠ s →
  let found := querySelector (activeLinkSelector s) (unmarked (anchors st)) in
  let out := setActiveSection querySelector s st in
  match found with
  | BadSelector => out = Throw SyntaxError (final out)
  | _ => out = Ret tt (final out)
  end
  ∧ currentSection (final out) = s
  ∧ writes (final out) = writes st ++ activation_writes found (anchors st)
  ∧ anchors (final out)
    = match found with
      | Found i => alter (set_active true) i (unmarked (anchors st))
      | _ => unmarked (anchors st)
      end.
Proof.
  intros Hne found out. subst found out. unfold setActiveSection.
  destruct (str_eqb (currentSection st) s) eqn:E; [by apply str_eqb_eq in E|].
  pose proof (removeActive_fst 0 (anchors st)) as Hfst.
  pose proof (removeActive_snd 0 (anchors st)) as Hsnd.
  destruct (removeActive 0 (anchors st)) as [cleared w]. cbn [fst snd] in Hfst, Hsnd.
  fold (unmarked (anchors st)) in Hfst. subst cleared.
  assert (Hw : w = ClassRemove <$> nav_link_indices (anchors st)) by exact Hsnd.
  unfold activation_writes. rewrite <- Hw.
  destruct (querySelector (activeLinkSelector s) (unmarked (anchors st)));
    cbn [final currentSection writes anchors]; rewrite ?app_nil_r; done.
Qed.

(** The anchors after marking the found one, one by one: each keeps
    its [href] and its kind; the found one is active, the other
    navigation links are not, and the remaining anchors are as
    before. *)
Lemma marked_lookup (found : QueryResult) (l : list Anchor) j a :
  match found with
  | Found i => alter (set_active true) i (unmarked l)
  | _ => unmarked l
  end !! j = Some a →
  ∃ a0, l !! j = Some a0 ∧ href a = href a0 ∧ isNavLink a = isNavLink a0
        ∧ active a = if bool_decide (found = Found j) then true
                     else if isNavLink a0 then false else active a0.
Proof.
  assert (Hun : ∀ a', unmarked l !! j = Some a' →
            ∃ a0, l !! j = Some a0 ∧ href a' = href a0 ∧ isNavLink a' = isNavLink a0
                  ∧ active a' = if isNavLink a0 then false else active a0).
  { intros a'. unfold unmarked. rewrite list_lookup_fmap.
    destruct (l !! j) as [a0|]; [|done]. cbn. intros [= <-]. exists a0.
    destruct (isNavLink a0) eqn:Ea; cbn; rewrite ?Ea; done. }
  destruct found as [i| |].
  - destruct (decide (j = i)) as [->|Hji].
    + rewrite list_lookup_alter_eq. destruct (unmarked l !! i) as [a'|] eqn:Ha; [|done].
      cbn. intros [= <-]. destruct (Hun a' eq_refl) as (a0 & ? & ? & ? & _).
      exists a0. by rewrite bool_decide_eq_true_2.
    + rewrite list_lookup_alter_ne by done. intros Ha.
      destruct (Hun a Ha) as (a0 & ? & ? & ? & ?). exists a0.
      rewrite bool_decide_eq_false_2 by congruence. done.
  - intros Ha. destruct (Hun a Ha) as (a0 & ? & ? & ? & ?). exists a0.
    by rewrite bool_decide_eq_false_2.
  - intros Ha. destruct (Hun a Ha) as (a0 & ? & ? & ? & ?). exists a0.
    by rewrite bool_decide_eq_false_2.
Qed.

Lemma setActiveSection_same st :
  setActiveSection querySelector (currentSection st) st = Ret tt st.
Proof. unfold setActiveSection. by rewrite str_eqb_refl. Qed.

(** Whether it returns or raises, [setActiveSection] leaves the
    section it was given as the current one. *)
Lemma setActiveSection_current s st :
  currentSection (final (setActiveSection querySelector s st)) = s.
Proof.
  unfold setActiveSection.
  destruct (str_eqb (currentSection st) s) eqn:E.
  - by apply str_eqb_eq in E.
  - destruct (removeActive 0 (anchors st)) as [cleared w].
    by destruct (querySelector _ cleared).
Qed.

(** Reports that all name the current section change nothing. *)
Lemma observerCallback_current entries st :
  Forall (λ e, target_id e = currentSection st) entries →
  observerCallback querySelector entries st = Ret tt st.
Proof.
  unfold observerCallback. induction 1 as [|e entries He _ IH]; [done|].
  cbn [forEach]. unfold mbind, M_bind, bind.
  destruct (isIntersecting e).
  - by rewrite He, setActiveSection_same.
  - done.
Qed.

Lemma observerCallback_same_section s entries st :
  Forall (λ e, target_id e = s) entries →
  observerCallback querySelector entries st
  = if existsb isIntersecting entries
    then setActiveSection querySelector s st
    else Ret tt st.
Proof.
  unfold observerCallback. induction 1 as [|e entries He Hall IH]; [done|].
  cbn [forEach existsb]. unfold mbind, M_bind, bind.
  destruct (isIntersecting e); cbn [orb].
  - rewrite He.
    pose proof (setActiveSection_current s st) as Hcur.
    destruct (setActiveSection querySelector s st) as [[] st1|ex st1]; [|done].
    cbn [final] in Hcur.
    apply (observerCallback_current entries st1). by rewrite Hcur.
  - exact IH.
Qed.
End NavFacts.

Section AppFacts.
Import App.

(** The class has no method [toggleTheme]. *)
Lemma no_toggleTheme_method : Theme.method_named (js "toggleTheme") = None.
Proof. reflexivity. Qed.

Lemma lookup_toggleTheme_fresh i :
  lookup (js "toggleTheme") {| instance := i; toggleTheme := None |} = None.
Proof. reflexivity. Qed.

Lemma lookup_toggle t : lookup (js "toggle") t = Some (Method Theme.m_toggle).
Proof. reflexivity. Qed.

Lemma new_spec_app p :
  ∃ w, Theme.new (page_theme p) = Ret tt w ∧ new p = Ret tt (after_new p w).
Proof.
  destruct (new_spec (page_theme p)) as (w & E & _).
  exists w. split; [done|].
  unfold new, init, initializeComponents, setupGlobalEventListeners,
    setupComponentIntegration, handleInitializationError, set_isInitialized.
  unfold try_catch, mbind, M_bind, bind, modify, get, throw.
  cbn [themePage]. rewrite E.
  cbn [themeManager navigationManager]. rewrite lookup_toggleTheme_fresh.
  reflexivity.
Qed.

Lemma onTheme_toggle app t :
  themeManager app = Some t →
  ∃ w', Theme.toggle {| Theme.this := instance t; Theme.page := themePage app |} = Ret tt w'
    ∧ onTheme Theme.toggle app
      = Ret tt (with_themeManager
                  (Some {| instance := Theme.this w'; toggleTheme := toggleTheme t |})
                  (Theme.page w') app)
    ∧ Theme.currentTheme (Theme.this w') ≠ Theme.currentTheme (instance t).
Proof.
  intros Ht. unfold onTheme. rewrite Ht.
  set (w := {| Theme.this := instance t; Theme.page := themePage app |}).
  destruct (toggle_spec w) as (E & Hen & Hne).
  destruct (set_enumerated _ w Hen) as (w' & E' & Hc & _).
  exists w'. rewrite E, E'. split_and!; try done. by rewrite Hc.
Qed.
End AppFacts.

(* ------------------------------------------------------------------ *)
(** ** FormValidator: the properties *)
(* ------------------------------------------------------------------ *)

(** C3. While a submission is in flight ([isSubmitting] is true) a
    submit on the form only cancels the event's default action: the
    validator and the page are left exactly as they were, so no field is
    validated, the submitting state is not entered again and no second
    latency timer is started. *)
Theorem submit_in_flight_is_noop (e : Form.Event) (st : Form.FormValidator) :
  Form.isSubmitting st = true →
  Form.handleSubmit e st = Ret (Form.preventDefault e) st.
Proof. apply handleSubmit_in_flight. Qed.

Lemma submit_in_flight_is_noop_witness :
  Form.isSubmitting Examples.inFlight = true
  ∧ Form.handleSubmit Examples.submitEvent Examples.inFlight
    = Ret (Form.preventDefault Examples.submitEvent) Examples.inFlight.
Proof.
  split; [reflexivity|].
  apply (submit_in_flight_is_noop Examples.submitEvent Examples.inFlight).
  reflexivity.
Defined.

Lemma simulateFormSubmission_resumes l st :
  ∃ st1, Form.simulateFormSubmission l st = Form.simulateFormSubmission_resume l st1
         ∧ Form.form st1 = Form.form st
         ∧ Form.successModal st1 = Form.successModal st
         ∧ Form.fields st1 = Form.fields st.
Proof.
  unfold Form.simulateFormSubmission, Form.simulateFormSubmission_begin,
    Form.timer_fires, Form.setSubmitButtonState.
  unfold mbind, M_bind, bind, modify. cbn.
  eexists. split; [reflexivity|].
  destruct (Form.submitButton st); done.
Qed.

(** C4. Every exit of the simulated submission routine, whether the
    awaited latency resolves or fails and whether the routine returns or
    raises, leaves [isSubmitting] false and the submit control enabled;
    this holds from the state the routine itself set up and from any
    state reached during the wait.  When the latency fails on a
    validator that has its form, the routine returns normally with the
    generic error message showing, and the success indicator is left as
    it was (not showing, if it was not showing before). *)
Theorem submission_always_cleans_up (l : Form.Latency) (st : Form.FormValidator) :
  (Form.isSubmitting (final (Form.simulateFormSubmission_resume l st)) = false
   ∧ submit_enabled (final (Form.simulateFormSubmission_resume l st)))
  ∧ (Form.isSubmitting (final (Form.simulateFormSubmission l st)) = false
     ∧ submit_enabled (final (Form.simulateFormSubmission l st)))
  ∧ (l = Form.Rejected → ∀ fo, Form.form st = Some fo →
     ∃ st', Form.simulateFormSubmission_resume l st = Ret tt st'
            ∧ error_shown st'
            ∧ Form.successModal st' = Form.successModal st
            ∧ Form.successElement <$> Form.form st' = Some (Form.successElement fo)
            ∧ (¬ success_shown st → ¬ success_shown st')).
Proof.
  split; [apply resume_cleanup|]. split.
  - destruct (simulateFormSubmission_resumes l st) as (st1 & -> & _).
    apply resume_cleanup.
  - intros -> fo Hfo.
    destruct (resume_rejected st fo Hfo) as (st' & E & Herr & Hm & Hs & _).
    exists st'. split_and!; auto.
    intros Hno [(m & Hm' & Hshow)|(fo' & e & Hf' & He & Hrest)]; apply Hno.
    + left. exists m. by rewrite <- Hm.
    + right. exists fo, e. rewrite Hf' in Hs. simpl in Hs.
      injection Hs as Hs. by rewrite <- Hs.
Qed.

Lemma submission_always_cleans_up_witness :
  Form.form Examples.inFlight
  = Some {| Form.successElement := None; Form.formErrorElement := None |}
  ∧ ∃ st', Form.simulateFormSubmission_resume Form.Rejected Examples.inFlight = Ret tt st'
           ∧ error_shown st'
           ∧ Form.successModal st' = Form.successModal Examples.inFlight
           ∧ Form.successElement <$> Form.form st' = Some None
           ∧ (¬ success_shown Examples.inFlight → ¬ success_shown st').
Proof.
  split; [reflexivity|].
  apply (proj2 (proj2 (submission_always_cleans_up Form.Rejected Examples.inFlight))
           eq_refl {| Form.successElement := None; Form.formErrorElement := None |}).
  reflexivity.
Defined.

(** C5, as the code has it.  On a submit with no submission in flight
    and at least one failing field, no submission is attempted
    ([isSubmitting] stays false, no latency timer is started, the submit
    control is untouched); focus moves to the first failing field in
    declared order (name, email, message) when that field has its input
    element, and stays where it was when that input is missing. *)
Theorem invalid_submit_focuses_first_failing
    (e : Form.Event) (st : Form.FormValidator) (f : Form.FieldName) :
  Form.isSubmitting st = false →
  absent_unmarked st →
  first_failing st = Some f →
  ∃ st', Form.handleSubmit e st = Ret (Form.preventDefault e) st'
    ∧ Form.isSubmitting st' = false
    ∧ Form.timers st' = Form.timers st
    ∧ Form.submitButton st' = Form.submitButton st
    ∧ Form.activeElement st'
      = match Form.element (Form.get_field f st) with
        | Some _ => Some (Form.FocusField f)
        | None => Form.activeElement st
        end.
Proof. apply handleSubmit_invalid. Qed.

Lemma invalid_submit_focuses_first_failing_witness :
  let st := Examples.validator (Some (js "Al")) (Some (js "a@b")) (Some (js "short")) in
  ∃ st', Form.handleSubmit Examples.submitEvent st
         = Ret (Form.preventDefault Examples.submitEvent) st'
    ∧ Form.isSubmitting st' = false
    ∧ Form.timers st' = Form.timers st
    ∧ Form.submitButton st' = Form.submitButton st
    ∧ Form.activeElement st' = Some (Form.FocusField Form.email).
Proof.
  apply (invalid_submit_focuses_first_failing Examples.submitEvent
           (Examples.validator (Some (js "Al")) (Some (js "a@b")) (Some (js "short")))
           Form.email).
  - reflexivity.
  - apply absent_unmarked_new.
  - reflexivity.
Defined.

(** C5 as stated fails: on a page whose name input is missing, the name
    field is the first failing field, yet a submit leaves the focus
    where it was (here on nothing), not on a field. *)
Lemma invalid_submit_focus_counterexample :
  Form.isSubmitting Examples.noNameInput = false
  ∧ first_failing Examples.noNameInput = Some Form.name
  ∧ fails Form.email Examples.noNameInput = true
  ∧ Form.activeElement
      (final (Form.handleSubmit Examples.submitEvent Examples.noNameInput)) = None.
Proof. by vm_compute. Qed.

(** C6. With its input on the page, the email field is marked valid
    exactly when the trimmed value is non-empty and has the shape
    plain+ [@] plain+ [.] plain+, where a plain character is neither
    white space nor [@]; [validateField] returns that verdict.  In
    particular [a@b.co] passes, and [a@b] and [a b@c.com] do not. *)
Theorem email_valid_iff_shape (st : Form.FormValidator) (el : Form.InputEl) :
  Form.element (Form.get_field Form.email st) = Some el →
  ∃ ok st',
    Form.validateField Form.email st = Ret ok st'
    ∧ Form.isValid (Form.get_field Form.email st') = ok
    ∧ (ok = true ↔ trim (Form.el_value el) ≠ []
                   ∧ email_shape (trim (Form.el_value el)))
    ∧ (Form.el_value el = js "a@b.co" → ok = true)
    ∧ (Form.el_value el = js "a@b" → ok = false)
    ∧ (Form.el_value el = js "a b@c.com" → ok = false).
Proof.
  intros H.
  destruct (validateField_present Form.email st el H) as (f' & E & Hv & _).
  eexists _, _. split; [exact E|].
  split; [by rewrite get_set_field_eq|].
  split.
  - unfold field_ok. rewrite andb_true_iff, truthy_str_true, isValidEmail_shape. done.
  - split_and!; intros ->; reflexivity.
Qed.

Lemma email_valid_iff_shape_witness :
  ∃ ok st',
    Form.validateField Form.email Examples.filled = Ret ok st'
    ∧ Form.isValid (Form.get_field Form.email st') = ok
    ∧ (ok = true ↔ trim (js "a@b.co") ≠ [] ∧ email_shape (trim (js "a@b.co")))
    ∧ (js "a@b.co" = js "a@b.co" → ok = true)
    ∧ (js "a@b.co" = js "a@b" → ok = false)
    ∧ (js "a@b.co" = js "a b@c.com" → ok = false).
Proof.
  apply (email_valid_iff_shape Examples.filled (Examples.input (js "a@b.co"))).
  reflexivity.
Defined.

(** C7. With its input on the page, the name field is marked valid
    exactly when its trimmed value has at least 2 characters and the
    message field exactly when it has at least 10, boundaries included.
    The required check comes first: for an empty trimmed value the
    error element shows the required message, and for a non-empty one
    that is too short it shows the message of the length rule. *)
Theorem min_length_inclusive
    (fn : Form.FieldName) (n : nat) (st : Form.FormValidator) (el : Form.InputEl) :
  min_length fn = Some n →
  Form.element (Form.get_field fn st) = Some el →
  ∃ ok st',
    Form.validateField fn st = Ret ok st'
    ∧ Form.isValid (Form.get_field fn st') = ok
    ∧ (ok = true ↔ (n ≤ length (trim (Form.el_value el)))%nat)
    ∧ ∀ ee, Form.errorElement (Form.get_field fn st) = Some ee →
        ∃ ee', Form.errorElement (Form.get_field fn st') = Some ee'
          ∧ (trim (Form.el_value el) = [] →
             Form.err_textContent ee' = Form.msg_required)
          ∧ (trim (Form.el_value el) ≠ [] → ok = false →
             Form.err_textContent ee' = rule_msg fn).
Proof.
  intros Hn H.
  destruct (validateField_present fn st el H) as (f' & E & Hv & _ & Hee & _).
  eexists _, _. split; [exact E|].
  rewrite get_set_field_eq. split; [done|].
  set (v := trim (Form.el_value el)) in *. split.
  - unfold field_ok. destruct fn; simplify_eq/=.
    + destruct v as [|a [|b v]]; simpl; split; intros; try done; try lia.
    + rewrite andb_true_iff, truthy_str_true, negb_true_iff, Nat.ltb_ge.
      split; [tauto|]. intros Hl. split; [|done]. intros ->. simpl in Hl. lia.
  - intros ee Hsome. rewrite Hee, Hsome. simpl. eexists. split; [reflexivity|].
    unfold error_display. split.
    + intros ->. by destruct fn.
    + intros Hne ->. by apply truthy_str_true in Hne as ->.
Qed.

Lemma min_length_inclusive_witness :
  ∃ ok st',
    Form.validateField Form.name Examples.filled = Ret ok st'
    ∧ Form.isValid (Form.get_field Form.name st') = ok
    ∧ (ok = true ↔ (2 ≤ length (trim (js "Al")))%nat)
    ∧ ∀ ee, Some Examples.errorSpan = Some ee →
        ∃ ee', Form.errorElement (Form.get_field Form.name st') = Some ee'
          ∧ (trim (js "Al") = [] → Form.err_textContent ee' = Form.msg_required)
          ∧ (trim (js "Al") ≠ [] → ok = false →
             Form.err_textContent ee' = rule_msg Form.name).
Proof.
  apply (min_length_inclusive Form.name 2 Examples.filled (Examples.input (js "Al")));
    reflexivity.
Defined.

(** C10. A field whose input element is missing from the page makes
    [validateField] return false at once, with the validator and the
    page left exactly as they were (so no error message is shown).  A
    form with such a field never passes [validateAllFields], and a
    submit on it returns without entering the submission: the
    submitting flag, the pending timers and the submit control are as
    before. *)
Theorem absent_input_blocks_submission
    (fn : Form.FieldName) (e : Form.Event) (st : Form.FormValidator) :
  Form.element (Form.get_field fn st) = None →
  Form.validateField fn st = Ret false st
  ∧ (∃ st1, Form.validateAllFields st = Ret false st1)
  ∧ (∃ st', Form.handleSubmit e st = Ret (Form.preventDefault e) st'
            ∧ Form.isSubmitting st' = Form.isSubmitting st
            ∧ Form.timers st' = Form.timers st
            ∧ Form.submitButton st' = Form.submitButton st).
Proof.
  intros H. split; [by apply validateField_absent|].
  assert (Hall : forallb (λ g, negb (fails g st)) Form.fieldNames = false).
  { assert (Hf : fails fn st = true) by (unfold fails; by rewrite H).
    unfold Form.fieldNames. cbn [forallb].
    destruct fn; rewrite Hf; simpl; by rewrite ?andb_false_r. }
  split.
  - destruct (validateAllFields_spec st) as (st1 & E & _). rewrite Hall in E. eauto.
  - destruct (Form.isSubmitting st) eqn:Hs.
    + rewrite handleSubmit_in_flight by done. eauto.
    + destruct (handleSubmit_idle e st Hs) as (st1 & _ & F & _ & ->).
      rewrite Hall.
      apply same_but_fields_frame in F as (_ & Fb & Fs & _ & _ & _ & Ft & _).
      unfold Form.focusFirstError. unfold_monad.
      destruct (find _ _) as [g|];
        [destruct (Form.element (Form.get_field g st1))|];
        (eexists; split; [reflexivity|]); simpl; by rewrite Fs, Ft, Fb.
Qed.

Lemma absent_input_blocks_submission_witness :
  Form.validateField Form.name Examples.noNameInput = Ret false Examples.noNameInput
  ∧ (∃ st1, Form.validateAllFields Examples.noNameInput = Ret false st1)
  ∧ (∃ st', Form.handleSubmit Examples.submitEvent Examples.noNameInput
            = Ret (Form.preventDefault Examples.submitEvent) st'
            ∧ Form.isSubmitting st' = Form.isSubmitting Examples.noNameInput
            ∧ Form.timers st' = Form.timers Examples.noNameInput
            ∧ Form.submitButton st' = Form.submitButton Examples.noNameInput).
Proof.
  apply (absent_input_blocks_submission Form.name Examples.submitEvent Examples.noNameInput).
  reflexivity.
Defined.

(* ------------------------------------------------------------------ *)
(** ** ThemeManager: the properties *)
(* ------------------------------------------------------------------ *)

(** C2, as the code has it.  On a page without the toggle control,
    construction stops at the early return of [init]: it never raises,
    the manager keeps the default theme whatever the storage holds (no
    saved theme is loaded), and the page is exactly as it was (no
    listener attached, no theme applied, storage untouched).  The
    manager is left without its button, and on any manager without its
    button [toggle] is not a no-op: it returns with the theme flipped
    (light to dark, anything else to light), the new theme applied to
    the document and, when the storage takes the write, persisted
    under the storage key.  Only the update of the control is
    skipped. *)
Theorem toggle_without_control_still_switches (p : Theme.Page) (w : Theme.World) :
  Theme.toggleControl p = None →
  Theme.button (Theme.this w) = false →
  Theme.new p
  = Ret tt {| Theme.this := {| Theme.currentTheme := Theme.DEFAULT;
                               Theme.button := false |};
              Theme.page := p |}
  ∧ (let newTheme :=
       if str_eqb (Theme.currentTheme (Theme.this w)) Theme.light
       then Theme.dark else Theme.light in
     ∃ w', Theme.toggle w = Ret tt w'
       ∧ Theme.currentTheme (Theme.this w') = newTheme
       ∧ newTheme ≠ Theme.currentTheme (Theme.this w)
       ∧ Theme.button (Theme.this w') = false
       ∧ Theme.dataTheme (Theme.page w')
         = (if str_eqb newTheme Theme.dark then Some Theme.dark else None)
       ∧ Theme.transitionClass (Theme.page w') = true
       ∧ Theme.items (Theme.storage (Theme.page w'))
         = (if Theme.writable (Theme.storage (Theme.page w))
            then <[Theme.STORAGE_KEY := newTheme]>
                   (Theme.items (Theme.storage (Theme.page w)))
            else Theme.items (Theme.storage (Theme.page w)))
       ∧ Theme.toggleControl (Theme.page w') = Theme.toggleControl (Theme.page w)).
Proof.
  intros Hp Hb. split.
  - destruct (new_spec p) as (w0 & E & _ & _ & Hm). rewrite Hp in Hm. by rewrite E, Hm.
  - intros newTheme.
    destruct (toggle_spec w) as (-> & Hen & Hne). fold newTheme in Hen, Hne |- *.
    destruct (set_enumerated newTheme w Hen)
      as (w' & E & Hc & Hbt & Hd & Ht & _ & _ & Hi & Htc).
    exists w'. rewrite Hb in Hbt, Htc. by split_and!.
Qed.

Lemma toggle_without_control_still_switches_witness :
  let p := Examples.themePage false (Some Theme.light) in
  Theme.new p
  = Ret tt {| Theme.this := {| Theme.currentTheme := Theme.dark; Theme.button := false |};
              Theme.page := p |}
  ∧ ∃ w', Theme.toggle (final (Theme.new p)) = Ret tt w'
    ∧ Theme.currentTheme (Theme.this w') = Theme.light
    ∧ Theme.light ≠ Theme.dark
    ∧ Theme.button (Theme.this w') = false
    ∧ Theme.dataTheme (Theme.page w') = None
    ∧ Theme.transitionClass (Theme.page w') = true
    ∧ Theme.items (Theme.storage (Theme.page w'))
      = <[Theme.STORAGE_KEY := Theme.light]> {[ Theme.STORAGE_KEY := Theme.light ]}
    ∧ Theme.toggleControl (Theme.page w') = None.
Proof.
  apply (toggle_without_control_still_switches
           (Examples.themePage false (Some Theme.light))
           (final (Theme.new (Examples.themePage false (Some Theme.light))))).
  - reflexivity.
  - reflexivity.
Defined.

(** C2 as stated fails: on the manager constructed on a page without
    the control, [toggle] changes the theme from dark to light, marks
    the document with the transition class and stores the new theme. *)
Lemma toggle_without_control_counterexample :
  Theme.button (Theme.this Examples.noControl) = false
  ∧ Theme.currentTheme (Theme.this Examples.noControl) = Theme.dark
  ∧ Theme.currentTheme (Theme.this (final (Theme.toggle Examples.noControl)))
    = Theme.light
  ∧ Theme.transitionClass (Theme.page Examples.noControl) = false
  ∧ Theme.transitionClass (Theme.page (final (Theme.toggle Examples.noControl))) = true
  ∧ Theme.items (Theme.storage (Theme.page Examples.noControl)) !! Theme.STORAGE_KEY = None
  ∧ Theme.items (Theme.storage (Theme.page (final (Theme.toggle Examples.noControl))))
      !! Theme.STORAGE_KEY = Some Theme.light.
Proof. by vm_compute. Qed.

(** C8, where the code departs from it.  The saved value is checked
    with a property read on the icon table, and an object literal
    answers to the names it inherits from [Object.prototype]: when the
    control is on the page and the storage holds one of those names
    (["constructor"], ["toString"], ...), construction takes that name
    as the current theme, although it is neither ["light"] nor
    ["dark"], instead of falling back to the default. *)
Theorem saved_inherited_name_becomes_theme
    (p : Theme.Page) (b : Theme.ToggleButton) (k : list N) :
  Theme.toggleControl p = Some b →
  Theme.readable (Theme.storage p) = true →
  Theme.items (Theme.storage p) !! Theme.STORAGE_KEY = Some k →
  k ∈ Object_prototype_keys →
  Theme.currentTheme (Theme.this (final (Theme.new p))) = k
  ∧ k ≠ Theme.light ∧ k ≠ Theme.dark.
Proof.
  intros Hc Hr Hi Hk.
  destruct (new_spec p) as (w & -> & _ & _ & Hm). rewrite Hc in Hm.
  destruct Hm as (_ & _ & Hm & _). cbn [final]. rewrite Hm, Hr, Hi.
  unfold Object_prototype_keys in Hk.
  repeat (apply elem_of_cons in Hk as [-> | Hk]);
    [..|by apply elem_of_nil in Hk];
    (split; [reflexivity|split; intros H; vm_compute in H; discriminate]).
Qed.

Lemma saved_inherited_name_becomes_theme_witness :
  Theme.currentTheme
    (Theme.this (final (Theme.new (Examples.themePage true (Some (js "constructor"))))))
  = js "constructor"
  ∧ js "constructor" ≠ Theme.light ∧ js "constructor" ≠ Theme.dark.
Proof.
  apply (saved_inherited_name_becomes_theme
           (Examples.themePage true (Some (js "constructor")))
           Examples.toggleButton (js "constructor")).
  - reflexivity.
  - reflexivity.
  - by vm_compute.
  - apply list_elem_of_here.
Defined.

(* ------------------------------------------------------------------ *)
(** ** NavigationManager: the properties *)
(* ------------------------------------------------------------------ *)

(** C9. [setActiveSection] with the identifier already current is a
    no-op: it returns with the manager and the page exactly as they
    were, so no class list is written.  Hence a batch of intersection
    reports that all name one section acts as a single
    [setActiveSection] for it (or as nothing when none intersects), and
    so does that batch followed by further batches for the section.
    When the section was not the current one, this single activation
    takes place: the section becomes current, the class writes are
    those of exactly one round ([active] removed from each navigation
    link once, then added once, to the anchor the selector finds), the
    anchor found is the one left active, and the callback returns
    unless the browser refuses the selector.  From then on, as for any
    section that is already current, reports for it write nothing. *)
Theorem same_section_activates_once
    (querySelector : list N → list Nav.Anchor → Nav.QueryResult)
    (s : list N) (entries more : list Nav.Entry) (st : Nav.NavigationManager) :
  Forall (λ e, Nav.target_id e = s) entries →
  Forall (λ e, Nav.target_id e = s) more →
  Nav.setActiveSection querySelector (Nav.currentSection st) st = Ret tt st
  ∧ Nav.observerCallback querySelector entries st
    = (if existsb Nav.isIntersecting entries
       then Nav.setActiveSection querySelector s st
       else Ret tt st)
  ∧ (existsb Nav.isIntersecting entries = true →
     (Nav.observerCallback querySelector entries
        ≫= λ _, Nav.observerCallback querySelector more) st
     = Nav.setActiveSection querySelector s st)
  ∧ (existsb Nav.isIntersecting entries = true →
     Nav.currentSection st ≠ s →
     let found := querySelector (Nav.activeLinkSelector s) (unmarked (Nav.anchors st)) in
     let out := (Nav.observerCallback querySelector entries
                   ≫= λ _, Nav.observerCallback querySelector more) st in
     match found with
     | Nav.BadSelector => out = Throw SyntaxError (final out)
     | _ => out = Ret tt (final out)
     end
     ∧ Nav.currentSection (final out) = s
     ∧ Nav.writes (final out) = Nav.writes st ++ activation_writes found (Nav.anchors st)
     ∧ length (Nav.anchors (final out)) = length (Nav.anchors st)
     ∧ ∀ j a, Nav.anchors (final out) !! j = Some a →
         ∃ a0, Nav.anchors st !! j = Some a0
           ∧ Nav.href a = Nav.href a0 ∧ Nav.isNavLink a = Nav.isNavLink a0
           ∧ Nav.active a = if bool_decide (found = Nav.Found j) then true
                            else if Nav.isNavLink a0 then false else Nav.active a0)
  ∧ (∀ st1, Nav.currentSection st1 = s →
       Nav.observerCallback querySelector more st1 = Ret tt st1).
Proof.
  intros He Hm. split; [apply setActiveSection_same|].
  rewrite (observerCallback_same_section querySelector s entries st He).
  split; [done|].
  assert (Htwice : existsb Nav.isIntersecting entries = true →
            (Nav.observerCallback querySelector entries
               ≫= λ _, Nav.observerCallback querySelector more) st
            = Nav.setActiveSection querySelector s st).
  { intros Hex. unfold mbind, M_bind, bind.
    rewrite (observerCallback_same_section querySelector s entries st He), Hex.
    pose proof (setActiveSection_current querySelector s st) as Hcur.
    destruct (Nav.setActiveSection querySelector s st) as [[] st1|ex st1]; [|done].
    cbn [final] in Hcur.
    apply (observerCallback_current querySelector more st1). by rewrite Hcur. }
  split; [exact Htwice|]. split.
  - intros Hex Hne. cbn zeta. rewrite (Htwice Hex).
    destruct (setActiveSection_other querySelector s st Hne) as (Hout & Hcur & Hw & Ha).
    split; [exact Hout|]. split; [exact Hcur|]. split; [exact Hw|].
    rewrite Ha. split.
    + unfold unmarked.
      destruct (querySelector _ _); rewrite ?length_alter, length_fmap; done.
    + intros j a. apply marked_lookup.
  - intros st1 <-. apply observerCallback_current. exact Hm.
Qed.

Lemma same_section_activates_once_witness :
  let entries := [Examples.report (js "projetos"); Examples.report (js "projetos")] in
  let out := (Nav.observerCallback Nav.plainEngine entries
                ≫= λ _, Nav.observerCallback Nav.plainEngine entries) Examples.navigation in
  out = Ret tt (final out)
  ∧ Nav.currentSection (final out) = js "projetos"
  ∧ Nav.writes (final out)
    = [Nav.ClassRemove 0; Nav.ClassRemove 1; Nav.ClassRemove 2; Nav.ClassAdd 1]
  ∧ length (Nav.anchors (final out)) = 3%nat.
Proof.
  pose proof (same_section_activates_once Nav.plainEngine (js "projetos")
                [Examples.report (js "projetos"); Examples.report (js "projetos")]
                [Examples.report (js "projetos"); Examples.report (js "projetos")]
                Examples.navigation) as H.
  destruct H as (_ & _ & _ & H & _); [repeat constructor..|].
  destruct H as (H1 & H2 & H3 & H4 & _).
  - reflexivity.
  - intros E. vm_compute in E. discriminate.
  - split_and!; [exact H1 | exact H2 | exact H3 | exact H4].
Defined.

(* ------------------------------------------------------------------ *)
(** ** PortfolioApp: the properties *)
(* ------------------------------------------------------------------ *)

(** C1, where the code departs from it.  [setupComponentIntegration]
    wraps a method named [toggleTheme], but the class names its method
    [toggle]: the read gives [undefined], the [.bind] on it raises, and
    [init] ends in its [catch] block.  So on every page the coordinator
    is left uninitialized with no wrapper installed, and a click on the
    theme control runs the plain [toggle]: the theme changes (when the
    control exists), but no [portfolioThemeChange] event is dispatched
    and the theme-color meta tag keeps its content.  The keyboard
    shortcut, which calls [toggleTheme], raises. *)
Theorem theme_toggle_is_never_wrapped (p : App.Page) :
  ∃ app, App.new p = Ret tt app
    ∧ App.isInitialized app = false
    ∧ App.toggleTheme <$> App.themeManager app = Some None
    ∧ App.scrollToSectionWrapped app = false
    ∧ App.shortcutToggleTheme app = Throw TypeError app
    ∧ ∃ app', App.clickThemeToggle app = Ret tt app'
        ∧ App.dispatched app' = []
        ∧ App.themeColorMeta app' = App.page_themeColorMeta p
        ∧ (is_Some (Theme.toggleControl (App.page_theme p)) →
           (λ t, Theme.currentTheme (App.instance t)) <$> App.themeManager app'
           ≠ (λ t, Theme.currentTheme (App.instance t)) <$> App.themeManager app).
Proof.
  destruct (new_spec_app p) as (w & Ew & ->).
  destruct (new_spec (App.page_theme p)) as (w0 & Ew0 & _ & _ & Hm).
  rewrite Ew in Ew0. injection Ew0 as <-.
  eexists. split; [reflexivity|]. split_and!; try reflexivity.
  unfold App.clickThemeToggle. unfold mbind, M_bind, bind, get.
  cbn [App.after_new App.themePage].
  destruct (Theme.clickListeners (Theme.page w)) as [|n] eqn:Hn.
  - eexists. split; [reflexivity|]. split_and!; try reflexivity.
    intros [b Hb]. rewrite Hb in Hm. destruct Hm as (_ & Hl & _). congruence.
  - unfold App.callTheme. unfold mbind, M_bind, bind, get.
    cbn [App.after_new App.themeManager]. rewrite lookup_toggle. cbn [App.invoke Theme.call].
    destruct (onTheme_toggle (App.after_new p w) _ eq_refl) as (w' & _ & -> & Hne).
    eexists. split; [reflexivity|]. split_and!; try reflexivity.
    intros _. cbn. intros [= Heq]. by apply Hne.
Qed.

Lemma theme_toggle_is_never_wrapped_witness :
  ∃ app', App.clickThemeToggle Examples.app = Ret tt app'
    ∧ App.dispatched app' = []
    ∧ App.themeColorMeta app' = Some (js "#1a1a1a")
    ∧ (λ t, Theme.currentTheme (App.instance t)) <$> App.themeManager app'
      = Some Theme.light
    ∧ (λ t, Theme.currentTheme (App.instance t)) <$> App.themeManager Examples.app
      = Some Theme.dark.
Proof.
  destruct (theme_toggle_is_never_wrapped Examples.fullPage)
    as (app & E & _ & _ & _ & _ & app' & Ec & Hd & Hm & _).
  assert (Happ : app = Examples.app).
  { unfold Examples.app. by rewrite E. }
  subst app. exists app'. split; [exact Ec|]. split; [exact Hd|]. split; [exact Hm|].
  assert (Hval : final (App.clickThemeToggle Examples.app) = app') by (by rewrite Ec).
  subst app'. by vm_compute.
Defined.

(* ------------------------------------------------------------------ *)
(** ** ThemeManager: further properties *)
(* ------------------------------------------------------------------ *)

Section ThemeExtras.
Import Theme.

Lemma set_keeps_storage_flags theme w :
  readable (storage (page (final (set theme w)))) = readable (storage (page w))
  ∧ writable (storage (page (final (set theme w)))) = writable (storage (page w)).
Proof.
  unfold set. destruct (truthy (get_property ICONS theme)); cbn [negb]; [|done].
  unfold apply, updateButton, save, setItem.
  unfold mbind, M_bind, bind, modify, try_catch, get, ret.
  cbn [page this with_page with_this with_currentTheme storage writable readable currentTheme button].
  destruct (writable (storage (page w))) eqn:Hw;
    cbn [page this with_page with_this with_currentTheme with_storage with_toggleControl
         storage writable readable currentTheme button final negb];
    destruct (button (this w)); cbn [negb final page with_page with_toggleControl storage readable writable];
    by rewrite ?Hw.
Qed.

Lemma set_falsy theme w :
  truthy (get_property ICONS theme) = false → set theme w = Ret tt w.
Proof. intros H. unfold set. by rewrite H. Qed.

Lemma set_truthy theme w :
  truthy (get_property ICONS theme) = true →
  ∃ w', set theme w = Ret tt w' ∧ currentTheme (this w') = theme
        ∧ transitionClass (page w') = true.
Proof.
  intros H. unfold set. rewrite H. cbn [negb].
  unfold apply, updateButton. unfold mbind, M_bind, bind, modify.
  set (w1 := with_page _ (with_currentTheme theme w)).
  destruct (save_spec w1) as (w2 & -> & Hthis & Htc & Hcl & Hdt & Htrn & Htm & Hr & Hwr & Hit).
  eexists. split; [reflexivity|].
  destruct (button (this w2)); cbn [negb this page with_page transitionClass with_toggleControl];
    rewrite ?Hthis, ?Htrn; done.
Qed.

Lemma truthy_ICONS_iff theme :
  truthy (get_property ICONS theme) = true
  ↔ theme = light ∨ theme = dark ∨ theme ∈ Object_prototype_keys.
Proof.
  unfold get_property, ICONS. cbn [own_property].
  destruct (str_eqb light theme) eqn:E1.
  { apply str_eqb_eq in E1. subst theme. split; [by left|done]. }
  destruct (str_eqb dark theme) eqn:E2.
  { apply str_eqb_eq in E2. subst theme. split; [by right; left|done]. }
  cbn [truthy]. destruct (bool_decide _) eqn:Hb; cbn [truthy].
  - apply bool_decide_eq_true in Hb. split; auto.
  - apply bool_decide_eq_false in Hb. split; [done|].
    intros [-> | [-> | H] ]; [by rewrite str_eqb_refl in E1|by rewrite str_eqb_refl in E2|done].
Qed.

Lemma truthy_enumerated theme :
  theme = light ∨ theme = dark → truthy (get_property ICONS theme) = true.
Proof. intros H. apply truthy_ICONS_iff. tauto. Qed.

Lemma nextTheme_enumerated t : nextTheme t = light ∨ nextTheme t = dark.
Proof. unfold nextTheme. destruct (str_eqb t light); auto. Qed.

Lemma nextTheme_involutive t : t = light ∨ t = dark → nextTheme (nextTheme t) = t.
Proof. intros [-> | ->]; reflexivity. Qed.

(** X1. From one of the two themes, two toggles in a row both return,
    pass through the other theme and end on the original one, with the
    document marker matching it and, when the storage takes writes, the
    original theme as the persisted value. *)
Theorem toggle_twice_restores (w : World) :
  currentTheme (this w) = light ∨ currentTheme (this w) = dark →
  ∃ w1 w2,
    toggle w = Ret tt w1 ∧ toggle w1 = Ret tt w2
    ∧ currentTheme (this w1) = nextTheme (currentTheme (this w))
    ∧ currentTheme (this w2) = currentTheme (this w)
    ∧ marker_matches w2
    ∧ (writable (storage (page w)) = true →
       items (storage (page w2)) !! STORAGE_KEY = Some (currentTheme (this w))).
Proof.
  intros Hen.
  destruct (toggle_spec w) as (E1 & Hn1 & _). fold (nextTheme (currentTheme (this w))) in *.
  destruct (set_enumerated _ w Hn1) as (w1 & S1 & Hc1 & _ & _ & _ & _ & _ & _ & _).
  pose proof (set_keeps_storage_flags (nextTheme (currentTheme (this w))) w) as [_ Hw1].
  rewrite S1 in Hw1. cbn [final] in Hw1.
  destruct (toggle_spec w1) as (E2 & Hn2 & _). fold (nextTheme (currentTheme (this w1))) in *.
  destruct (set_enumerated _ w1 Hn2) as (w2 & S2 & Hc2 & _ & Hd2 & _ & _ & _ & Hi2 & _).
  rewrite Hc1, nextTheme_involutive in * by done.
  exists w1, w2. rewrite E1, E2, S1, S2. split_and!; try done.
  - unfold marker_matches. by rewrite Hd2, Hc2.
  - intros Hw. rewrite Hi2, Hw1, Hw. apply lookup_insert_eq.
Qed.

(** X2. [set] with a value that is neither ["light"], nor ["dark"], nor
    a name inherited from [Object.prototype] returns without changing
    anything: theme, document, storage and control stay as they were. *)
Theorem set_rejects_unknown (theme : list N) (w : World) :
  theme ≠ light → theme ≠ dark → theme ∉ Object_prototype_keys →
  set theme w = Ret tt w.
Proof.
  intros H1 H2 H3. apply set_falsy.
  destruct (truthy (get_property ICONS theme)) eqn:E; [|done].
  apply truthy_ICONS_iff in E. tauto.
Qed.

(** X3. No storage failure surfaces: whatever the storage does (reads
    or writes refused), [toggle], [set], [save], [loadSavedTheme] and
    the constructor all return normally. *)
Theorem theme_methods_never_raise (theme : list N) (w : World) (p : Page) :
  returns (toggle w) = true ∧ returns (set theme w) = true
  ∧ returns (save w) = true ∧ returns (loadSavedTheme w) = true
  ∧ returns (new p) = true.
Proof.
  assert (Hset : ∀ t, returns (set t w) = true).
  { intros t. destruct (truthy (get_property ICONS t)) eqn:E.
    - destruct (set_truthy t w E) as (w' & -> & _). done.
    - by rewrite set_falsy. }
  split_and!.
  - destruct (toggle_spec w) as (-> & _). apply Hset.
  - apply Hset.
  - destruct (save_spec w) as (w' & -> & _). done.
  - destruct (loadSavedTheme_spec w) as (t & -> & _). done.
  - destruct (new_spec p) as (w' & -> & _). done.
Qed.

(** X4. Persistence round trip: after [set] of one of the two themes on
    a page whose storage works, a manager constructed on the resulting
    page (with its control) starts in that theme. *)
Theorem saved_theme_round_trip (theme : list N) (w : World) (b : ToggleButton) :
  theme = light ∨ theme = dark →
  readable (storage (page w)) = true →
  writable (storage (page w)) = true →
  toggleControl (page w) = Some b →
  currentTheme (this (final (new (page (final (set theme w)))))) = theme.
Proof.
  intros Hen Hr Hw Hb.
  pose proof (set_keeps_storage_flags theme w) as [Hr' _].
  destruct (set_enumerated theme w Hen) as (w' & E & _ & _ & _ & _ & _ & _ & Hi & Htc).
  rewrite E in *. cbn [final] in *.
  destruct (new_spec (page w')) as (w2 & -> & _ & _ & Hm). cbn [final].
  assert (Hsome : is_Some (toggleControl (page w'))).
  { rewrite Htc, Hb. destruct (button (this w)); eauto. }
  destruct Hsome as [b' Hb']. rewrite Hb' in Hm. destruct Hm as (_ & _ & -> & _).
  rewrite Hr', Hr, Hi, Hw, lookup_insert_eq.
  by destruct Hen as [-> | ->].
Qed.

(** X5. After [set] of one of the two themes on a manager that found
    its control, the page describes the theme: the document marker
    matches, and the control is pressed exactly in dark mode and shows
    the label and icon of the other theme. *)
Theorem set_keeps_page_consistent (theme : list N) (w : World) :
  theme = light ∨ theme = dark →
  button (this w) = true →
  ∃ w', set theme w = Ret tt w' ∧ marker_matches w' ∧ control_matches w'.
Proof.
  intros Hen Hb.
  destruct (set_enumerated theme w Hen) as (w' & E & Hc & _ & Hd & _ & _ & _ & _ & Htc).
  exists w'. split; [done|]. unfold marker_matches, control_matches. rewrite Hc, Hd.
  split; [done|]. intros b0. rewrite Htc, Hb.
  destruct (toggleControl (page w)) as [b1|]; [|done].
  intros [= <-]. cbn [ariaPressed ariaLabel icon]. unfold nextTheme.
  split_and!; try done.
  intros v. destruct (icon b1); [|done]. by intros [= <-].
Qed.

(** X6. Construction falls back to ["dark"] when the control is
    missing, when the storage cannot be read, when nothing is saved, or
    when the saved value is neither of the two themes nor a name
    inherited from [Object.prototype] (the empty string included). *)
Theorem construction_defaults_to_dark (p : Page) :
  (toggleControl p = None
   ∨ readable (storage p) = false
   ∨ items (storage p) !! STORAGE_KEY = None
   ∨ ∃ s, items (storage p) !! STORAGE_KEY = Some s
          ∧ s ≠ light ∧ s ≠ dark ∧ s ∉ Object_prototype_keys) →
  currentTheme (this (final (new p))) = dark.
Proof.
  intros H. destruct (new_spec p) as (w & -> & _ & _ & Hm). cbn [final].
  destruct (toggleControl p) eqn:Hc.
  - destruct Hm as (_ & _ & -> & _).
    destruct H as [H | [-> | [-> | (s & -> & H1 & H2 & H3)] ] ]; try done.
    + by destruct (readable (storage p)).
    + destruct (readable (storage p)); [|done].
      destruct (truthy (get_property ICONS s)) eqn:E; [|by rewrite andb_false_r].
      apply truthy_ICONS_iff in E. tauto.
  - by subst w.
Qed.

(** X7. With the control on the page and a readable storage, a saved
    ["light"] or ["dark"] becomes the current theme and is applied to
    the document; the control itself and the storage are not written
    at construction. *)
Theorem construction_honours_saved (p : Page) (b : ToggleButton) (s : list N) :
  toggleControl p = Some b →
  readable (storage p) = true →
  items (storage p) !! STORAGE_KEY = Some s →
  s = light ∨ s = dark →
  ∃ w, new p = Ret tt w
    ∧ currentTheme (this w) = s
    ∧ marker_matches w
    ∧ toggleControl (page w) = Some b
    ∧ storage (page w) = storage p.
Proof.
  intros Hc Hr Hi Hen. destruct (new_spec p) as (w & E & Hs & Htc & Hm).
  rewrite Hc in Hm. destruct Hm as (_ & _ & Hcur & Hd).
  rewrite Hr, Hi in Hcur.
  assert (Hs' : currentTheme (this w) = s).
  { rewrite Hcur. by destruct Hen as [-> | ->]. }
  exists w. split; [done|]. split; [done|]. split; [exact Hd|].
  split; [by rewrite Htc|done].
Qed.

End ThemeExtras.

Lemma toggle_twice_restores_witness :
  ∃ w1 w2,
    Theme.toggle MoreExamples.withControl = Ret tt w1 ∧ Theme.toggle w1 = Ret tt w2
    ∧ Theme.currentTheme (Theme.this w1)
      = nextTheme (Theme.currentTheme (Theme.this MoreExamples.withControl))
    ∧ Theme.currentTheme (Theme.this w2)
      = Theme.currentTheme (Theme.this MoreExamples.withControl)
    ∧ marker_matches w2
    ∧ (Theme.writable (Theme.storage (Theme.page MoreExamples.withControl)) = true →
       Theme.items (Theme.storage (Theme.page w2)) !! Theme.STORAGE_KEY
       = Some (Theme.currentTheme (Theme.this MoreExamples.withControl))).
Proof.
  apply (toggle_twice_restores MoreExamples.withControl). right. reflexivity.
Defined.

Lemma set_rejects_unknown_witness :
  Theme.set (js "blue") MoreExamples.withControl = Ret tt MoreExamples.withControl.
Proof.
  apply (set_rejects_unknown (js "blue") MoreExamples.withControl).
  - intros H. vm_compute in H. discriminate.
  - intros H. vm_compute in H. discriminate.
  - apply (proj1 (bool_decide_eq_false _)). by vm_compute.
Defined.

Lemma saved_theme_round_trip_witness :
  Theme.currentTheme
    (Theme.this (final (Theme.new
       (Theme.page (final (Theme.set Theme.light MoreExamples.withControl))))))
  = Theme.light.
Proof.
  apply (saved_theme_round_trip Theme.light MoreExamples.withControl Examples.toggleButton).
  - left. reflexivity.
  - reflexivity.
  - reflexivity.
  - reflexivity.
Defined.

Lemma set_keeps_page_consistent_witness :
  ∃ w', Theme.set Theme.light MoreExamples.withControl = Ret tt w'
        ∧ marker_matches w' ∧ control_matches w'.
Proof.
  apply (set_keeps_page_consistent Theme.light MoreExamples.withControl).
  - left. reflexivity.
  - reflexivity.
Defined.

Lemma construction_defaults_to_dark_witness :
  Theme.currentTheme
    (Theme.this (final (Theme.new (Examples.themePage true (Some (js "blue"))))))
  = Theme.dark.
Proof.
  apply (construction_defaults_to_dark (Examples.themePage true (Some (js "blue")))).
  right. right. right. exists (js "blue"). split; [by vm_compute|].
  split; [intros H; vm_compute in H; discriminate|].
  split; [intros H; vm_compute in H; discriminate|].
  apply (proj1 (bool_decide_eq_false _)). by vm_compute.
Defined.

Lemma construction_honours_saved_witness :
  ∃ w, Theme.new (Examples.themePage true (Some Theme.light)) = Ret tt w
    ∧ Theme.currentTheme (Theme.this w) = Theme.light
    ∧ marker_matches w
    ∧ Theme.toggleControl (Theme.page w) = Some Examples.toggleButton
    ∧ Theme.storage (Theme.page w)
      = Theme.storage (Examples.themePage true (Some Theme.light)).
Proof.
  apply (construction_honours_saved (Examples.themePage true (Some Theme.light))
           Examples.toggleButton Theme.light).
  - reflexivity.
  - reflexivity.
  - by vm_compute.
  - left. reflexivity.
Defined.

(* ------------------------------------------------------------------ *)
(** ** NavigationManager: further properties *)
(* ------------------------------------------------------------------ *)

Section NavExtras.
Import Nav.
Variable querySelector : list N → list Anchor → QueryResult.

Lemma removeActive_clears i l : no_active_link (removeActive i l).1.
Proof.
  rewrite removeActive_fst. intros j a Hj Hn.
  rewrite list_lookup_fmap in Hj.
  destruct (l !! j) as [a0|]; [|done]. cbn in Hj. injection Hj as <-.
  destruct (isNavLink a0) eqn:E; [reflexivity|congruence].
Qed.

Lemma removeActive_same_links i l j a :
  (removeActive i l).1 !! j = Some a →
  ∃ a0, l !! j = Some a0 ∧ href a = href a0 ∧ isNavLink a = isNavLink a0.
Proof.
  rewrite removeActive_fst, list_lookup_fmap.
  destruct (l !! j) as [a0|]; [|done]. cbn. intros [= <-].
  exists a0. destruct (isNavLink a0) eqn:E; cbn; rewrite ?E; done.
Qed.

(** X8. When [setActiveSection] switches to another section and
    returns, that section is current and at most one navigation link
    is left with the [active] class (none when the selector finds no
    anchor); the anchors keep their number, their [href] and their
    kind.  This holds for any selector engine. *)
Theorem setActiveSection_one_active (s : list N) (st st' : NavigationManager) :
  currentSection st ≠ s →
  setActiveSection querySelector s st = Ret tt st' →
  currentSection st' = s
  ∧ one_active_link (anchors st')
  ∧ length (anchors st') = length (anchors st)
  ∧ (∀ j a, anchors st' !! j = Some a →
       ∃ a0, anchors st !! j = Some a0 ∧ href a = href a0 ∧ isNavLink a = isNavLink a0)
  ∧ (querySelector (activeLinkSelector s) (removeActive 0 (anchors st)).1 = NoMatch →
     no_active_link (anchors st')).
Proof.
  intros Hne. unfold setActiveSection.
  destruct (str_eqb (currentSection st) s) eqn:E; [by apply str_eqb_eq in E|].
  pose proof (removeActive_clears 0 (anchors st)) as Hclear.
  pose proof (removeActive_same_links 0 (anchors st)) as Hsame.
  pose proof (removeActive_fst 0 (anchors st)) as Hfst.
  destruct (removeActive 0 (anchors st)) as [cleared w]. cbn [fst] in *.
  assert (Hlen : length cleared = length (anchors st)).
  { by rewrite Hfst, length_fmap. }
  destruct (querySelector (activeLinkSelector s) cleared) as [i| |] eqn:Hq; [| |done].
  - intros [= <-]. cbn [currentSection anchors]. split; [done|]. split.
    { intros j k a b Hj Hk Na Nb Aa Ab.
      destruct (decide (j = i)) as [->|Hji], (decide (k = i)) as [->|Hki]; try done.
      - rewrite list_lookup_alter_ne in Hk by done.
        by rewrite (Hclear k b Hk Nb) in Ab.
      - rewrite list_lookup_alter_ne in Hj by done.
        by rewrite (Hclear j a Hj Na) in Aa.
      - rewrite list_lookup_alter_ne in Hj by done.
        by rewrite (Hclear j a Hj Na) in Aa. }
    split; [by rewrite length_alter|]. split; [|done].
    intros j a. destruct (decide (j = i)) as [->|Hji].
    + rewrite list_lookup_alter_eq. destruct (cleared !! i) as [c|] eqn:Hc; [|done].
      cbn. intros [= <-]. destruct (Hsame i c Hc) as (a0 & ? & ? & ?). by exists a0.
    + rewrite list_lookup_alter_ne by done. apply Hsame.
  - intros [= <-]. cbn [currentSection anchors]. split; [done|]. split.
    { intros j k a b Hj Hk Na Nb Aa Ab. by rewrite (Hclear j a Hj Na) in Aa. }
    split; [done|]. split; [apply Hsame|]. intros _. apply Hclear.
Qed.

Lemma last_reported_cons_false e entries current :
  isIntersecting e = false →
  last_reported (e :: entries) current = last_reported entries current.
Proof. intros H. unfold last_reported. cbn [List.filter]. by rewrite H. Qed.

Lemma last_reported_cons_true e entries current :
  isIntersecting e = true →
  last_reported (e :: entries) current = last_reported entries (target_id e).
Proof.
  intros H. unfold last_reported. cbn [List.filter]. rewrite H.
  destruct (List.filter isIntersecting entries) as [|x l] eqn:Hf; [reflexivity|].
  change (last (e :: x :: l)) with (last (x :: l)).
  destruct (last (x :: l)) eqn:Hl; [reflexivity|].
  by apply last_None in Hl.
Qed.

(** X9. When the observer's callback returns, the current section is
    the target of the last intersecting entry of the batch, and the
    section that was current when no entry intersects. *)
Theorem observer_last_intersecting_wins (entries : list Entry) (st st' : NavigationManager) :
  observerCallback querySelector entries st = Ret tt st' →
  currentSection st' = last_reported entries (currentSection st).
Proof.
  unfold observerCallback. revert st.
  induction entries as [|e entries IH]; intros st.
  - by intros [= <-].
  - cbn [forEach]. unfold mbind, M_bind, bind.
    destruct (isIntersecting e) eqn:He.
    + rewrite last_reported_cons_true by done.
      pose proof (setActiveSection_current querySelector (target_id e) st) as Hcur.
      destruct (setActiveSection querySelector (target_id e) st) as [[] st1|]; [|done].
      cbn [final] in Hcur. intros H. rewrite <- Hcur. by apply IH.
    + rewrite last_reported_cons_false by done. apply IH.
Qed.
End NavExtras.

Section MenuFacts.
Import Menu.

Lemma openMobileMenu_spec st m t :
  navMenu st = Some m → navToggle st = Some t →
  ∃ st', openMobileMenu st = Ret tt st'
    ∧ isMenuOpen st' = true
    ∧ menu_consistent st'
    ∧ links_of st' = links_of st
    ∧ activeElement st' = activeElement st
    ∧ scrolls st' = scrolls st
    ∧ timers st'
      = timers st ++ match menu_links m with
                     | firstLink :: _ => [{| delay := 100; focusLink := firstLink |}]
                     | [] => []
                     end.
Proof.
  intros Hm Ht. unfold openMobileMenu, markOpen, theMenu, theToggle, menu_consistent, links_of.
  unfold mbind, M_bind, bind, modify, ret, get.
  cbn [navMenu navToggle with_isMenuOpen with_navMenu with_navToggle with_bodyOverflow
       menu_links menu_active menu_ariaHidden].
  rewrite Hm.
  cbn [navMenu navToggle with_isMenuOpen with_navMenu with_navToggle with_bodyOverflow
       menu_links menu_active menu_ariaHidden].
  rewrite Ht.
  cbn [navMenu navToggle with_isMenuOpen with_navMenu with_navToggle with_bodyOverflow
       menu_links menu_active menu_ariaHidden].
  destruct (menu_links m) as [|f l] eqn:Hl;
    (eexists; split; [reflexivity|]);
    cbn [isMenuOpen navMenu navToggle bodyOverflow activeElement scrolls timers
         setTimeout menu_links menu_active menu_ariaHidden toggle_active toggle_ariaExpanded];
    rewrite ?Hm, ?app_nil_r; split_and!; eauto 10.
Qed.

Lemma closeMobileMenu_spec st m t :
  navMenu st = Some m → navToggle st = Some t →
  ∃ st', closeMobileMenu st = Ret tt st'
    ∧ isMenuOpen st' = false
    ∧ menu_consistent st'
    ∧ links_of st' = links_of st
    ∧ activeElement st' = Some FocusToggle
    ∧ scrolls st' = scrolls st
    ∧ timers st' = timers st.
Proof.
  intros Hm Ht. unfold closeMobileMenu, markOpen, theMenu, theToggle, menu_consistent, links_of.
  unfold mbind, M_bind, bind, modify, ret, get.
  cbn [navMenu navToggle with_isMenuOpen with_navMenu with_navToggle with_bodyOverflow
       menu_links menu_active menu_ariaHidden].
  rewrite Hm.
  cbn [navMenu navToggle with_isMenuOpen with_navMenu with_navToggle with_bodyOverflow
       menu_links menu_active menu_ariaHidden].
  rewrite Ht.
  cbn [navMenu navToggle with_isMenuOpen with_navMenu with_navToggle with_bodyOverflow
       menu_links menu_active menu_ariaHidden].
  eexists; split; [reflexivity|].
  cbn [isMenuOpen navMenu navToggle bodyOverflow activeElement scrolls timers focus
       menu_links menu_active menu_ariaHidden toggle_active toggle_ariaExpanded].
  rewrite ?Hm. split_and!; eauto 10.
Qed.

(** Closing clears the flag first, so the flag is down even when the
    method raises on a missing element. *)
Lemma closeMobileMenu_flag st : isMenuOpen (final (closeMobileMenu st)) = false.
Proof.
  unfold closeMobileMenu, markOpen, theMenu, theToggle.
  unfold mbind, M_bind, bind, modify, ret, get.
  cbn [navMenu navToggle with_isMenuOpen].
  destruct (navMenu st) as [m|]; [|done].
  cbn [navMenu navToggle with_isMenuOpen with_navMenu].
  destruct (navToggle st) as [t|]; [|done]. done.
Qed.

Lemma consistent_elements st :
  menu_consistent st → ∃ m t, navMenu st = Some m ∧ navToggle st = Some t.
Proof. intros (m & t & ? & ? & _). eauto. Qed.

(** X10. With menu and toggle on the page, each [toggleMobileMenu]
    returns and flips [isMenuOpen], leaving classes, ARIA attributes
    and page scroll lock in agreement with it; two toggles restore the
    original open state with the same links. *)
Theorem toggle_twice_restores_menu (st : State) (m : MenuEl) (t : ToggleEl) :
  navMenu st = Some m → navToggle st = Some t →
  ∃ st1 st2,
    toggleMobileMenu st = Ret tt st1 ∧ toggleMobileMenu st1 = Ret tt st2
    ∧ isMenuOpen st1 = negb (isMenuOpen st) ∧ menu_consistent st1
    ∧ isMenuOpen st2 = isMenuOpen st ∧ menu_consistent st2
    ∧ links_of st2 = links_of st.
Proof.
  intros Hm Ht.
  assert (Hstep : ∀ s m0 t0, navMenu s = Some m0 → navToggle s = Some t0 →
            ∃ s', toggleMobileMenu s = Ret tt s' ∧ isMenuOpen s' = negb (isMenuOpen s)
                  ∧ menu_consistent s' ∧ links_of s' = links_of s).
  { intros s m0 t0 Hm0 Ht0. unfold toggleMobileMenu. unfold mbind, M_bind, bind, get.
    destruct (isMenuOpen s) eqn:Ho.
    - destruct (closeMobileMenu_spec s m0 t0 Hm0 Ht0) as (s' & -> & ? & ? & ? & _). eauto.
    - destruct (openMobileMenu_spec s m0 t0 Hm0 Ht0) as (s' & -> & ? & ? & ? & _). eauto. }
  destruct (Hstep st m t Hm Ht) as (st1 & E1 & O1 & C1 & L1).
  destruct (consistent_elements st1 C1) as (m1 & t1 & Hm1 & Ht1).
  destruct (Hstep st1 m1 t1 Hm1 Ht1) as (st2 & E2 & O2 & C2 & L2).
  exists st1, st2. split_and!; try done.
  - by rewrite O2, O1, negb_involutive.
  - by rewrite L2.
Qed.

(** X11. Closing the menu twice is the same as closing it once, in
    every state (also when an element is missing and the call raises). *)
Theorem close_is_idempotent (st : State) :
  (closeMobileMenu ≫= λ _, closeMobileMenu) st = closeMobileMenu st.
Proof.
  unfold mbind, M_bind, bind.
  destruct (closeMobileMenu st) as [[] st'|e st'] eqn:E; [|done].
  revert E. unfold closeMobileMenu, markOpen, theMenu, theToggle.
  unfold mbind, M_bind, bind, modify, ret, get.
  cbn [navMenu navToggle with_isMenuOpen].
  destruct (navMenu st) as [m|]; [|done].
  cbn [navMenu navToggle with_isMenuOpen with_navMenu].
  destruct (navToggle st) as [t|]; [|done].
  intros [= <-]. reflexivity.
Qed.

Lemma handleResize_flag innerWidth st :
  isMenuOpen (final (handleResize innerWidth st))
  = isMenuOpen st && (innerWidth <? 768)%Z.
Proof.
  unfold handleResize. unfold mbind, M_bind, bind, get, ret.
  destruct (768 <=? innerWidth)%Z eqn:Hw, (isMenuOpen st) eqn:Ho; cbn [andb final].
  - rewrite closeMobileMenu_flag.
    apply Z.leb_le in Hw. symmetry. apply Z.ltb_ge. lia.
  - by rewrite Ho.
  - rewrite Ho. apply Z.leb_gt in Hw. symmetry. by apply Z.ltb_lt.
  - by rewrite Ho.
Qed.

(** X12. After [handleResize] the menu is open exactly when it was open
    and the window is narrower than 768: a resize to 768 or more
    closes an open menu, and no resize ever opens it.  Below the
    breakpoint, and whenever the menu is closed, nothing changes. *)
Theorem resize_closes_at_breakpoint (innerWidth : Z) (st : State) :
  isMenuOpen (final (handleResize innerWidth st))
  = isMenuOpen st && (innerWidth <? 768)%Z
  ∧ ((innerWidth < 768)%Z → handleResize innerWidth st = Ret tt st)
  ∧ (isMenuOpen st = false → handleResize innerWidth st = Ret tt st).
Proof.
  split; [apply handleResize_flag|].
  unfold handleResize. unfold mbind, M_bind, bind, get, ret. split.
  - intros Hlt. destruct (768 <=? innerWidth)%Z eqn:Hw; [|done].
    apply Z.leb_le in Hw. lia.
  - intros ->. by rewrite andb_false_r.
Qed.

(** X13. From a closed menu, none of the other handlers opens it: after
    a resize, a click anywhere, any key on the document, a click on a
    navigation link or an explicit close, [isMenuOpen] is still false
    (whether the handler returns or raises). *)
Theorem only_the_toggle_opens
    (st : State) (innerWidth : Z) (target : ClickTarget) (key : list N)
    (tgt : Target) (header : option Z) :
  isMenuOpen st = false →
  isMenuOpen (final (handleResize innerWidth st)) = false
  ∧ isMenuOpen (final (handleOutsideClick target st)) = false
  ∧ isMenuOpen (final (handleDocumentKeydown key st)) = false
  ∧ isMenuOpen (final (handleNavClick tgt header st)) = false
  ∧ isMenuOpen (final (closeMobileMenu st)) = false.
Proof.
  intros Ho. split_and!.
  - by rewrite handleResize_flag, Ho.
  - unfold handleOutsideClick. by rewrite Ho.
  - unfold handleDocumentKeydown. unfold mbind, M_bind, bind, get, ret.
    rewrite Ho, andb_false_r. done.
  - unfold handleNavClick, scrollToSection. destruct tgt; try done.
    unfold mbind, M_bind, bind, get, ret, modify. rewrite Ho. done.
  - apply closeMobileMenu_flag.
Qed.

Lemma indexOf_range x l : (-1 ≤ indexOf x l < Z.of_nat (length l))%Z.
Proof.
  induction l as [|y l IH]; cbn [indexOf length]; [lia|].
  destruct (Nat.eqb x y); [lia|].
  destruct (indexOf x l <? 0)%Z eqn:E; [lia|]. apply Z.ltb_ge in E. lia.
Qed.

Lemma indexOf_absent x l : x ∉ l → indexOf x l = (-1)%Z.
Proof.
  induction l as [|y l IH]; [done|]. intros Hx. cbn [indexOf].
  apply not_elem_of_cons in Hx as [Hne Hx].
  destruct (Nat.eqb x y) eqn:E; [by apply Nat.eqb_eq in E|].
  rewrite (IH Hx). done.
Qed.

Lemma indexOf_lookup x l i :
  NoDup l → l !! i = Some x → indexOf x l = Z.of_nat i.
Proof.
  revert i. induction l as [|y l IH]; intros i Hnd Hi; [done|].
  apply NoDup_cons in Hnd as [Hy Hnd]. cbn [indexOf].
  destruct i as [|i]; cbn in Hi.
  - injection Hi as ->. by rewrite Nat.eqb_refl.
  - destruct (Nat.eqb x y) eqn:E.
    + apply Nat.eqb_eq in E as ->. exfalso. apply Hy.
      by apply list_elem_of_lookup_2 in Hi.
    + rewrite (IH i Hnd Hi).
      destruct (Z.of_nat i <? 0)%Z eqn:E2; [apply Z.ltb_lt in E2; lia|lia].
Qed.

(** Where the arrow keys move from index [i] of [n] links. *)
Lemma navigate_from_index st m x i (isDown : bool) :
  navMenu st = Some m → NoDup (menu_links m) → menu_links m !! i = Some x →
  let n := length (menu_links m) in
  let j := if isDown then (if (n <=? S i)%nat then 0 else S i)%nat
           else (match i with O => n - 1 | S i' => i' end)%nat in
  ∃ y, menu_links m !! j = Some y
       ∧ navigateMenuWithArrows x isDown st = Ret tt (focus (FocusLink y) st).
Proof.
  intros Hm Hnd Hi n j.
  assert (Hlt : (i < n)%nat) by (by apply lookup_lt_Some in Hi).
  assert (Hj : (j < n)%nat).
  { subst j. destruct isDown.
    - destruct (n <=? S i)%nat eqn:E; [lia|]. apply Nat.leb_gt in E. lia.
    - destruct i; lia. }
  destruct (lookup_lt_is_Some_2 (menu_links m) j Hj) as [y Hy].
  exists y. split; [done|].
  unfold navigateMenuWithArrows, theMenu. unfold mbind, M_bind, bind, modify, throw.
  rewrite Hm. rewrite (indexOf_lookup x _ i Hnd Hi). fold n.
  assert (Hidx : (if isDown
                  then (if (Z.of_nat n <=? Z.of_nat i + 1) then 0 else Z.of_nat i + 1)
                  else (if (Z.of_nat i - 1 <? 0) then Z.of_nat n - 1 else Z.of_nat i - 1))%Z
                 = Z.of_nat j).
  { subst j. destruct isDown.
    - destruct (n <=? S i)%nat eqn:E.
      + apply Nat.leb_le in E. destruct (Z.of_nat n <=? Z.of_nat i + 1)%Z eqn:E2; [done|].
        apply Z.leb_gt in E2. lia.
      + apply Nat.leb_gt in E. destruct (Z.of_nat n <=? Z.of_nat i + 1)%Z eqn:E2; [|lia].
        apply Z.leb_le in E2. lia.
    - destruct i as [|i'].
      + change (Z.of_nat 0 - 1 <? 0)%Z with true. cbn iota. lia.
      + destruct (Z.of_nat (S i') - 1 <? 0)%Z eqn:E2; [apply Z.ltb_lt in E2; lia|lia]. }
  rewrite Hidx. unfold at_index.
  destruct (Z.of_nat j <? 0)%Z eqn:E; [apply Z.ltb_lt in E; lia|].
  by rewrite Nat2Z.id, Hy.
Qed.

(** X14. Arrow keys move circularly through the links of the menu: from
    the link at index [i] of [n], down focuses the link at
    [(i+1) mod n] and up the one at [(i-1) mod n]; going down and then
    up comes back to the starting link. *)
Theorem arrows_cycle_through_menu (st : State) (m : MenuEl) (x : nat) (i : nat) :
  navMenu st = Some m → NoDup (menu_links m) → menu_links m !! i = Some x →
  let n := length (menu_links m) in
  (∃ y, menu_links m !! (S i mod n)%nat = Some y
        ∧ navigateMenuWithArrows x true st = Ret tt (focus (FocusLink y) st)
        ∧ navigateMenuWithArrows y false (focus (FocusLink y) st)
          = Ret tt (focus (FocusLink x) st))
  ∧ (∃ z, menu_links m !! ((i + n - 1) mod n)%nat = Some z
          ∧ navigateMenuWithArrows x false st = Ret tt (focus (FocusLink z) st)).
Proof.
  intros Hm Hnd Hi n.
  assert (Hlt : (i < n)%nat) by (by apply lookup_lt_Some in Hi).
  split.
  - destruct (navigate_from_index st m x i true Hm Hnd Hi) as (y & Hy & E).
    cbn zeta in Hy. fold n in Hy.
    assert (Hmod : (S i mod n = if (n <=? S i)%nat then 0 else S i)%nat).
    { destruct (n <=? S i)%nat eqn:E2.
      - apply Nat.leb_le in E2. assert (S i = n) as -> by lia. apply Nat.Div0.mod_same.
      - apply Nat.leb_gt in E2. by apply Nat.mod_small. }
    exists y. rewrite Hmod. split; [done|]. split; [done|].
    destruct (navigate_from_index (focus (FocusLink y) st) m y _ false Hm Hnd Hy)
      as (x' & Hx' & ->).
    cbn zeta in Hx'. fold n in Hx'.
    assert (x' = x) as ->; [|done].
    destruct (n <=? S i)%nat eqn:E2.
    + apply Nat.leb_le in E2. assert (n - 1 = i)%nat as Hn by lia.
      rewrite Hn in Hx'. congruence.
    + congruence.
  - destruct (navigate_from_index st m x i false Hm Hnd Hi) as (z & Hz & E).
    cbn zeta in Hz. fold n in Hz.
    assert (Hmod : ((i + n - 1) mod n = match i with O => n - 1 | S i' => i' end)%nat).
    { destruct i as [|i'].
      - rewrite Nat.add_0_l. apply Nat.mod_small. lia.
      - replace (S i' + n - 1)%nat with (i' + 1 * n)%nat by lia.
        rewrite Nat.Div0.mod_add. apply Nat.mod_small. lia. }
    exists z. by rewrite Hmod.
Qed.

(** X15. Edge cases of the arrow keys: with no link in the menu the
    call raises a [TypeError] (it focuses [undefined]); from an element
    that is not one of the menu's links, down focuses the first link
    and up the last one. *)
Theorem arrows_at_the_edges (st : State) (m : MenuEl) (x : nat) (isDown : bool) :
  navMenu st = Some m →
  (menu_links m = [] → navigateMenuWithArrows x isDown st = Throw TypeError st)
  ∧ (∀ f l, menu_links m = f :: l → x ∉ f :: l →
       navigateMenuWithArrows x true st = Ret tt (focus (FocusLink f) st)
       ∧ ∃ z, last (f :: l) = Some z
              ∧ navigateMenuWithArrows x false st = Ret tt (focus (FocusLink z) st)).
Proof.
  intros Hm. unfold navigateMenuWithArrows, theMenu.
  unfold mbind, M_bind, bind, modify, throw. rewrite Hm. split.
  - intros ->. by destruct isDown.
  - intros f l Hl Hx. rewrite Hl, (indexOf_absent x _ Hx).
    assert (Hlen : (0 < Z.of_nat (length (f :: l)))%Z) by (cbn [length]; lia).
    split.
    + destruct (Z.of_nat (length (f :: l)) <=? -1 + 1)%Z eqn:E; [apply Z.leb_le in E; lia|].
      done.
    + change (-1 - 1 <? 0)%Z with true. cbn iota.
      unfold at_index.
      destruct (Z.of_nat (length (f :: l)) - 1 <? 0)%Z eqn:E; [apply Z.ltb_lt in E; lia|].
      replace (Z.to_nat (Z.of_nat (length (f :: l)) - 1)) with (length l)
        by (cbn [length]; lia).
      destruct (lookup_lt_is_Some_2 (f :: l) (length l)) as [z Hz]; [cbn [length]; lia|].
      exists z. split; [|by rewrite Hz].
      by rewrite last_lookup.
Qed.

(** X16. A click on a navigation link whose target does not exist
    changes nothing.  When the target section exists the handler
    returns with the menu closed and one scroll requested, to the
    section's [offsetTop] less the header's height (0 without a
    header) less 20; with the menu already closed that scroll is the
    only effect, and an open menu is closed consistently with focus
    back on the toggle. *)
Theorem nav_click_scrolls_below_header
    (st : State) (m : MenuEl) (t : ToggleEl) (offsetTop : Z) (header : option Z) :
  navMenu st = Some m → navToggle st = Some t →
  handleNavClick Nothing header st = Ret tt st
  ∧ ∃ st', handleNavClick (Section_ offsetTop) header st = Ret tt st'
      ∧ isMenuOpen st' = false
      ∧ scrolls st' = scrolls st ++ [(offsetTop - default 0 header - 20)%Z]
      ∧ links_of st' = links_of st
      ∧ (isMenuOpen st = false →
         st' = scrollTo (offsetTop - default 0 header - 20)%Z st)
      ∧ (isMenuOpen st = true →
         menu_consistent st' ∧ activeElement st' = Some FocusToggle).
Proof.
  intros Hm Ht. split; [done|].
  unfold handleNavClick, scrollToSection. unfold mbind, M_bind, bind, modify, get, ret.
  assert (Hh : match header with Some h => h | None => 0%Z end = default 0%Z header)
    by (by destruct header).
  rewrite Hh.
  destruct (isMenuOpen st) eqn:Ho.
  - destruct (closeMobileMenu_spec st m t Hm Ht) as (s' & -> & Hc & Hcons & Hl & Ha & Hs & _).
    eexists. split; [reflexivity|].
    cbn [isMenuOpen scrolls scrollTo]. rewrite Hs, Hc. split_and!; done.
  - eexists. split; [reflexivity|]. cbn [isMenuOpen scrolls scrollTo].
    split_and!; try done.
Qed.
(** X17. Keys other than Enter, Space, the vertical arrows and Escape
    are left alone by the three keyboard handlers of the navigation:
    the state is unchanged and the default action is not prevented. *)
Theorem other_keys_are_ignored
    (click : M State unit) (key : list N) (target : nat) (st : State) :
  key ∉ [js "Enter"; js " "; js "ArrowDown"; js "ArrowUp"; js "Escape"] →
  handleNavKeydown click key target st = Ret false st
  ∧ handleToggleKeydown key st = Ret false st
  ∧ handleDocumentKeydown key st = Ret tt st.
Proof.
  intros Hk.
  assert (Hne : ∀ k, k ∈ [js "Enter"; js " "; js "ArrowDown"; js "ArrowUp"; js "Escape"] →
                     str_eqb key k = false).
  { intros k Hin. destruct (str_eqb key k) eqn:E; [|done].
    apply str_eqb_eq in E as ->. done. }
  unfold handleNavKeydown, handleToggleKeydown, handleDocumentKeydown.
  unfold mbind, M_bind, bind, get, ret.
  rewrite !Hne by (repeat constructor).
  cbn [orb andb]. rewrite andb_false_r. done.
Qed.

End MenuFacts.

Lemma setActiveSection_one_active_witness :
  let st' := final (Nav.setActiveSection Nav.plainEngine (js "projetos") Examples.navigation) in
  Nav.currentSection st' = js "projetos"
  ∧ one_active_link (Nav.anchors st')
  ∧ length (Nav.anchors st') = length (Nav.anchors Examples.navigation)
  ∧ (∀ j a, Nav.anchors st' !! j = Some a →
       ∃ a0, Nav.anchors Examples.navigation !! j = Some a0
             ∧ Nav.href a = Nav.href a0 ∧ Nav.isNavLink a = Nav.isNavLink a0)
  ∧ (Nav.plainEngine (Nav.activeLinkSelector (js "projetos"))
       (Nav.removeActive 0 (Nav.anchors Examples.navigation)).1 = Nav.NoMatch →
     no_active_link (Nav.anchors st')).
Proof.
  apply (setActiveSection_one_active Nav.plainEngine (js "projetos") Examples.navigation).
  - intros H. vm_compute in H. discriminate.
  - by vm_compute.
Defined.

Lemma observer_last_intersecting_wins_witness :
  let entries := [Examples.report (js "projetos"); Examples.report (js "contato")] in
  Nav.currentSection
    (final (Nav.observerCallback Nav.plainEngine entries Examples.navigation))
  = last_reported entries (Nav.currentSection Examples.navigation).
Proof.
  apply (observer_last_intersecting_wins Nav.plainEngine
           [Examples.report (js "projetos"); Examples.report (js "contato")]
           Examples.navigation).
  by vm_compute.
Defined.

Lemma toggle_twice_restores_menu_witness :
  ∃ st1 st2,
    Menu.toggleMobileMenu MenuExamples.closed = Ret tt st1
    ∧ Menu.toggleMobileMenu st1 = Ret tt st2
    ∧ Menu.isMenuOpen st1 = negb (Menu.isMenuOpen MenuExamples.closed)
    ∧ menu_consistent st1
    ∧ Menu.isMenuOpen st2 = Menu.isMenuOpen MenuExamples.closed
    ∧ menu_consistent st2
    ∧ links_of st2 = links_of MenuExamples.closed.
Proof.
  apply (toggle_twice_restores_menu MenuExamples.closed
           MenuExamples.theMenu MenuExamples.theToggle); reflexivity.
Defined.

Lemma only_the_toggle_opens_witness :
  Menu.isMenuOpen (final (Menu.handleResize 1024 MenuExamples.closed)) = false
  ∧ Menu.isMenuOpen (final (Menu.handleOutsideClick Menu.Elsewhere MenuExamples.closed)) = false
  ∧ Menu.isMenuOpen (final (Menu.handleDocumentKeydown (js "Escape") MenuExamples.closed)) = false
  ∧ Menu.isMenuOpen
      (final (Menu.handleNavClick (Menu.Section_ 900) (Some 64%Z) MenuExamples.closed)) = false
  ∧ Menu.isMenuOpen (final (Menu.closeMobileMenu MenuExamples.closed)) = false.
Proof.
  apply (only_the_toggle_opens MenuExamples.closed 1024 Menu.Elsewhere (js "Escape")
           (Menu.Section_ 900) (Some 64%Z)).
  reflexivity.
Defined.

Lemma arrows_cycle_through_menu_witness :
  (∃ y, [0; 1; 2]%nat !! (3 mod 3)%nat = Some y
        ∧ Menu.navigateMenuWithArrows 2 true MenuExamples.closed
          = Ret tt (Menu.focus (Menu.FocusLink y) MenuExamples.closed)
        ∧ Menu.navigateMenuWithArrows y false
            (Menu.focus (Menu.FocusLink y) MenuExamples.closed)
          = Ret tt (Menu.focus (Menu.FocusLink 2) MenuExamples.closed))
  ∧ (∃ z, [0; 1; 2]%nat !! ((2 + 3 - 1) mod 3)%nat = Some z
          ∧ Menu.navigateMenuWithArrows 2 false MenuExamples.closed
            = Ret tt (Menu.focus (Menu.FocusLink z) MenuExamples.closed)).
Proof.
  apply (arrows_cycle_through_menu MenuExamples.closed MenuExamples.theMenu 2 2).
  - reflexivity.
  - apply (bool_decide_unpack _). by vm_compute.
  - reflexivity.
Defined.

Lemma arrows_at_the_edges_witness :
  (Menu.menu_links MenuExamples.theMenu = [] →
   Menu.navigateMenuWithArrows 7 true MenuExamples.closed
   = Throw TypeError MenuExamples.closed)
  ∧ (∀ f l, Menu.menu_links MenuExamples.theMenu = f :: l → 7%nat ∉ f :: l →
       Menu.navigateMenuWithArrows 7 true MenuExamples.closed
       = Ret tt (Menu.focus (Menu.FocusLink f) MenuExamples.closed)
       ∧ ∃ z, last (f :: l) = Some z
              ∧ Menu.navigateMenuWithArrows 7 false MenuExamples.closed
                = Ret tt (Menu.focus (Menu.FocusLink z) MenuExamples.closed)).
Proof.
  apply (arrows_at_the_edges MenuExamples.closed MenuExamples.theMenu 7 true).
  reflexivity.
Defined.

Lemma nav_click_scrolls_below_header_witness :
  Menu.handleNavClick Menu.Nothing (Some 64%Z) MenuExamples.closed
  = Ret tt MenuExamples.closed
  ∧ ∃ st', Menu.handleNavClick (Menu.Section_ 900) (Some 64%Z) MenuExamples.closed
           = Ret tt st'
      ∧ Menu.isMenuOpen st' = false
      ∧ Menu.scrolls st' = Menu.scrolls MenuExamples.closed ++ [(900 - default 0 (Some 64) - 20)%Z]
      ∧ links_of st' = links_of MenuExamples.closed
      ∧ (Menu.isMenuOpen MenuExamples.closed = false →
         st' = Menu.scrollTo (900 - default 0 (Some 64) - 20)%Z MenuExamples.closed)
      ∧ (Menu.isMenuOpen MenuExamples.closed = true →
         menu_consistent st' ∧ Menu.activeElement st' = Some Menu.FocusToggle).
Proof.
  apply (nav_click_scrolls_below_header MenuExamples.closed
           MenuExamples.theMenu MenuExamples.theToggle 900 (Some 64%Z)); reflexivity.
Defined.

Lemma other_keys_are_ignored_witness :
  Menu.handleNavKeydown (Menu.handleNavClick Menu.Nothing None) (js "Tab") 0
    MenuExamples.closed = Ret false MenuExamples.closed
  ∧ Menu.handleToggleKeydown (js "Tab") MenuExamples.closed = Ret false MenuExamples.closed
  ∧ Menu.handleDocumentKeydown (js "Tab") MenuExamples.closed = Ret tt MenuExamples.closed.
Proof.
  apply (other_keys_are_ignored (Menu.handleNavClick Menu.Nothing None) (js "Tab") 0
           MenuExamples.closed).
  apply (proj1 (bool_decide_eq_false _)). by vm_compute.
Defined.

(* ------------------------------------------------------------------ *)
(** ** FormValidator: further properties *)
(* ------------------------------------------------------------------ *)

Section FormExtras.
Import Form.

Ltac field_step H He :=
  rewrite ?get_set_field_eq, ?set_set_field;
  cbn [errorElement element with_value with_errorElement with_element with_isValid
       isValid value el_value fmap option_fmap option_map negb andb];
  rewrite ?H, ?He.

Ltac field_done H He :=
  unfold with_isValid, with_value, with_element, with_errorElement;
  cbn [errorElement element isValid value el_value];
  rewrite ?H, ?He; reflexivity.

Lemma validateField_validated fn st :
  validateField fn st
  = Ret (negb (fails fn st)) (set_field fn (validated fn (get_field fn st)) st).
Proof.
  unfold fails, validated.
  destruct (element (get_field fn st)) as [el|] eqn:H.
  - rewrite negb_involutive.
    unfold validateField, reject, set_isValid, clearFieldError, showFieldError.
    unfold mbind, M_bind, bind, modify, get, ret. rewrite H.
    unfold error_display, field_ok.
    set (v := trim (el_value el)).
    destruct (errorElement (get_field fn st)) as [ee|] eqn:He; do 3 field_step H He.
    + destruct (truthy_str v) eqn:Hv; do 3 field_step H He; [|field_done H He].
      destruct fn.
      * destruct (length v <? 2)%nat; do 3 field_step H He; field_done H He.
      * destruct (isValidEmail v); do 3 field_step H He; field_done H He.
      * destruct (length v <? 10)%nat; do 3 field_step H He; field_done H He.
    + destruct (truthy_str v) eqn:Hv; do 3 field_step H He; [|field_done H He].
      destruct fn.
      * destruct (length v <? 2)%nat; do 3 field_step H He; field_done H He.
      * destruct (isValidEmail v); do 3 field_step H He; field_done H He.
      * destruct (length v <? 10)%nat; do 3 field_step H He; field_done H He.
  - rewrite validateField_absent by done. by rewrite set_get_field.
Qed.

Lemma validated_idempotent fn f : validated fn (validated fn f) = validated fn f.
Proof.
  unfold validated. destruct (element f) as [el|] eqn:H; cbn [element]; [|by rewrite H].
  destruct (errorElement f) as [ee|]; cbn [errorElement el_value fmap option_fmap option_map];
    reflexivity.
Qed.

Lemma fails_validated fn st :
  fails fn (set_field fn (validated fn (get_field fn st)) st) = fails fn st.
Proof.
  unfold fails. rewrite get_set_field_eq. unfold validated.
  destruct (element (get_field fn st)) as [el|] eqn:H; cbn [element]; [|by rewrite H].
  by destruct (errorElement (get_field fn st)).
Qed.

(** X18. [validateField] always returns, writes nothing but the entry
    of its own field, leaves the text of the input as typed (the
    trimmed value is kept in the entry only), and is idempotent:
    running it again on the result gives the same verdict and changes
    nothing. *)
Theorem validation_is_idempotent (fn : FieldName) (st : FormValidator) :
  ∃ ok st',
    validateField fn st = Ret ok st'
    ∧ validateField fn st' = Ret ok st'
    ∧ same_but_fields st st'
    ∧ (∀ g, g ≠ fn → get_field g st' = get_field g st)
    ∧ el_value <$> element (get_field fn st') = el_value <$> element (get_field fn st).
Proof.
  eexists _, _. split; [apply validateField_validated|].
  split.
  - rewrite validateField_validated, fails_validated, get_set_field_eq,
      validated_idempotent, set_set_field. reflexivity.
  - split; [apply same_but_fields_set|].
    split; [intros g Hg; by apply get_set_field_ne|].
    rewrite get_set_field_eq. unfold validated.
    destruct (element (get_field fn st)) as [el|] eqn:H; [|by rewrite H].
    by destruct (errorElement (get_field fn st)).
Qed.

(** X19. The [input] listener ([clearFieldError] on a field with its
    input) hides and empties the error element but does not
    revalidate: the valid mark, the stored value and the text of the
    input stay as they were, and so does every other field. *)
Theorem input_clears_error_only (fn : FieldName) (st : FormValidator) (el : InputEl) :
  element (get_field fn st) = Some el →
  ∃ st', clearFieldError fn st = Ret tt st'
    ∧ same_but_fields st st'
    ∧ (∀ g, g ≠ fn → get_field g st' = get_field g st)
    ∧ isValid (get_field fn st') = isValid (get_field fn st)
    ∧ value (get_field fn st') = value (get_field fn st)
    ∧ el_value <$> element (get_field fn st') = Some (el_value el)
    ∧ errorElement (get_field fn st')
      = (λ _, {| err_textContent := []; err_display := js "none" |})
          <$> errorElement (get_field fn st).
Proof.
  intros H.
  destruct (clearFieldError_present fn st el H) as (f' & E & Hv & Hx & Hee & el' & He' & Hk).
  exists (set_field fn f' st). split; [done|].
  split; [apply same_but_fields_set|].
  split; [intros g Hg; by apply get_set_field_ne|].
  rewrite get_set_field_eq, He'. cbn. rewrite Hk. done.
Qed.

Lemma trimStart_spaces s : Forall (λ c, isSpace c = true) s → trimStart s = [].
Proof. induction 1 as [|c s Hc _ IH]; [done|]. cbn [trimStart]. by rewrite Hc. Qed.

Lemma trim_spaces s : Forall (λ c, isSpace c = true) s → trim s = [].
Proof. intros H. unfold trim, trimEnd. by rewrite (trimStart_spaces s H). Qed.

(** X20. A value made of white space only is treated as missing, for
    every field: validation fails, the stored value is empty, and the
    error element (when there is one) shows the required message. *)
Theorem blank_value_is_required (fn : FieldName) (st : FormValidator) (el : InputEl) :
  element (get_field fn st) = Some el →
  Forall (λ c, isSpace c = true) (el_value el) →
  ∃ st', validateField fn st = Ret false st'
    ∧ isValid (get_field fn st') = false
    ∧ value (get_field fn st') = []
    ∧ ∀ ee, errorElement (get_field fn st) = Some ee →
        errorElement (get_field fn st')
        = Some {| err_textContent := msg_required; err_display := js "block" |}.
Proof.
  intros H Hsp.
  destruct (validateField_present fn st el H) as (f' & E & Hv & Hx & Hee & _).
  rewrite (trim_spaces _ Hsp) in *.
  assert (Hok : field_ok fn [] = false) by done.
  rewrite Hok in *. eexists. split; [exact E|]. rewrite get_set_field_eq.
  split_and!; try done.
  intros ee Hsome. rewrite Hee, Hsome. unfold error_display. rewrite Hok. reflexivity.
Qed.

Lemma plain_not_at c : plain c → (c =? 0x40) = false.
Proof. intros [_ H]. by apply N.eqb_neq. Qed.

Lemma count_at_plain l :
  Forall plain l → length (List.filter (λ c, c =? 0x40) l) = 0%nat.
Proof.
  induction 1 as [|c l Hc _ IH]; [done|]. cbn [List.filter].
  by rewrite (plain_not_at c Hc).
Qed.

(** X21. What an accepted email address always has: exactly one [@],
    no white space, at least five characters, and no [@] in first or
    last position. *)
Theorem valid_email_facts (s : list N) :
  isValidEmail s = true →
  length (List.filter (λ c, c =? 0x40) s) = 1%nat
  ∧ Forall (λ c, isSpace c = false) s
  ∧ (5 ≤ length s)%nat
  ∧ (∀ c, head s = Some c → c ≠ 0x40)
  ∧ (∀ c, last s = Some c → c ≠ 0x40).
Proof.
  intros H. apply isValidEmail_shape in H as (l & d & t & -> & Hl & Hd & Ht & Fl & Fd & Ft).
  assert (Hdot : plain 0x2E) by (split; [reflexivity|done]).
  split_and!.
  - rewrite !List.filter_app, !length_app. cbn [List.filter N.eqb Pos.eqb length].
    rewrite !count_at_plain by done. reflexivity.
  - rewrite !Forall_app. split_and!; try (eapply Forall_impl; [eassumption|by intros ? [? _] ]).
    + by repeat constructor.
    + by repeat constructor.
  - rewrite !length_app. cbn [length].
    destruct l, d, t; cbn [length]; try done; lia.
  - destruct l as [|c0 l]; [done|]. cbn. intros c [= <-].
    by apply Forall_cons in Fl as [[_ ?] _].
  - intros c. rewrite !app_assoc, last_app.
    destruct (last t) as [c'|] eqn:Hlast; [|by apply last_None in Hlast].
    intros [= <-]. apply last_Some_elem_of in Hlast.
    rewrite Forall_forall in Ft. by destruct (Ft _ Hlast).
Qed.

Lemma first_failing_None_all st fn : first_failing st = None → fails fn st = false.
Proof.
  intros H. apply first_failing_None in H. unfold fieldNames in H. cbn [forallb] in H.
  destruct (fails name st) eqn:?, (fails email st) eqn:?, (fails message st) eqn:?;
    try done. by destruct fn.
Qed.

Lemma begin_spec st :
  ∃ st', simulateFormSubmission_begin st = Ret tt st'
    ∧ fields st' = fields st ∧ form st' = form st
    ∧ isSubmitting st' = true
    ∧ timers st' = timers st ++ [{| delay := 1500; callback := ResolveLatency |}]
    ∧ activeElement st' = activeElement st
    ∧ successModal st' = successModal st
    ∧ (∀ b, submitButton st = Some b →
         ∃ b', submitButton st' = Some b' ∧ disabled b' = true ∧ loadingClass b' = true).
Proof.
  unfold simulateFormSubmission_begin, setSubmitButtonState.
  unfold mbind, M_bind, bind, modify.
  eexists. split; [reflexivity|].
  cbn [submitButton with_isSubmitting].
  destruct (submitButton st) as [b|] eqn:Hb; cbn; rewrite ?Hb; split_and!; try done.
  intros b0 [= <-]. eauto.
Qed.

(** X22. A submit of a form whose fields all pass, with no submission
    in flight: the handler returns with [isSubmitting] set, the submit
    control disabled and marked loading, and one latency timer of
    1500 ms added; when the latency then resolves the routine returns
    with the success indicator showing, every field cleared and
    unvalidated, [isSubmitting] false and the submit control enabled. *)
Theorem valid_submit_round
    (e : Event) (st : FormValidator) (fo : FormEl) :
  isSubmitting st = false →
  first_failing st = None →
  form st = Some fo →
  ∃ st1 st2,
    handleSubmit e st = Ret (preventDefault e) st1
    ∧ isSubmitting st1 = true
    ∧ timers st1 = timers st ++ [{| delay := 1500; callback := ResolveLatency |}]
    ∧ (∀ b, submitButton st = Some b →
         ∃ b', submitButton st1 = Some b' ∧ disabled b' = true ∧ loadingClass b' = true)
    ∧ simulateFormSubmission_resume Resolved st1 = Ret tt st2
    ∧ success_shown st2
    ∧ cleared st2
    ∧ isSubmitting st2 = false
    ∧ submit_enabled st2.
Proof.
  intros Hs Hf Hfo.
  destruct (handleSubmit_idle e st Hs) as (s1 & _ & F & P & E).
  rewrite (proj1 (first_failing_None st) Hf) in E.
  pose proof (same_but_fields_frame _ _ F) as (Ff & Fb & _ & _ & _ & _ & Ft & _).
  destruct (begin_spec s1) as (st1 & Eb & Bf & Bfo & Bs & Bt & _ & _ & Bb).
  assert (Hel : ∀ fn, is_Some (element (get_field fn st1))).
  { intros fn. pose proof (first_failing_None_all st fn Hf) as Hok.
    pose proof (P fn) as Hp. unfold field_post, fails in *.
    destruct (element (get_field fn st)) as [el|] eqn:Hel; [|done].
    destruct Hp as (_ & _ & _ & el' & He' & _).
    destruct fn; unfold get_field in *; rewrite Bf; eauto. }
  destruct (resume_resolved st1 fo) as (st2 & Er & Hshown & _ & Hcl); [congruence|done|].
  exists st1, st2. split.
  { rewrite E. unfold mbind, M_bind, bind. by rewrite Eb. }
  split; [done|]. split; [by rewrite Bt, Ft|].
  split; [intros b Hb; apply (Bb b); congruence|].
  split; [done|]. split; [done|]. split; [done|].
  pose proof (resume_cleanup Resolved st1) as Hc. by rewrite Er in Hc.
Qed.


Lemma keeps_marks_refl st : keeps_marks st st.
Proof. by intros fn H. Qed.

Lemma keeps_marks_trans a b c : keeps_marks a b → keeps_marks b c → keeps_marks a c.
Proof.
  intros Hab Hbc fn H. destruct (Hbc fn H) as [H1 E1]. destruct (Hab fn H1) as [H2 E2].
  split; [done|congruence].
Qed.

Lemma keeps_marks_fields a b : fields b = fields a → keeps_marks a b.
Proof. intros H fn. destruct fn; unfold get_field; by rewrite H. Qed.

Lemma keeps_marks_set fn f' st :
  (element f' = None →
   element (get_field fn st) = None ∧ isValid f' = isValid (get_field fn st)) →
  keeps_marks st (set_field fn f' st).
Proof.
  intros H g. destruct (decide (g = fn)) as [->|Hne].
  - by rewrite get_set_field_eq.
  - by rewrite get_set_field_ne.
Qed.

Lemma absent_unmarked_keeps st st' :
  absent_unmarked st → keeps_marks st st' → absent_unmarked st'.
Proof. intros Hw Hk fn H. destruct (Hk fn H) as [H1 ->]. by apply Hw. Qed.

Lemma keeping_bind {A B} (c : M FormValidator A) (k : A → M FormValidator B) :
  keeping c → (∀ a, keeping (k a)) → keeping (c ≫= k).
Proof.
  intros Hc Hk s. unfold mbind, M_bind, bind. specialize (Hc s).
  destruct (c s) as [a s1|e s1]; [|done].
  eapply keeps_marks_trans; [exact Hc|apply Hk].
Qed.

Lemma keeping_ret {A} (a : A) : keeping (mret a : M FormValidator A).
Proof. intros s. apply keeps_marks_refl. Qed.

Lemma keeping_modify (f : FormValidator → FormValidator) :
  (∀ s, keeps_marks s (f s)) → keeping (modify f).
Proof. intros H s. apply H. Qed.

Lemma keeping_forEach {A} (l : list A) (f : A → M FormValidator unit) :
  (∀ x, keeping (f x)) → keeping (forEach l f).
Proof.
  intros H. induction l as [|x l IH]; [apply (keeping_ret tt)|].
  cbn [forEach]. apply keeping_bind; [apply H|by intros _].
Qed.

Lemma keeping_try_catch {A} (body : M FormValidator A) (h : exn → M FormValidator A) :
  keeping body → (∀ e, keeping (h e)) → keeping (try_catch body h).
Proof.
  intros Hb Hh s. unfold try_catch. specialize (Hb s).
  destruct (body s) as [a s1|e s1]; [done|].
  eapply keeps_marks_trans; [exact Hb|apply Hh].
Qed.

Lemma keeping_finally {A} (body : M FormValidator A) (fin : M FormValidator unit) :
  keeping body → keeping fin → keeping (finally body fin).
Proof.
  intros Hb Hf s. unfold finally. specialize (Hb s).
  destruct (body s) as [a s1|e s1]; specialize (Hf s1);
    destruct (fin s1); eapply keeps_marks_trans; eauto.
Qed.

Lemma keeping_clearFieldError fn : keeping (clearFieldError fn).
Proof.
  intros s. unfold clearFieldError.
  destruct (errorElement (get_field fn s)); [|apply keeps_marks_refl].
  destruct (element (get_field fn s)) eqn:He; cbn [final];
    apply keeps_marks_set; cbn [element isValid with_errorElement with_element]; done.
Qed.

Lemma keeping_validateField fn : keeping (validateField fn).
Proof.
  intros s. rewrite validateField_validated. cbn [final].
  apply keeps_marks_set. unfold validated.
  destruct (element (get_field fn s)) eqn:He; [done|]. by rewrite He.
Qed.

Lemma keeping_validateEach l b : keeping (validateEach l b).
Proof.
  revert b. induction l as [|fn l IH]; intros b; [apply (keeping_ret b)|].
  cbn [validateEach]. apply keeping_bind; [apply keeping_validateField|].
  intros ok. apply IH.
Qed.

Lemma keeping_setSubmitButtonState b : keeping (setSubmitButtonState b).
Proof.
  apply keeping_modify. intros s. apply keeps_marks_fields.
  by destruct (submitButton s), b.
Qed.

Lemma keeping_handleSubmit e : keeping (handleSubmit e).
Proof.
  unfold handleSubmit. apply keeping_bind; [intros s; apply keeps_marks_refl|].
  intros st. destruct (isSubmitting st); [apply keeping_ret|].
  apply keeping_bind; [apply keeping_validateEach|]. intros ok.
  destruct (negb ok).
  - apply keeping_bind; [|intros _; apply keeping_ret].
    intros s. unfold focusFirstError.
    destruct (find _ _) as [fn|]; [destruct (element (get_field fn s))|];
      apply keeps_marks_fields; done.
  - apply keeping_bind; [|intros _; apply keeping_ret].
    unfold simulateFormSubmission_begin.
    apply keeping_bind; [apply keeping_modify; intros s; by apply keeps_marks_fields|].
    intros _. apply keeping_bind; [apply keeping_setSubmitButtonState|].
    intros _. apply keeping_modify. intros s. by apply keeps_marks_fields.
Qed.

Lemma keeping_resume l : keeping (simulateFormSubmission_resume l).
Proof.
  unfold simulateFormSubmission_resume. apply keeping_finally.
  - apply keeping_try_catch.
    + apply keeping_bind; [destruct l; intros s; apply keeps_marks_refl|].
      intros _. apply keeping_bind.
      * intros s. unfold showSuccessMessage.
        destruct (successModal s); [destruct (modalClose s)|destruct (form s)];
          apply keeps_marks_fields; done.
      * intros _. unfold clearForm, clearAllErrors. apply keeping_bind.
        -- apply keeping_forEach. intros fn. apply keeping_modify. intros s.
           unfold clearEntry. destruct (element (get_field fn s)) eqn:He;
             [|apply keeps_marks_refl].
           apply keeps_marks_set. done.
        -- intros _. apply keeping_forEach. apply keeping_clearFieldError.
    + intros _ s. unfold showErrorMessage. destruct (form s); by apply keeps_marks_fields.
  - apply keeping_bind; [apply keeping_modify; intros s; by apply keeps_marks_fields|].
    intros _. apply keeping_setSubmitButtonState.
Qed.

(** X23. A field without its input element is never marked valid: this
    holds of a new validator and is kept by a blur validation, an input
    event, a submit and the rest of the submission routine, on every
    exit.  (It is the hypothesis of the theorem for C5.) *)
Theorem absent_unmarked_is_invariant
    (p : Page) (fn : FieldName) (e : Event) (l : Latency) (st : FormValidator) :
  absent_unmarked (new p)
  ∧ (absent_unmarked st →
     absent_unmarked (final (validateField fn st))
     ∧ absent_unmarked (final (clearFieldError fn st))
     ∧ absent_unmarked (final (handleSubmit e st))
     ∧ absent_unmarked (final (simulateFormSubmission_resume l st))).
Proof.
  split; [apply absent_unmarked_new|]. intros Hw.
  split_and!; eapply absent_unmarked_keeps; try exact Hw.
  - apply keeping_validateField.
  - apply keeping_clearFieldError.
  - apply keeping_handleSubmit.
  - apply keeping_resume.
Qed.

(** X24. How success is presented.  With the dialog on the page it is
    shown (display flex, class [show], [aria-hidden] false) and the
    inline message and timers are left alone; its three close
    listeners are attached, and its close control focused, only when
    that control exists.  Without the dialog the inline message is
    shown in the form and one 5000 ms timer is added to hide it.
    Without dialog and form the call raises a [TypeError]. *)
Theorem success_presentation (st : FormValidator) :
  (∀ m, successModal st = Some m →
     ∃ st', showSuccessMessage st = Ret tt st'
       ∧ successModal st'
         = Some {| modal_display := js "flex"; modal_show := true;
                   modal_ariaHidden := Some (js "false") |}
       ∧ form st' = form st ∧ timers st' = timers st
       ∧ (if modalClose st
          then activeElement st' = Some FocusModalClose
               ∧ listeners st'
                 = listeners st ++ [CloseClickOnce; EscapeKeydown; BackdropClickOnce]
          else activeElement st' = activeElement st ∧ listeners st' = listeners st))
  ∧ (∀ fo, successModal st = None → form st = Some fo →
       ∃ st', showSuccessMessage st = Ret tt st'
         ∧ form st'
           = Some {| successElement :=
                       Some {| msg_textContent := msg_success; msg_display := js "block" |};
                     formErrorElement := formErrorElement fo |}
         ∧ timers st' = timers st ++ [{| delay := 5000; callback := HideSuccess |}]
         ∧ listeners st' = listeners st ∧ activeElement st' = activeElement st)
  ∧ (successModal st = None → form st = None →
       showSuccessMessage st = Throw TypeError st).
Proof.
  unfold showSuccessMessage. split_and!.
  - intros m ->. destruct (modalClose st); eexists; (split; [reflexivity|]); cbn.
    + rewrite <- !app_assoc. done.
    + done.
  - intros fo -> ->. eexists. split; [reflexivity|]. done.
  - by intros -> ->.
Qed.
End FormExtras.

(* ------------------------------------------------------------------ *)
(** ** PortfolioApp: further properties *)
(* ------------------------------------------------------------------ *)

Section GlobalFacts.
Import Globals.

Lemma isFor_true k p : isFor k p = true ↔ callback p = Debounced k.
Proof.
  unfold isFor. destruct (callback p) as [k'|]; [|done].
  rewrite bool_decide_eq_true. split; [by intros ->|by intros [= ->] ].
Qed.

Lemma notFor_true k p : notFor k p = true ↔ callback p ≠ Debounced k.
Proof.
  unfold notFor. rewrite negb_true_iff, <- not_true_iff_false, isFor_true. done.
Qed.

Lemma elem_of_filter_list {A} (f : A → bool) (l : list A) x :
  x ∈ List.filter f l ↔ x ∈ l ∧ f x = true.
Proof. rewrite !list_elem_of_In. apply List.filter_In. Qed.

Lemma NoDup_fmap_filter {A B} (g : A → B) (f : A → bool) (l : list A) :
  NoDup (g <$> l) → NoDup (g <$> List.filter f l).
Proof.
  induction l as [|a l IH]; [done|]. cbn [fmap list_fmap List.filter].
  intros Hnd. apply NoDup_cons in Hnd as [Ha Hnd].
  destruct (f a); [|by apply IH]. cbn [fmap list_fmap]. apply NoDup_cons. split; [|by apply IH].
  intros Hin. apply Ha. apply list_elem_of_fmap in Hin as (b & -> & Hb).
  apply list_elem_of_fmap. exists b. split; [done|].
  by apply elem_of_filter_list in Hb as [? _].
Qed.

Lemma filter_filter_comm {A} (f g : A → bool) (l : list A) :
  List.filter f (List.filter g l) = List.filter g (List.filter f l).
Proof.
  induction l as [|a l IH]; [done|]. cbn [List.filter].
  destruct (g a) eqn:Hg, (f a) eqn:Hf; cbn [List.filter]; rewrite ?Hg, ?Hf, IH; done.
Qed.

Lemma filter_id_all {A} (f : A → bool) (l : list A) :
  (∀ x, x ∈ l → f x = true) → List.filter f l = l.
Proof.
  induction l as [|a l IH]; [done|]. intros H. cbn [List.filter].
  rewrite (H a (list_elem_of_here _ _)). f_equal. apply IH.
  intros x Hx. apply H. by apply list_elem_of_further.
Qed.

Lemma filter_none {A} (f : A → bool) (l : list A) :
  (∀ x, x ∈ l → f x = false) → List.filter f l = [].
Proof.
  induction l as [|a l IH]; [done|]. intros H. cbn [List.filter].
  rewrite (H a (list_elem_of_here _ _)). apply IH.
  intros x Hx. apply H. by apply list_elem_of_further.
Qed.

Lemma filter_same {A} (f g : A → bool) (l : list A) :
  (∀ x, x ∈ l → f x = g x) → List.filter f l = List.filter g l.
Proof.
  induction l as [|a l IH]; [done|]. intros H. cbn [List.filter].
  rewrite (H a (list_elem_of_here _ _)), IH; [done|].
  intros x Hx. apply H. by apply list_elem_of_further.
Qed.

Lemma filter_and {A} (f g : A → bool) (l : list A) :
  List.filter f (List.filter g l) = List.filter (λ x, g x && f x) l.
Proof.
  induction l as [|a l IH]; [done|]. cbn [List.filter].
  destruct (g a); cbn [List.filter andb]; [destruct (f a)|]; by rewrite IH.
Qed.

Lemma rearmed_timers_S k first m :
  rearmed_timers k first (S m)
  = rearmed_timers k first m
    ++ [{| id := first + m; callback := Debounced k; delay := delayOf k |}].
Proof. unfold rearmed_timers. by rewrite seq_S, fmap_app. Qed.

Lemma elem_of_rearmed_timers k first m p :
  p ∈ rearmed_timers k first m
  ↔ ∃ j, (j < m)%nat
         ∧ p = {| id := first + j; callback := Debounced k; delay := delayOf k |}.
Proof.
  unfold rearmed_timers. rewrite list_elem_of_fmap. split.
  - intros (j & -> & Hj). exists j. split; [|done].
    apply elem_of_seq in Hj. lia.
  - intros (j & Hj & ->). exists j. split; [done|]. apply elem_of_seq. lia.
Qed.

Lemma length_rearmed_timers k first m : length (rearmed_timers k first m) = m.
Proof. unfold rearmed_timers. by rewrite length_fmap, length_seq. Qed.

Lemma length_rearmed k first l : length (rearmed k first l) = length l.
Proof. unfold rearmed. by rewrite length_imap. Qed.

Lemma with_timers_twice a b c a' b' c' st :
  with_timers a b c (with_timers a' b' c' st) = with_timers a b c st.
Proof. reflexivity. Qed.

(** The state after the listeners of the first [m] registrations ran. *)
Lemma listeners_prefix k st m :
  (∀ r i, r ∈ registrations st → slot k r = Some i → (i < nextTimer st)%nat) →
  (m ≤ length (registrations st))%nat →
  foldl (λ s j, listener k j s) st (seq 0 m)
  = with_timers
      (rearmed k (nextTimer st) (take m (registrations st)) ++ drop m (registrations st))
      (nextTimer st + m)
      (List.filter (λ p, bool_decide (id p ∉ remembered k (take m (registrations st))))
         (pending st)
       ++ rearmed_timers k (nextTimer st) m)
      st.
Proof.
  intros Hlt. induction m as [|m IH]; intros Hm.
  - cbn [seq foldl take drop]. unfold rearmed, remembered, rearmed_timers.
    cbn [imap omap list_omap seq fmap list_fmap app].
    rewrite Nat.add_0_r, app_nil_r.
    rewrite filter_id_all.
    2: { intros p _. apply bool_decide_eq_true_2. apply not_elem_of_nil. }
    by destruct st.
  - rewrite seq_S, foldl_app, IH by lia. cbn [foldl Nat.add].
    destruct (lookup_lt_is_Some_2 (registrations st) m ltac:(lia)) as [rm Hrm].
    assert (Hlen : length (rearmed k (nextTimer st) (take m (registrations st))) = m).
    { rewrite length_rearmed, length_take. lia. }
    unfold listener. cbn [registrations with_timers].
    rewrite lookup_app_r by lia. rewrite Hlen, Nat.sub_diag.
    rewrite lookup_drop, Nat.add_0_r, Hrm.
    rewrite (take_S_r _ _ _ Hrm).
    assert (Hdrop : drop m (registrations st) = rm :: drop (S m) (registrations st)).
    { by apply drop_S. }
    assert (Hreg : <[m := with_slot k (Some (nextTimer st + m)%nat) rm]>
                     (rearmed k (nextTimer st) (take m (registrations st))
                      ++ drop m (registrations st))
                   = rearmed k (nextTimer st) (take m (registrations st) ++ [rm])
                     ++ drop (S m) (registrations st)).
    { rewrite Hdrop. rewrite insert_app_r_alt by lia. rewrite Hlen, Nat.sub_diag.
      cbn [insert list_insert]. unfold rearmed at 2. rewrite imap_app.
      fold (rearmed k (nextTimer st) (take m (registrations st))).
      cbn [imap]. rewrite length_take, Nat.min_l by lia.
      rewrite <- app_assoc. cbn [app]. unfold compose. by rewrite Nat.add_0_r. }
    unfold remembered. rewrite omap_app. cbn [omap list_omap].
    fold (remembered k (take m (registrations st))).
    rewrite rearmed_timers_S.
    destruct (slot k rm) as [o|] eqn:Hs.
    + unfold clearTimeout, setTimeout, with_pending, with_registrations.
      cbn [registrations with_timers nextTimer pending].
      rewrite Hreg, !with_timers_twice. f_equal; [lia|].
      rewrite List.filter_app, app_assoc. f_equal.
      assert (Ho : (o < nextTimer st)%nat).
      { apply (Hlt rm); [|done]. by apply list_elem_of_lookup_2 in Hrm. }
      f_equal.
      * rewrite filter_and. apply filter_same. intros p _.
        destruct (decide (id p = o)) as [->|Hne].
        -- rewrite Nat.eqb_refl, andb_false_r. symmetry. apply bool_decide_eq_false_2.
           intros H. apply H, elem_of_app. right. apply list_elem_of_here.
        -- apply Nat.eqb_neq in Hne as Hb. rewrite Hb, andb_true_r.
           apply bool_decide_ext. split; [|by intros [? _]%not_elem_of_app ].
           intros H. apply not_elem_of_app. split; [done|].
           by intros ?%list_elem_of_singleton.
      * apply filter_id_all. intros p (j & Hj & ->)%elem_of_rearmed_timers.
        cbn [id]. apply negb_true_iff, Nat.eqb_neq. lia.
    + unfold clearTimeout, setTimeout, with_pending, with_registrations.
      cbn [registrations with_timers nextTimer pending].
      rewrite Hreg, app_nil_r, !with_timers_twice. f_equal; [lia|]. by rewrite app_assoc.
Qed.

Lemma slot_with_slot k k' v r :
  slot k' (with_slot k v r) = if decide (k' = k) then v else slot k' r.
Proof. by destruct k, k'. Qed.

Lemma elem_of_rearmed k first l r' :
  r' ∈ rearmed k first l
  ↔ ∃ j r, l !! j = Some r ∧ r' = with_slot k (Some (first + j)%nat) r.
Proof.
  unfold rearmed. rewrite elem_of_lookup_imap. split.
  - intros (j & r & -> & Hr). by exists j, r.
  - intros (j & r & Hr & ->). by exists j, r.
Qed.

(** Among the pending timers, those whose identifier a listener of
    the handler remembers are those of the handler. *)
Lemma remembered_isFor k st p :
  debounced st → p ∈ pending st →
  bool_decide (id p ∉ remembered k (registrations st)) = notFor k p.
Proof.
  intros Hd Hp. unfold notFor. destruct (isFor k p) eqn:Hf; cbn [negb].
  - apply bool_decide_eq_false_2. intros H. apply H.
    apply isFor_true, (Hd p k Hp) in Hf as (r & Hr & Hs).
    apply list_elem_of_omap. by exists r.
  - apply bool_decide_eq_true_2. intros (r & Hr & Hs)%list_elem_of_omap.
    assert (callback p = Debounced k) as Hc by (apply (Hd p k Hp); by exists r).
    apply isFor_true in Hc. congruence.
Qed.

(** One event, in one step: every timer of the handler is replaced by
    a new one per registration, which that registration remembers. *)
Lemma onEvent_exact k st :
  timers_wf st → debounced st →
  onEvent k st
  = with_timers
      (rearmed k (nextTimer st) (registrations st))
      (nextTimer st + length (registrations st))
      (othersThan k st ++ rearmed_timers k (nextTimer st) (length (registrations st)))
      st.
Proof.
  intros (_ & _ & Hsl) Hd. unfold onEvent.
  rewrite listeners_prefix; [|intros r i Hr; by apply Hsl|done].
  rewrite firstn_all, drop_all, app_nil_r. f_equal. f_equal.
  unfold othersThan. apply filter_same. intros p Hp. by apply remembered_isFor.
Qed.

Lemma filter_isFor_rearmed k first m :
  List.filter (isFor k) (rearmed_timers k first m) = rearmed_timers k first m.
Proof.
  apply filter_id_all. intros p (j & _ & ->)%elem_of_rearmed_timers.
  by apply isFor_true.
Qed.

Lemma filter_notFor_rearmed k first m :
  List.filter (notFor k) (rearmed_timers k first m) = [].
Proof.
  apply filter_none. intros p (j & _ & ->)%elem_of_rearmed_timers.
  unfold notFor. apply negb_false_iff. by apply isFor_true.
Qed.

Lemma NoDup_rearmed_ids k first m : NoDup (id <$> rearmed_timers k first m).
Proof.
  unfold rearmed_timers. rewrite <- list_fmap_compose.
  apply NoDup_fmap_2; [|apply NoDup_seq]. intros i j. cbn. lia.
Qed.

Lemma onEvent_spec k st :
  timers_wf st → debounced st →
  let st' := onEvent k st in
  timers_wf st' ∧ debounced st'
  ∧ length (registrations st') = length (registrations st)
  ∧ pendingFor k st'
    = rearmed_timers k (nextTimer st) (length (registrations st))
  ∧ othersThan k st' = othersThan k st
  ∧ (∀ k', runs k' st' = runs k' st).
Proof.
  intros Hwf Hd. cbn zeta. rewrite (onEvent_exact k st Hwf Hd).
  destruct Hwf as (Hnd & Hlt & Hsl).
  set (N0 := nextTimer st). set (regs := registrations st).
  assert (Hold : ∀ p, p ∈ othersThan k st → p ∈ pending st ∧ notFor k p = true).
  { intros p. unfold othersThan. by rewrite elem_of_filter_list. }
  split_and!.
  - split_and!; cbn [pending nextTimer registrations with_timers].
    + rewrite fmap_app. apply NoDup_app. split_and!.
      * unfold othersThan. by apply NoDup_fmap_filter.
      * intros i (p & -> & [Hp _]%Hold)%list_elem_of_fmap
                 (q & Hq & (j & _ & ->)%elem_of_rearmed_timers)%list_elem_of_fmap.
        cbn [id] in Hq. specialize (Hlt p Hp). fold N0 in Hlt. lia.
      * apply NoDup_rearmed_ids.
    + intros p [[Hp _]%Hold | (j & Hj & ->)%elem_of_rearmed_timers]%elem_of_app.
      * specialize (Hlt p Hp). fold N0 in Hlt. lia.
      * cbn [id]. lia.
    + intros r' k' i (j & r & Hr & ->)%elem_of_rearmed. rewrite slot_with_slot.
      apply lookup_lt_Some in Hr as Hj. fold regs in Hj.
      destruct (decide (k' = k)); [intros [= <-]; lia|].
      intros Hs. apply list_elem_of_lookup_2 in Hr.
      specialize (Hsl r k' i Hr Hs). fold N0 in Hsl. lia.
  - intros p k'. cbn [pending registrations with_timers].
    intros [[Hp Hnf]%Hold | (j & Hj & ->)%elem_of_rearmed_timers]%elem_of_app.
    + destruct (decide (k' = k)) as [->|Hne].
      * split.
        -- intros Hc%isFor_true. unfold notFor in Hnf. by rewrite Hc in Hnf.
        -- intros (r' & (j & r & Hr & ->)%elem_of_rearmed & Hs).
           rewrite slot_with_slot, decide_True in Hs by done. injection Hs as Hs.
           specialize (Hlt p Hp). fold N0 in Hlt. lia.
      * rewrite (Hd p k' Hp). split.
        -- intros (r & Hr & Hs). apply list_elem_of_lookup_1 in Hr as (j & Hr).
           exists (with_slot k (Some (N0 + j)%nat) r). split.
           ++ apply elem_of_rearmed. by exists j, r.
           ++ by rewrite slot_with_slot, decide_False.
        -- intros (r' & (j & r & Hr & ->)%elem_of_rearmed & Hs).
           rewrite slot_with_slot, decide_False in Hs by done.
           exists r. split; [|done]. by apply list_elem_of_lookup_2 in Hr.
    + cbn [callback id]. destruct (decide (k' = k)) as [->|Hne].
      * split; [|done]. intros _.
        destruct (lookup_lt_is_Some_2 regs j Hj) as [r Hr].
        exists (with_slot k (Some (N0 + j)%nat) r). split.
        -- apply elem_of_rearmed. by exists j, r.
        -- by rewrite slot_with_slot, decide_True.
      * split; [intros [= ->]; done|].
        intros (r' & (j' & r & Hr & ->)%elem_of_rearmed & Hs).
        rewrite slot_with_slot, decide_False in Hs by done.
        apply list_elem_of_lookup_2 in Hr.
        specialize (Hsl r k' _ Hr Hs). fold N0 in Hsl. lia.
  - cbn [registrations with_timers]. apply length_rearmed.
  - unfold pendingFor. cbn [pending with_timers].
    rewrite List.filter_app, filter_isFor_rearmed.
    unfold othersThan. rewrite filter_none; [done|].
    intros p [_ Hnf]%elem_of_filter_list. unfold notFor in Hnf.
    by apply negb_true_iff in Hnf.
  - unfold othersThan at 1. cbn [pending with_timers].
    rewrite List.filter_app, filter_notFor_rearmed, app_nil_r.
    unfold othersThan. apply filter_id_all.
    by intros p [_ Hnf]%elem_of_filter_list.
  - by intros [].
Qed.

(** Soundness looks at the registrations, the pending timers and the
    next identifier only. *)
Lemma sound_ext st st' :
  registrations st' = registrations st → nextTimer st' = nextTimer st →
  pending st' = pending st →
  timers_wf st ∧ debounced st → timers_wf st' ∧ debounced st'.
Proof.
  intros Hr Hn Hp [Hwf Hd]. unfold timers_wf, debounced. by rewrite Hr, Hn, Hp.
Qed.

(** Dropping pending timers keeps the bookkeeping sound. *)
Lemma sound_filter (f : Pending → bool) st :
  timers_wf st ∧ debounced st →
  let st' := with_pending (nextTimer st) (List.filter f (pending st)) st in
  timers_wf st' ∧ debounced st'.
Proof.
  intros [(Hnd & Hlt & Hsl) Hd]. cbn zeta. split.
  - split_and!; cbn [pending nextTimer registrations with_pending with_timers].
    + by apply NoDup_fmap_filter.
    + intros p [Hp _]%elem_of_filter_list. by apply Hlt.
    + exact Hsl.
  - intros p k. cbn [pending registrations with_pending with_timers].
    intros [Hp _]%elem_of_filter_list. by apply Hd.
Qed.

Lemma same_id_same_timer (l : list Pending) p q :
  NoDup (id <$> l) → p ∈ l → q ∈ l → id p = id q → p = q.
Proof.
  induction l as [|a l IH]; [by intros _ ?%elem_of_nil|].
  cbn [fmap list_fmap]. intros [Ha Hnd]%NoDup_cons Hp Hq Heq.
  apply elem_of_cons in Hp as [->|Hp], Hq as [->|Hq]; try done.
  - exfalso. apply Ha. rewrite Heq. by apply list_elem_of_fmap_2.
  - exfalso. apply Ha. rewrite <- Heq. by apply list_elem_of_fmap_2.
  - by apply IH.
Qed.

Lemma find_pending (l : list Pending) p :
  NoDup (id <$> l) → p ∈ l → List.find (λ q, Nat.eqb (id q) (id p)) l = Some p.
Proof.
  intros Hnd Hp.
  destruct (List.find _ l) as [q|] eqn:Hf.
  - apply List.find_some in Hf as [Hq Hid]. apply Nat.eqb_eq in Hid.
    f_equal. apply (same_id_same_timer l); try done. by apply list_elem_of_In.
  - exfalso. apply list_elem_of_In in Hp. apply (List.find_none _ _ Hf) in Hp.
    by rewrite Nat.eqb_refl in Hp.
Qed.

(** The two handlers touch no timer and no registration. *)
Lemma handler_frame k st :
  let st' := match k with Resize => handleWindowResize st | Scroll => handleScroll st end in
  registrations st' = registrations st ∧ nextTimer st' = nextTimer st
  ∧ pending st' = pending st
  ∧ (∀ k', runs k' st' = if decide (k' = k) then S (runs k' st) else runs k' st).
Proof.
  destruct k; cbn zeta.
  - unfold handleWindowResize, updateLayoutForScreenSize.
    cbn [hasNavigation count_run]. destruct (hasNavigation st);
      (split_and!; [done|done|done|by intros []]).
  - unfold handleScroll. split_and!; [done|done|done|by intros []].
Qed.

(** A timer fires: it leaves the pending list, and when it belongs to
    a debounced handler that handler runs once. *)
Lemma fire_frame i st :
  registrations (fire i st) = registrations st
  ∧ nextTimer (fire i st) = nextTimer st
  ∧ (pending (fire i st) = pending st
     ∨ pending (fire i st) = List.filter (λ q, negb (Nat.eqb (id q) i)) (pending st)).
Proof.
  unfold fire. destruct (List.find _ _) as [p|]; [|by auto].
  set (st1 := with_pending _ _ st).
  destruct (callback p) as [k|].
  - destruct (handler_frame k st1) as (Hr & Hn & Hp & _).
    destruct k; rewrite Hr, Hn, Hp; by auto.
  - by auto.
Qed.

Lemma fire_sound i st :
  timers_wf st ∧ debounced st → timers_wf (fire i st) ∧ debounced (fire i st).
Proof.
  intros Hs. destruct (fire_frame i st) as (Hr & Hn & [Hp|Hp]).
  - by apply (sound_ext st).
  - apply (sound_ext (with_pending (nextTimer st)
                        (List.filter (λ q, negb (Nat.eqb (id q) i)) (pending st)) st));
      [done..|]. by apply sound_filter.
Qed.

Lemma fire_pending k st p :
  timers_wf st → p ∈ pending st →
  let st' := fire (id p) st in
  pending st' = List.filter (λ q, negb (Nat.eqb (id q) (id p))) (pending st)
  ∧ runs k st' = if isFor k p then S (runs k st) else runs k st.
Proof.
  intros (Hnd & _ & _) Hp. cbn zeta. unfold fire.
  rewrite (find_pending _ p Hnd Hp).
  set (st1 := with_pending _ _ st). unfold isFor.
  destruct (callback p) as [k'|]; [|done].
  destruct (handler_frame k' st1) as (_ & _ & Hpe & Hru).
  specialize (Hru k).
  assert (Hb : bool_decide (k' = k) = if decide (k = k') then true else false).
  { destruct (decide (k = k')) as [->|Hne]; [by apply bool_decide_eq_true_2|].
    apply bool_decide_eq_false_2. congruence. }
  rewrite Hb. destruct k'; rewrite Hpe, Hru; (split; [done|]);
    destruct (decide _); done.
Qed.

(** All pending timers of a handler fire: the handler runs once for
    each, none of its timers is left, the others stay. *)
Lemma fire_each k (l : list Pending) : ∀ st,
  timers_wf st ∧ debounced st → pendingFor k st = l →
  let st' := foldl (λ s p, fire (id p) s) st l in
  pendingFor k st' = [] ∧ othersThan k st' = othersThan k st
  ∧ runs k st' = (runs k st + length l)%nat.
Proof.
  induction l as [|p l IH]; intros st Hs Hl; cbn zeta.
  - cbn [foldl length]. split_and!; [done|done|lia].
  - cbn [foldl length].
    assert (Hp : p ∈ pending st ∧ isFor k p = true).
    { apply elem_of_filter_list. fold (pendingFor k st). rewrite Hl.
      apply list_elem_of_here. }
    destruct Hp as [Hp Hf].
    destruct (fire_pending k st p (proj1 Hs) Hp) as (Hpe & Hru). rewrite Hf in Hru.
    pose proof (fire_sound (id p) st Hs) as Hs'.
    assert (Hnd : NoDup (id <$> pendingFor k st)).
    { apply NoDup_fmap_filter. apply Hs. }
    rewrite Hl in Hnd. cbn [fmap list_fmap] in Hnd. apply NoDup_cons in Hnd as [Hnotin _].
    assert (Hl' : pendingFor k (fire (id p) st) = l).
    { unfold pendingFor. rewrite Hpe, filter_filter_comm.
      fold (pendingFor k st). rewrite Hl. cbn [List.filter].
      rewrite Nat.eqb_refl. cbn [negb]. apply filter_id_all.
      intros q Hq. apply negb_true_iff, Nat.eqb_neq. intros Heq.
      apply Hnotin. rewrite <- Heq. by apply list_elem_of_fmap_2. }
    destruct (IH _ Hs' Hl') as (H1 & H2 & H3).
    split_and!; [done| |lia].
    rewrite H2. unfold othersThan. rewrite Hpe, filter_filter_comm.
    apply filter_id_all. intros q [Hq Hnf]%elem_of_filter_list.
    apply negb_true_iff, Nat.eqb_neq. intros Heq.
    assert (q = p) as -> by (apply (same_id_same_timer (pending st)); try done; apply Hs).
    unfold notFor in Hnf. by rewrite Hf in Hnf.
Qed.

(** A burst of events. *)
Lemma burst_spec k n st :
  timers_wf st ∧ debounced st →
  let st' := Nat.iter (S n) (onEvent k) st in
  (timers_wf st' ∧ debounced st')
  ∧ length (registrations st') = length (registrations st)
  ∧ (∃ first, pendingFor k st' = rearmed_timers k first (length (registrations st)))
  ∧ othersThan k st' = othersThan k st
  ∧ runs k st' = runs k st.
Proof.
  intros [Hwf Hd]. induction n as [|n IH].
  - cbn [Nat.iter].
    destruct (onEvent_spec k st Hwf Hd) as (? & ? & ? & Hp & ? & Hr).
    split_and!; try done. by eexists.
  - destruct IH as ([Hwf' Hd'] & Hlen & _ & Ho & Hr).
    change (Nat.iter (S (S n)) (onEvent k) st)
      with (onEvent k (Nat.iter (S n) (onEvent k) st)).
    destruct (onEvent_spec k _ Hwf' Hd') as (? & ? & Hlen' & Hp & Ho' & Hr').
    split_and!; try done.
    + congruence.
    + eexists. rewrite Hp, Hlen. reflexivity.
    + congruence.
    + by rewrite Hr'.
Qed.

(** Whatever happened since the page was loaded, the bookkeeping is
    sound and there is one registration for each run of the setup. *)
Lemma step_sound a st :
  timers_wf st ∧ debounced st →
  (timers_wf (step a st) ∧ debounced (step a st))
  ∧ length (registrations (step a st))
    = (length (registrations st) + if isSetup a then 1 else 0)%nat.
Proof.
  intros Hs. destruct a as [| |k|i|ms|w y h|b n]; cbn [step isSetup].
  - split; [|cbn; lia]. by apply (sound_ext st).
  - split; [|cbn; rewrite length_app; cbn; lia].
    destruct Hs as [(Hnd & Hlt & Hsl) Hd]. split.
    + split_and!; [done|done|].
      intros r k i. cbn [registrations setupGlobalEventListeners with_registrations with_timers].
      intros [Hr | ->%list_elem_of_singleton]%elem_of_app; [by apply Hsl|by destruct k].
    + intros p k Hp. rewrite (Hd p k Hp).
      cbn [registrations setupGlobalEventListeners with_registrations with_timers].
      split.
      * intros (r & Hr & Hsr). exists r. split; [|done]. apply elem_of_app. by left.
      * intros (r & [Hr | ->%list_elem_of_singleton]%elem_of_app & Hsr);
          [by exists r|by destruct k].
  - destruct Hs as [Hwf Hd].
    destruct (onEvent_spec k st Hwf Hd) as (? & ? & Hlen & _). split; [done|lia].
  - split; [by apply fire_sound|].
    destruct (fire_frame i st) as (-> & _). lia.
  - split; [|cbn; lia]. destruct Hs as [(Hnd & Hlt & Hsl) Hd]. split.
    + split_and!; cbn [setTimeout snd pending nextTimer registrations with_pending with_timers].
      * rewrite fmap_app. apply NoDup_app. split_and!; [done| |apply NoDup_singleton].
        intros i (p & -> & Hp)%list_elem_of_fmap Heq%list_elem_of_singleton.
        specialize (Hlt p Hp). cbn [id] in Heq. lia.
      * intros p [Hp | ->%list_elem_of_singleton]%elem_of_app; [|cbn; lia].
        specialize (Hlt p Hp). lia.
      * intros r k i Hr Hsr. specialize (Hsl r k i Hr Hsr). lia.
    + intros p k.
      cbn [setTimeout snd pending nextTimer registrations with_pending with_timers].
      intros [Hp | ->%list_elem_of_singleton]%elem_of_app; [by apply Hd|].
      cbn [callback id]. split; [done|].
      intros (r & Hr & Hsr). specialize (Hsl r k _ Hr Hsr). lia.
  - split; [|cbn; lia]. by apply (sound_ext st).
  - split; [|cbn; lia]. by apply (sound_ext st).
Qed.

Lemma run_sound history : ∀ st,
  timers_wf st ∧ debounced st →
  (timers_wf (run history st) ∧ debounced (run history st))
  ∧ length (registrations (run history st))
    = (length (registrations st) + setups history)%nat.
Proof.
  unfold run, setups.
  induction history as [|a history IH]; intros st Hs; cbn [foldl List.filter].
  - split; [done|cbn; lia].
  - destruct (step_sound a st Hs) as (Hs' & Hlen).
    destruct (IH _ Hs') as (Hs'' & Hlen'). split; [done|].
    rewrite Hlen', Hlen. destruct (isSetup a); cbn [length]; lia.
Qed.

Lemma sound_at_load st :
  registrations st = [] → pending st = [] → timers_wf st ∧ debounced st.
Proof.
  intros Hr Hp. unfold timers_wf, debounced. rewrite Hr, Hp. split_and!.
  - apply NoDup_nil_2.
  - by intros p ?%elem_of_nil.
  - by intros r k i ?%elem_of_nil.
  - by intros p k ?%elem_of_nil.
Qed.

(** X25. Debouncing, listener by listener.  Every run of
    [setupGlobalEventListeners] adds a resize and a scroll listener
    over timeout variables of its own, and [init] runs it again on
    every [reinitialize].  From a page with nothing registered and no
    timer pending, after any history of setups, events, timers firing,
    timeouts of other components and changes of the window: there is
    one registration per run of the setup, and a burst of one or more
    resize (or scroll) events leaves exactly one pending timer per
    registration for the handler, each with the delay of 150 ms
    (10 ms), without the handler having run and without touching any
    other timer; when those timers fire, the handler runs once per
    registration (once after one [init], twice after a
    [reinitialize]) and no timer of it is left. *)
Theorem burst_runs_handler_per_registration
    (k : Kind) (n : nat) (history : list Step) (st0 : State) :
  registrations st0 = [] → pending st0 = [] → (0 < n)%nat →
  let st := run history st0 in
  let st' := Nat.iter n (onEvent k) st in
  length (registrations st) = setups history
  ∧ length (pendingFor k st') = setups history
  ∧ Forall (λ p, delay p = delayOf k) (pendingFor k st')
  ∧ othersThan k st' = othersThan k st
  ∧ runs k st' = runs k st
  ∧ runs k (fireAll k st') = (runs k st + setups history)%nat
  ∧ pendingFor k (fireAll k st') = []
  ∧ othersThan k (fireAll k st') = othersThan k st.
Proof.
  intros Hr Hp Hn. destruct n as [|n]; [lia|]. cbn zeta.
  destruct (run_sound history st0 (sound_at_load st0 Hr Hp)) as (Hs & Hlen).
  rewrite Hr in Hlen. cbn [length Nat.add] in Hlen.
  destruct (burst_spec k n _ Hs) as (Hs' & Hlen' & (first & Hpf) & Ho & Hru).
  destruct (fire_each k _ _ Hs' eq_refl) as (F1 & F2 & F3).
  unfold fireAll. rewrite F1, F2, F3, Hpf, length_rearmed_timers, Hlen, Ho, Hru.
  split_and!; try done.
  apply Forall_forall. by intros p (j & _ & ->)%elem_of_rearmed_timers.
Qed.
Lemma elem_of_toggleClass name force s c :
  c ∈ toggleClass name force s ↔ if decide (c = name) then force = true else c ∈ s.
Proof.
  unfold toggleClass. destruct force.
  - rewrite elem_of_union, elem_of_singleton.
    destruct (decide (c = name)); split; auto. by intros [?|?].
  - rewrite elem_of_difference, elem_of_singleton.
    destruct (decide (c = name)); split; try done.
    + by intros [_ ?].
    + by intros [? _].
Qed.

(** X26. After [handleWindowResize] with a navigation manager, the body
    carries [is-mobile] exactly when the window is narrower than 768
    and [is-desktop] exactly when it is not (so exactly one of the
    two), and every other class is as before; without a navigation
    manager the classes are not touched. *)
Theorem layout_classes_exclusive (st : State) :
  let st' := handleWindowResize st in
  (hasNavigation st = false → bodyClasses st' = bodyClasses st)
  ∧ (hasNavigation st = true →
     (js "is-mobile" ∈ bodyClasses st' ↔ (innerWidth st < 768)%Z)
     ∧ (js "is-desktop" ∈ bodyClasses st' ↔ (768 ≤ innerWidth st)%Z)
     ∧ ∀ c, c ≠ js "is-mobile" → c ≠ js "is-desktop" →
            (c ∈ bodyClasses st' ↔ c ∈ bodyClasses st)).
Proof.
  unfold handleWindowResize, updateLayoutForScreenSize.
  cbn [hasNavigation count_run innerWidth bodyClasses mainNav].
  split; [by intros ->|]. intros ->. cbn [bodyClasses with_classes].
  assert (Hne : js "is-mobile" ≠ js "is-desktop").
  { intros H. vm_compute in H. discriminate. }
  split_and!.
  - rewrite elem_of_toggleClass. case_decide; [done|].
    rewrite elem_of_toggleClass. case_decide; [|done]. apply Z.ltb_lt.
  - rewrite elem_of_toggleClass. case_decide; [|done].
    rewrite negb_true_iff. apply Z.ltb_ge.
  - intros c H1 H2. rewrite elem_of_toggleClass. case_decide; [done|].
    rewrite elem_of_toggleClass. by case_decide.
Qed.

(** X27. After [handleScroll] the body carries [has-scrolled] exactly
    when the page is scrolled by more than 50 (at exactly 50 it does
    not), the [.main-nav] element, when the page has one, carries
    [scrolled] under the same condition, and every other class is as
    before. *)
Theorem scroll_marks_past_threshold (st : State) :
  let st' := handleScroll st in
  (js "has-scrolled" ∈ bodyClasses st' ↔ (50 < scrollY st)%Q)
  ∧ (∀ n, mainNav st = Some n →
       ∃ n', mainNav st' = Some n'
         ∧ (js "scrolled" ∈ n' ↔ (50 < scrollY st)%Q)
         ∧ ∀ c, c ≠ js "scrolled" → (c ∈ n' ↔ c ∈ n))
  ∧ (mainNav st = None → mainNav st' = None)
  ∧ (∀ c, c ≠ js "has-scrolled" → (c ∈ bodyClasses st' ↔ c ∈ bodyClasses st)).
Proof.
  unfold handleScroll. cbn [scrollY count_run bodyClasses mainNav with_classes].
  assert (Hthr : negb (Qle_bool (scrollY st) 50) = true ↔ (50 < scrollY st)%Q).
  { rewrite negb_true_iff. split.
    - intros H. apply Qnot_le_lt. intros Hle. apply Qle_bool_iff in Hle. congruence.
    - intros H. destruct (Qle_bool (scrollY st) 50) eqn:E; [|done].
      apply Qle_bool_iff in E. exfalso. by apply (Qlt_not_le _ _ H). }
  split_and!.
  - rewrite elem_of_toggleClass. by case_decide.
  - intros n ->. eexists. split; [reflexivity|]. split.
    + rewrite elem_of_toggleClass. by case_decide.
    + intros c Hc. rewrite elem_of_toggleClass. by case_decide.
  - by intros ->.
  - intros c Hc. rewrite elem_of_toggleClass. by case_decide.
Qed.

End GlobalFacts.

Section WrapperFacts.
Import App.

(** X28. The wrapper the coordinator builds is sound in itself: called
    around [toggle], it flips the theme, then sets the theme-color meta
    tag (when the page has one) to the colour of the new theme and
    dispatches exactly one [portfolioThemeChange] event carrying the
    new theme.  (It is only the method name that keeps it from being
    installed.) *)
Theorem wrapper_around_toggle_notifies (app : PortfolioApp) (t : ThemeObject) :
  themeManager app = Some t →
  let newTheme := nextTheme (Theme.currentTheme (instance t)) in
  ∃ app', invoke (Wrapper (Method Theme.m_toggle)) app = Ret tt app'
    ∧ (λ t', Theme.currentTheme (instance t')) <$> themeManager app' = Some newTheme
    ∧ dispatched app'
      = dispatched app ++ [{| type := js "portfolioThemeChange";
                              detail_theme := Some newTheme |}]
    ∧ themeColorMeta app'
      = (λ _, if str_eqb newTheme Theme.dark then js "#1a1a1a" else js "#ffffff")
          <$> themeColorMeta app.
Proof.
  intros Ht newTheme. cbn [invoke Theme.call].
  unfold onThemeChange, updateThemeSpecificElements.
  unfold mbind, M_bind, bind, modify.
  unfold onTheme. rewrite Ht.
  set (w := {| Theme.this := instance t; Theme.page := themePage app |}).
  destruct (toggle_spec w) as (E & Hen & _).
  destruct (set_enumerated _ w Hen) as (w' & E' & Hc & _ & Hd & _).
  rewrite E, E'. cbn [Theme.this Theme.page w] in Hc, Hd.
  fold (nextTheme (Theme.currentTheme (instance t))) in Hc, Hd. fold newTheme in Hc, Hd.
  eexists. split; [reflexivity|].
  cbn [themeColorMeta with_themeManager themePage].
  destruct (themeColorMeta app) as [c|] eqn:Hmeta;
    cbn [themeManager dispatched themeColorMeta with_themeManager fmap option_fmap option_map
         instance];
    rewrite ?Hmeta, Hc; (split; [done|]); (split; [done|]); [|done].
  rewrite Hd. cbn [fmap option_fmap option_map]. f_equal.
  assert (Hdark : newTheme = Theme.light ∨ newTheme = Theme.dark) by (apply nextTheme_enumerated).
  destruct Hdark as [-> | ->]; reflexivity.
Qed.
End WrapperFacts.

Lemma input_clears_error_only_witness :
  ∃ st', Form.clearFieldError Form.email Examples.filled = Ret tt st'
    ∧ same_but_fields Examples.filled st'
    ∧ (∀ g, g ≠ Form.email → Form.get_field g st' = Form.get_field g Examples.filled)
    ∧ Form.isValid (Form.get_field Form.email st')
      = Form.isValid (Form.get_field Form.email Examples.filled)
    ∧ Form.value (Form.get_field Form.email st')
      = Form.value (Form.get_field Form.email Examples.filled)
    ∧ Form.el_value <$> Form.element (Form.get_field Form.email st')
      = Some (Form.el_value (Examples.input (js "a@b.co")))
    ∧ Form.errorElement (Form.get_field Form.email st')
      = (λ _, {| Form.err_textContent := []; Form.err_display := js "none" |})
          <$> Form.errorElement (Form.get_field Form.email Examples.filled).
Proof.
  apply (input_clears_error_only Form.email Examples.filled (Examples.input (js "a@b.co"))).
  reflexivity.
Defined.

Lemma blank_value_is_required_witness :
  let st := Examples.validator (Some (js "   ")) (Some []) (Some []) in
  ∃ st', Form.validateField Form.name st = Ret false st'
    ∧ Form.isValid (Form.get_field Form.name st') = false
    ∧ Form.value (Form.get_field Form.name st') = []
    ∧ ∀ ee, Form.errorElement (Form.get_field Form.name st) = Some ee →
        Form.errorElement (Form.get_field Form.name st')
        = Some {| Form.err_textContent := Form.msg_required;
                  Form.err_display := js "block" |}.
Proof.
  apply (blank_value_is_required Form.name
           (Examples.validator (Some (js "   ")) (Some []) (Some []))
           (Examples.input (js "   "))).
  - reflexivity.
  - repeat constructor.
Defined.

Lemma valid_email_facts_witness :
  length (List.filter (λ c, c =? 0x40) (js "a@b.co")) = 1%nat
  ∧ Forall (λ c, isSpace c = false) (js "a@b.co")
  ∧ (5 ≤ length (js "a@b.co"))%nat
  ∧ (∀ c, head (js "a@b.co") = Some c → c ≠ 0x40)
  ∧ (∀ c, last (js "a@b.co") = Some c → c ≠ 0x40).
Proof. apply (valid_email_facts (js "a@b.co")). reflexivity. Defined.

Lemma valid_submit_round_witness :
  ∃ st1 st2,
    Form.handleSubmit Examples.submitEvent Examples.filled
    = Ret (Form.preventDefault Examples.submitEvent) st1
    ∧ Form.isSubmitting st1 = true
    ∧ Form.timers st1
      = Form.timers Examples.filled
          ++ [{| Form.delay := 1500; Form.callback := Form.ResolveLatency |}]
    ∧ (∀ b, Form.submitButton Examples.filled = Some b →
         ∃ b', Form.submitButton st1 = Some b'
               ∧ Form.disabled b' = true ∧ Form.loadingClass b' = true)
    ∧ Form.simulateFormSubmission_resume Form.Resolved st1 = Ret tt st2
    ∧ success_shown st2
    ∧ cleared st2
    ∧ Form.isSubmitting st2 = false
    ∧ submit_enabled st2.
Proof.
  apply (valid_submit_round Examples.submitEvent Examples.filled
           {| Form.successElement := None; Form.formErrorElement := None |});
    reflexivity.
Defined.

Lemma absent_unmarked_is_invariant_witness :
  absent_unmarked
    (final (Form.handleSubmit Examples.submitEvent Examples.noNameInput)).
Proof.
  apply (proj2 (absent_unmarked_is_invariant
                  (Examples.formPage None (Some (js "a@b")) (Some (js "0123456789")))
                  Form.name Examples.submitEvent Form.Resolved Examples.noNameInput)).
  apply absent_unmarked_new.
Defined.

Lemma success_presentation_witness :
  ∃ st', Form.showSuccessMessage Examples.inFlight = Ret tt st'
    ∧ Form.form st'
      = Some {| Form.successElement :=
                  Some {| Form.msg_textContent := Form.msg_success;
                          Form.msg_display := js "block" |};
                Form.formErrorElement := None |}
    ∧ Form.timers st'
      = Form.timers Examples.inFlight
          ++ [{| Form.delay := 5000; Form.callback := Form.HideSuccess |}]
    ∧ Form.listeners st' = Form.listeners Examples.inFlight
    ∧ Form.activeElement st' = Form.activeElement Examples.inFlight.
Proof.
  apply (proj1 (proj2 (success_presentation Examples.inFlight))
           {| Form.successElement := None; Form.formErrorElement := None |});
    reflexivity.
Defined.

Lemma burst_runs_handler_per_registration_witness :
  let st := Globals.run GlobalExamples.reinitialized GlobalExamples.atLoad in
  let st' := Nat.iter 3 (Globals.onEvent Globals.Resize) st in
  length (Globals.registrations st) = 2%nat
  ∧ length (Globals.pendingFor Globals.Resize st') = 2%nat
  ∧ Forall (λ p, Globals.delay p = 150) (Globals.pendingFor Globals.Resize st')
  ∧ othersThan Globals.Resize st' = othersThan Globals.Resize st
  ∧ Globals.runs Globals.Resize st' = Globals.runs Globals.Resize st
  ∧ Globals.runs Globals.Resize (fireAll Globals.Resize st')
    = (Globals.runs Globals.Resize st + 2)%nat
  ∧ Globals.pendingFor Globals.Resize (fireAll Globals.Resize st') = []
  ∧ othersThan Globals.Resize (fireAll Globals.Resize st') = othersThan Globals.Resize st.
Proof.
  apply (burst_runs_handler_per_registration Globals.Resize 3
           GlobalExamples.reinitialized GlobalExamples.atLoad).
  - reflexivity.
  - reflexivity.
  - lia.
Defined.

Lemma layout_classes_exclusive_witness :
  let st' := Globals.handleWindowResize GlobalExamples.fresh in
  (js "is-mobile" ∈ Globals.bodyClasses st' ↔ (1024 < 768)%Z)
  ∧ (js "is-desktop" ∈ Globals.bodyClasses st' ↔ (768 ≤ 1024)%Z)
  ∧ ∀ c, c ≠ js "is-mobile" → c ≠ js "is-desktop" →
         (c ∈ Globals.bodyClasses st' ↔ c ∈ Globals.bodyClasses GlobalExamples.fresh).
Proof.
  apply (proj2 (layout_classes_exclusive GlobalExamples.fresh)). reflexivity.
Defined.

Lemma scroll_marks_past_threshold_witness :
  ∃ n', Globals.mainNav (Globals.handleScroll GlobalExamples.fresh) = Some n'
    ∧ (js "scrolled" ∈ n' ↔ (50 < Globals.scrollY GlobalExamples.fresh)%Q)
    ∧ ∀ c, c ≠ js "scrolled" → (c ∈ n' ↔ c ∈ (∅ : gset (list N))).
Proof.
  apply (proj1 (proj2 (scroll_marks_past_threshold GlobalExamples.fresh)) ∅).
  reflexivity.
Defined.

Lemma wrapper_around_toggle_notifies_witness :
  ∃ app', App.invoke (App.Wrapper (App.Method Theme.m_toggle)) Examples.app = Ret tt app'
    ∧ (λ t', Theme.currentTheme (App.instance t')) <$> App.themeManager app'
      = Some (nextTheme Theme.dark)
    ∧ App.dispatched app'
      = App.dispatched Examples.app
          ++ [{| App.type := js "portfolioThemeChange";
                 App.detail_theme := Some (nextTheme Theme.dark) |}]
    ∧ App.themeColorMeta app'
      = (λ _, if str_eqb (nextTheme Theme.dark) Theme.dark
              then js "#1a1a1a" else js "#ffffff")
          <$> App.themeColorMeta Examples.app.
Proof.
  apply (wrapper_around_toggle_notifies Examples.app
           {| App.instance := {| Theme.currentTheme := Theme.dark; Theme.button := true |};
              App.toggleTheme := None |}).
  by vm_compute.
Defined.

Lemma resize_closes_at_breakpoint_witness :
  Menu.handleResize 500 MenuExamples.closed = Ret tt MenuExamples.closed.
Proof.
  apply (proj1 (proj2 (resize_closes_at_breakpoint 500 MenuExamples.closed))). lia.
Defined.
